(** * ImageTranscoderJS: the dimension resolver, the format registry,
      the single-image converter and the batch walker

    A shallow embedding of [src/config.ts], [src/imageProcessor.ts] and
    [src/index.ts], and the properties of the specification proved on it.

    Numbers.  The code computes on TypeScript [number]s.  The embedding is
    written once, over an interface [Arithmetic] of the operations the code
    uses ([*], [/], [<], [!==], [Math.round], [Math.min], truthiness), and the
    interface has two instances:
    - [Double.t], IEEE 754 binary64 as the Standard Library specifies it,
      which is what the code runs on;
    - [Exact.number], where products and quotients of finite values are exact
      rationals, and division by zero, [Infinity] and [NaN] follow
      ECMAScript with every zero taken as [+0].
    What depends only on control flow is proved for every instance.  What is
    arithmetic (bounds, exact hits) is proved on [Double.t], from the
    Standard Library's definitions of rounding, under the size bounds each
    statement names.  [Exact.number] is the arithmetic the formulas of the
    specification read as; it is not what the code runs on, and the two
    differ wherever a double rounds a product or a ratio to the other side
    of a half-integer, so no property rests on it alone: where it appears,
    it stands beside the statement on doubles.

    The world.  The file system, the codec and Node's [path] are parameters:
    any implementation that returns or throws.  For the batch walker
    [findImageFiles] is one of them (any list of paths); on its own it is
    embedded over a directory tree.  The command line ([cli.ts]) is not
    embedded. *)

From Stdlib Require Import ZArith QArith Qround Lia List String Ascii Bool.
From Stdlib Require Import SpecFloat.
Import ListNotations.

Set Implicit Arguments.

(** ** ECMAScript numbers *)

(** The operations of [number] the code uses. *)
Class Arithmetic (N : Type) : Type := {
  mul : N -> N -> N;              (* x * y *)
  div : N -> N -> N;              (* x / y *)
  ltb : N -> N -> bool;           (* x < y *)
  strict_neq : N -> N -> bool;    (* x !== y *)
  Math_round : N -> N;
  Math_min : N -> N -> N;
  truthy : N -> bool              (* ToBoolean *)
}.

Declare Scope js_scope.
Delimit Scope js_scope with js.

Notation "x * y" := (mul x y) : js_scope.
Notation "x / y" := (div x y) : js_scope.
Notation "x <? y" := (ltb x y) : js_scope.
Notation "x >? y" := (ltb y x) : js_scope.

Module Exact.

(** Exact numbers: a rational, an infinity or NaN.  The arithmetic the
    formulas of the specification read as, not the one the code runs on. *)
Inductive number : Type :=
| Fin (q : Q)
| PosInf
| NegInf
| NaN.

Definition of_Z (z : Z) : number := Fin (inject_Z z).

(** [0 * Infinity] is NaN. *)
Definition mul (x y : number) : number :=
  match x, y with
  | NaN, _ | _, NaN => NaN
  | Fin a, Fin b => Fin (a * b)
  | Fin a, PosInf | PosInf, Fin a =>
      match a ?= 0 with Gt => PosInf | Lt => NegInf | Eq => NaN end
  | Fin a, NegInf | NegInf, Fin a =>
      match a ?= 0 with Gt => NegInf | Lt => PosInf | Eq => NaN end
  | PosInf, PosInf | NegInf, NegInf => PosInf
  | PosInf, NegInf | NegInf, PosInf => NegInf
  end.

(** A non-zero value over zero is an infinity, [0 / 0] and
    [Infinity / Infinity] are NaN. *)
Definition div (x y : number) : number :=
  match x, y with
  | NaN, _ | _, NaN => NaN
  | Fin a, Fin b =>
      match b ?= 0 with
      | Eq => match a ?= 0 with Gt => PosInf | Lt => NegInf | Eq => NaN end
      | _ => Fin (a / b)
      end
  | Fin _, PosInf | Fin _, NegInf => Fin 0
  | PosInf, Fin b => match b ?= 0 with Lt => NegInf | _ => PosInf end
  | NegInf, Fin b => match b ?= 0 with Lt => PosInf | _ => NegInf end
  | PosInf, PosInf | PosInf, NegInf | NegInf, PosInf | NegInf, NegInf => NaN
  end.

(** [x < y] is false as soon as one side is NaN. *)
Definition ltb (x y : number) : bool :=
  match x, y with
  | NaN, _ | _, NaN => false
  | Fin a, Fin b => match a ?= b with Lt => true | _ => false end
  | NegInf, NegInf | PosInf, _ | _, NegInf => false
  | NegInf, _ | _, PosInf => true
  end.

Definition strict_neq (a b : number) : bool :=
  match a, b with
  | Fin x, Fin y => negb (Qeq_bool x y)
  | PosInf, PosInf | NegInf, NegInf => false
  | _, _ => true
  end.

(** The nearest integer, ties towards [+Infinity]. *)
Definition Math_round (x : number) : number :=
  match x with
  | Fin q => of_Z (Qfloor (q + (1 # 2)))
  | other => other
  end.

Definition Math_min (x y : number) : number :=
  match x, y with
  | NaN, _ | _, NaN => NaN
  | _, _ => if ltb y x then y else x
  end.

(** [0] and [NaN] are falsy. *)
Definition truthy (x : number) : bool :=
  match x with
  | Fin q => negb (Qeq_bool q 0)
  | NaN => false
  | _ => true
  end.

End Exact.

Module Double.

(** IEEE 754 binary64. *)
Definition prec : Z := 53.
Definition emax : Z := 1024.
Definition t : Type := spec_float.

Definition of_Z (z : Z) : t := binary_normalize prec emax z 0 false.

Definition mul : t -> t -> t := SFmul prec emax.
Definition div : t -> t -> t := SFdiv prec emax.
Definition ltb : t -> t -> bool := SFltb.
Definition strict_neq (x y : t) : bool := negb (SFeqb x y).

(** [floor (x + 1/2)], computed on the integers: for [x = +-m * 2^-k] it is
    [(+-2m + 2^k) / 2^(k+1)]; a value with a non-negative exponent is an
    integer already.  A zero result keeps the sign of [x]. *)
Definition Math_round (x : t) : t :=
  match x with
  | S754_finite s m (Zneg k) =>
      let twice := (2 * (if s then Zneg m else Zpos m))%Z in
      let n := ((twice + 2 ^ Zpos k) / 2 ^ (Zpos k + 1))%Z in
      binary_normalize prec emax n 0 s
  | other => other
  end.

(** [Math.min]: [NaN] if either is, [-0] below [+0], else the smaller. *)
Definition Math_min (x y : t) : t :=
  match x, y with
  | S754_nan, _ | _, S754_nan => S754_nan
  | S754_zero sx, S754_zero sy => S754_zero (sx || sy)
  | _, _ => if SFltb y x then y else x
  end.

Definition truthy (x : t) : bool :=
  match x with
  | S754_zero _ | S754_nan => false
  | _ => true
  end.

End Double.

#[export] Instance exact_arithmetic : Arithmetic Exact.number := {|
  mul := Exact.mul;
  div := Exact.div;
  ltb := Exact.ltb;
  strict_neq := Exact.strict_neq;
  Math_round := Exact.Math_round;
  Math_min := Exact.Math_min;
  truthy := Exact.truthy
|}.

#[export] Instance double_arithmetic : Arithmetic Double.t := {|
  mul := Double.mul;
  div := Double.div;
  ltb := Double.ltb;
  strict_neq := Double.strict_neq;
  Math_round := Double.Math_round;
  Math_min := Double.Math_min;
  truthy := Double.truthy
|}.

(** An optional property [o?: number] used as a condition: [Some v] when the
    property is defined and truthy, so that [undefined] and [0] both read as
    absent. *)
Definition given {N : Type} {arith : Arithmetic N} (o : option N) : option N :=
  match o with
  | Some v => if truthy v then Some v else None
  | None => None
  end.

(** An optional boolean property used as a condition. *)
Definition flag (o : option bool) : bool :=
  match o with Some b => b | None => false end.

(** ** [types.ts] *)

Record ImageProcessingOptions (N : Type) : Type := mkOptions {
  format : string;
  width : option N;
  height : option N;
  minWidth : option N;
  minHeight : option N;
  maxWidth : option N;
  maxHeight : option N;
  quality : option N;
  allowUpscale : option bool
}.
Arguments mkOptions {N}.

Module Dimensions.
(** The object [{ width, height }] returned by the resolver. *)
Record t (N : Type) : Type := mk { width : N; height : N }.
Arguments mk {N}.
End Dimensions.

(** ** [imageProcessor.ts]: [calculateTargetDimensions] *)

Section Resolver.
Context {N : Type} {arith : Arithmetic N}.

(** The pair of locals [targetWidth], [targetHeight] threaded through the
    function. *)
Definition target : Type := (N * N)%type.

Variables originalWidth originalHeight : N.
Variable options : ImageProcessingOptions N.

Local Open Scope js_scope.

(** Lines 24-39: apply width/height constraints. *)
Definition applyWidthHeight (t : target) : target :=
  match given (width options), given (height options) with
  | Some w, None =>
      (w, Math_round ((originalHeight * w) / originalWidth))
  | None, Some h =>
      (Math_round ((originalWidth * h) / originalHeight), h)
  | Some w, Some h =>
      let widthRatio := w / originalWidth in
      let heightRatio := h / originalHeight in
      let ratio := Math_min widthRatio heightRatio in
      (Math_round (originalWidth * ratio), Math_round (originalHeight * ratio))
  | None, None => t
  end.

(** Lines 42-51: minimum width. In the else branch [targetWidth] is
    assigned first, and the division reads the assigned value. *)
Definition applyMinWidth (t : target) : target :=
  let '(targetWidth, targetHeight) := t in
  match given (minWidth options) with
  | Some m =>
      if targetWidth <? m then
        if flag (allowUpscale options) then
          let scale := m / targetWidth in
          let targetWidth := m in
          (targetWidth, Math_round (targetHeight * scale))
        else
          let targetWidth := m in
          (targetWidth, Math_round ((targetHeight * m) / targetWidth))
      else t
  | None => t
  end.

(** Lines 52-61: minimum height. *)
Definition applyMinHeight (t : target) : target :=
  let '(targetWidth, targetHeight) := t in
  match given (minHeight options) with
  | Some m =>
      if targetHeight <? m then
        if flag (allowUpscale options) then
          let scale := m / targetHeight in
          let targetHeight := m in
          (Math_round (targetWidth * scale), targetHeight)
        else
          let targetHeight := m in
          (Math_round ((targetWidth * m) / targetHeight), targetHeight)
      else t
  | None => t
  end.

(** Lines 64-68: maximum width. *)
Definition applyMaxWidth (t : target) : target :=
  let '(targetWidth, targetHeight) := t in
  match given (maxWidth options) with
  | Some m =>
      if targetWidth >? m then
        let scale := m / targetWidth in
        (m, Math_round (targetHeight * scale))
      else t
  | None => t
  end.

(** Lines 69-73: maximum height. *)
Definition applyMaxHeight (t : target) : target :=
  let '(targetWidth, targetHeight) := t in
  match given (maxHeight options) with
  | Some m =>
      if targetHeight >? m then
        let scale := m / targetHeight in
        (Math_round (targetWidth * scale), m)
      else t
  | None => t
  end.

Definition calculateTargetDimensions : Dimensions.t N :=
  let t := (originalWidth, originalHeight) in
  let t := applyWidthHeight t in
  let t := applyMinWidth t in
  let t := applyMinHeight t in
  let t := applyMaxWidth t in
  let t := applyMaxHeight t in
  Dimensions.mk (fst t) (snd t).

End Resolver.

(** ** [config.ts] *)

Local Open Scope string_scope.

(** [String.prototype.toLowerCase] on the ASCII range: the format names and
    extensions handled here are ASCII, and no character outside ASCII
    lower-cases to a letter of a supported format name. *)
Definition lower_ascii (c : ascii) : ascii :=
  let n := nat_of_ascii c in
  if ((65 <=? n) && (n <=? 90))%nat then ascii_of_nat (n + 32) else c.

Fixpoint toLowerCase (s : string) : string :=
  match s with
  | EmptyString => EmptyString
  | String c rest => String (lower_ascii c) (toLowerCase rest)
  end.

(** [Array.prototype.includes] on an array of strings. *)
Definition includes (l : list string) (x : string) : bool :=
  existsb (String.eqb x) l.

Definition SUPPORTED_INPUT_FORMATS : list string :=
  ["jpg"; "jpeg"; "png"; "webp"; "gif"; "tiff"; "bmp"; "avif"; "heic"; "heif"].

Definition SUPPORTED_OUTPUT_FORMATS : list string :=
  ["jpg"; "jpeg"; "png"; "webp"; "gif"; "tiff"; "bmp"; "avif"].

Definition QUALITY_SUPPORTED_FORMATS : list string :=
  ["jpg"; "jpeg"; "webp"; "avif"].

Definition isSupportedInputFormat (format : string) : bool :=
  includes SUPPORTED_INPUT_FORMATS (toLowerCase format).

Definition isSupportedOutputFormat (format : string) : bool :=
  includes SUPPORTED_OUTPUT_FORMATS (toLowerCase format).

Definition formatSupportsQuality (format : string) : bool :=
  includes QUALITY_SUPPORTED_FORMATS format.

(** A thrown value: an [Error] object with its message, or any other value,
    kept as the text [String(value)] gives. *)
Inductive exn : Type :=
| Error (message : string)
| NonError (text : string).

(** The result of a call that either returns or throws. *)
Inductive outcome (A : Type) : Type :=
| Return (a : A)
| Throw (e : exn).
Arguments Return {A} a.
Arguments Throw {A} e.

(** [error instanceof Error ? error.message : String(error)] *)
Definition messageOf (error : exn) : string :=
  match error with Error message => message | NonError text => text end.

Definition normalizeFormat (format : string) : outcome string :=
  let normalized := toLowerCase format in
  if normalized =? "jpg" then Return "jpeg"
  else if isSupportedOutputFormat normalized then Return normalized
  else Throw (Error ("Unsupported format: " ++ format)).

(** The spec's "jpg is jpeg" mapping, applied to an already lower-cased
    name. *)
Definition jpgToJpeg (normalized : string) : string :=
  if normalized =? "jpg" then "jpeg" else normalized.

(** ** [types.ts], continued *)

Record ProcessResult : Type := mkResult {
  inputPath : string;
  outputPath : string;
  success : bool;
  error : option string;
  originalSize : option Z;
  newSize : option Z
}.

Record ProcessingSummary : Type := mkSummary {
  total : nat;
  successful : nat;
  failed : nat;
  results : list ProcessResult
}.

(** The fields of [CliOptions] that [index.ts] reads; [dryRun], [verbose],
    [silent] and [config] belong to the command line only. *)
Record CliOptions (N : Type) : Type := mkCli {
  processing : ImageProcessingOptions N;   (* extends ImageProcessingOptions *)
  input : string;
  output : string;
  recursive : option bool;
  overwrite : option bool
}.

(** The object literal of a successful conversion. *)
Definition succeeded (i o : string) (before after : Z) : ProcessResult :=
  mkResult i o true None (Some before) (Some after).

(** The object literal of a failed conversion. *)
Definition failedWith (i o msg : string) : ProcessResult :=
  mkResult i o false (Some msg) None None.

Definition ALREADY_EXISTS : string :=
  "Output file already exists. Use --overwrite to replace it.".

(** What the codec and the file system hand back. *)
Record Stats : Type := mkStats { size : Z; isDirectory : bool }.
Record Metadata (N : Type) : Type := mkMetadata {
  meta_width : option N;
  meta_height : option N
}.
Record ResizeOptions : Type := mkResize {
  fit : string;
  withoutEnlargement : bool
}.

(** ** Effects: calls that read or change the world and may throw *)

Section Effects.
Variable world : Type.

Definition M (A : Type) : Type := world -> outcome A * world.

Definition ret {A} (a : A) : M A := fun w => (Return a, w).
Definition throw {A} (e : exn) : M A := fun w => (Throw e, w).
Definition bind {A B} (m : M A) (k : A -> M B) : M B :=
  fun w => match m w with
           | (Return a, w') => k a w'
           | (Throw e, w') => (Throw e, w')
           end.
(** [try { m } catch (e) { h e }] *)
Definition try_catch {A} (m : M A) (h : exn -> M A) : M A :=
  fun w => match m w with
           | (Return a, w') => (Return a, w')
           | (Throw e, w') => h e w'
           end.
(** A synchronous call that may throw and leaves the world alone. *)
Definition lift {A} (o : outcome A) : M A := fun w => (o, w).

End Effects.

Arguments ret {world A} a.
Arguments throw {world A} e.
Arguments bind {world A B} m k.
Arguments try_catch {world A} m h.
Arguments lift {world A} o.

Notation "x <- m ;; k" := (bind m (fun x => k))
  (at level 61, m at next level, right associativity).
Notation "m ;;; k" := (bind m (fun _ => k))
  (at level 61, right associativity).

(** ** [imageProcessor.ts]: [processImage], and [index.ts] *)

Section Converter.
Context {N : Type} {arith : Arithmetic N}.
Variable world : Type.
(** The codec's pipeline object. *)
Variable pipeline : Type.

(** [fs/promises] *)
Variable fs_stat : string -> M world Stats.
Variable fs_access : string -> M world unit.
Variable fs_mkdir : string -> M world unit.
(** [sharp] *)
Variable sharp : string -> outcome pipeline.
Variable sharp_metadata : string -> M world (Metadata N).
Variable resize : pipeline -> N -> N -> ResizeOptions -> outcome pipeline.
Variable toFormat : pipeline -> string -> option N -> outcome pipeline.
Variable toFile : pipeline -> string -> M world unit.
(** [path] *)
Variable path_dirname : string -> string.
Variable path_extname : string -> string.
Variable path_basename : string -> string -> string.
Variable path_relative : string -> string -> string.
Variable path_join : string -> string -> string.
(** [findImageFiles] (lines 63-82 of [index.ts]), the directory traversal:
    any list of paths, or a throw. *)
Variable findImageFiles : string -> bool -> M world (list string).

Definition processImage (inputPath outputPath : string)
    (options : ImageProcessingOptions N) : M world ProcessResult :=
  try_catch
    (originalStats <- fs_stat inputPath ;;
     let originalSize := size originalStats in
     metadata <- sharp_metadata inputPath ;;
     match given (meta_width metadata), given (meta_height metadata) with
     | Some metadata_width, Some metadata_height =>
         let d := calculateTargetDimensions metadata_width metadata_height options in
         let width := Dimensions.width d in
         let height := Dimensions.height d in
         pipeline0 <- lift (sharp inputPath) ;;
         pipeline1 <-
           (if strict_neq width metadata_width || strict_neq height metadata_height
            then lift (resize pipeline0 width height
                         (mkResize "inside" (negb (flag (allowUpscale options)))))
            else ret pipeline0) ;;
         format <- lift (normalizeFormat (format options)) ;;
         let sharpFormat := if format =? "jpeg" then "jpg" else format in
         pipeline2 <-
           (match formatSupportsQuality format, quality options with
            | true, Some q => lift (toFormat pipeline1 sharpFormat (Some q))
            | _, _ => lift (toFormat pipeline1 sharpFormat None)
            end) ;;
         toFile pipeline2 outputPath ;;;
         newStats <- fs_stat outputPath ;;
         let newSize := size newStats in
         ret (succeeded inputPath outputPath originalSize newSize)
     | _, _ => throw (Error "Unable to read image dimensions")
     end)
    (fun error => ret (failedWith inputPath outputPath (messageOf error))).

(** The options object both callers build for [processImage]. *)
Definition optionsFor (format : string) (options : CliOptions N)
    : ImageProcessingOptions N :=
  let o := processing options in
  mkOptions format (width o) (height o) (minWidth o) (minHeight o)
    (maxWidth o) (maxHeight o) (quality o) (allowUpscale o).

(** Lines 25-38 and 146-160 of [index.ts]: [true] when overwrite is off and
    [fs.access] found the output path. *)
Definition outputExists (options : CliOptions N) (outputPath : string)
    : M world bool :=
  if negb (flag (overwrite options)) then
    try_catch (fs_access outputPath ;;; ret true) (fun _ => ret false)
  else ret false.

Definition convertSingleImage (inputPath outputPath : string)
    (options : CliOptions N) : M world ProcessResult :=
  let outputDir := path_dirname outputPath in
  fs_mkdir outputDir ;;;
  blocked <- outputExists options outputPath ;;
  if blocked then ret (failedWith inputPath outputPath ALREADY_EXISTS)
  else
    format <- lift (normalizeFormat (format (processing options))) ;;
    processImage inputPath outputPath (optionsFor format options).

Definition generateOutputPath (inputPath inputDir outputDir format : string)
    : string :=
  let relativePath := path_relative inputDir inputPath in
  let dirname := path_dirname relativePath in
  let basename := path_basename relativePath (path_extname relativePath) in
  let outputSubDir :=
    if dirname =? "." then outputDir else path_join outputDir dirname in
  let outputFileName := basename ++ "." ++ format in
  path_join outputSubDir outputFileName.

Section Directory.
Variables inputDir outputDir : string.
Variable options : CliOptions N.
Variable format : string.

(** One turn of the loop of lines 142-180: the results after [inputPath]
    was handled. *)
Definition convertFile (inputPath : string) (results : list ProcessResult)
    : M world (list ProcessResult) :=
  let outputPath := generateOutputPath inputPath inputDir outputDir format in
  blocked <- outputExists options outputPath ;;
  if blocked then
    ret (results ++ [failedWith inputPath outputPath ALREADY_EXISTS])%list
  else
    let outputSubDir := path_dirname outputPath in
    fs_mkdir outputSubDir ;;;
    result <- processImage inputPath outputPath (optionsFor format options) ;;
    ret (results ++ [result])%list.

(** The [for ... of] loop over [imageFiles]. *)
Fixpoint convertFiles (imageFiles : list string) (results : list ProcessResult)
    : M world (list ProcessResult) :=
  match imageFiles with
  | [] => ret results
  | inputPath :: rest =>
      results' <- convertFile inputPath results ;;
      convertFiles rest results'
  end.
End Directory.

(** Lines 182-190: the summary object built from [results]. *)
Definition summarize (results : list ProcessResult) : ProcessingSummary :=
  let successful := List.length (filter (fun r => success r) results) in
  let failed := List.length (filter (fun r => negb (success r)) results) in
  mkSummary (List.length results) successful failed results.

Definition convertDirectory (inputDir outputDir : string) (options : CliOptions N)
    : M world ProcessingSummary :=
  fs_mkdir outputDir ;;;
  imageFiles <- findImageFiles inputDir
                  (match recursive options with Some b => b | None => false end) ;;
  if (List.length imageFiles =? 0)%nat then ret (mkSummary 0 0 0 [])
  else
    format <- lift (normalizeFormat (format (processing options))) ;;
    results <- convertFiles inputDir outputDir options format imageFiles [] ;;
    ret (summarize results).

End Converter.

(** ** The spec's data model: Dimensions and Constraint Sets of integers *)

Module ConstraintSet.
(** The Constraint Set of the specification: six optional integers and the
    upscale permission. *)
Record t : Type := mk {
  targetWidth : option Z;
  targetHeight : option Z;
  minWidth : option Z;
  minHeight : option Z;
  maxWidth : option Z;
  maxHeight : option Z;
  allowUpscale : bool
}.
End ConstraintSet.

(** The options object that carries a Constraint Set, its integers made
    numbers by [of_Z]. *)
Definition optionsOf {N : Type} (of_Z : Z -> N) (format : string)
    (quality : option N) (c : ConstraintSet.t) : ImageProcessingOptions N :=
  mkOptions format
    (option_map of_Z (ConstraintSet.targetWidth c))
    (option_map of_Z (ConstraintSet.targetHeight c))
    (option_map of_Z (ConstraintSet.minWidth c))
    (option_map of_Z (ConstraintSet.minHeight c))
    (option_map of_Z (ConstraintSet.maxWidth c))
    (option_map of_Z (ConstraintSet.maxHeight c))
    quality
    (Some (ConstraintSet.allowUpscale c)).

(** An optional field that is absent or a positive integer. *)
Definition positiveIfSet (o : option Z) : bool :=
  match o with Some z => (1 <=? z)%Z | None => true end.

(** [min <= max] where both are present. *)
Definition ordered (lo hi : option Z) : bool :=
  match lo, hi with Some a, Some b => (a <=? b)%Z | _, _ => true end.

(** Well-formed input of the resolver: original dimensions at least 1, every
    constraint present a positive integer, [min <= max] per axis. *)
Definition wellFormed (originalWidth originalHeight : Z) (c : ConstraintSet.t)
    : bool :=
  (1 <=? originalWidth)%Z && (1 <=? originalHeight)%Z
  && positiveIfSet (ConstraintSet.targetWidth c)
  && positiveIfSet (ConstraintSet.targetHeight c)
  && positiveIfSet (ConstraintSet.minWidth c)
  && positiveIfSet (ConstraintSet.minHeight c)
  && positiveIfSet (ConstraintSet.maxWidth c)
  && positiveIfSet (ConstraintSet.maxHeight c)
  && ordered (ConstraintSet.minWidth c) (ConstraintSet.maxWidth c)
  && ordered (ConstraintSet.minHeight c) (ConstraintSet.maxHeight c).

(** The resolver on integer dimensions and a Constraint Set: [resolve] in
    exact arithmetic, for reference, and [resolveDouble] as the code
    computes it. *)
Definition resolve (originalWidth originalHeight : Z) (c : ConstraintSet.t)
    : Dimensions.t Exact.number :=
  calculateTargetDimensions
    (Exact.of_Z originalWidth) (Exact.of_Z originalHeight)
    (optionsOf Exact.of_Z "png" None c).

Definition resolveDouble (originalWidth originalHeight : Z)
    (c : ConstraintSet.t) : Dimensions.t Double.t :=
  calculateTargetDimensions
    (Double.of_Z originalWidth) (Double.of_Z originalHeight)
    (optionsOf Double.of_Z "png" None c).

(** *** The same two properties as decidable checks on doubles *)

Module OnDoubles.

(** [x <= z], as [!(x > z)] would test it. *)
Definition within (x : Double.t) (z : Z) : bool :=
  negb (Double.ltb (Double.of_Z z) x).

Definition equals (x : Double.t) (z : Z) : bool := SFeqb x (Double.of_Z z).

(** Both targets set: inside the box, one side exact. *)
Definition fitsBox (ow oh tw th : Z) : bool :=
  let d := resolveDouble ow oh
             (ConstraintSet.mk (Some tw) (Some th) None None None None false) in
  within (Dimensions.width d) tw && within (Dimensions.height d) th
  && (equals (Dimensions.width d) tw || equals (Dimensions.height d) th).

(** The maximums that are set are not exceeded. *)
Definition respectsMax (ow oh : Z) (c : ConstraintSet.t) : bool :=
  let d := resolveDouble ow oh c in
  match ConstraintSet.maxWidth c with
  | Some m => within (Dimensions.width d) m
  | None => true
  end
  && match ConstraintSet.maxHeight c with
     | Some m => within (Dimensions.height d) m
     | None => true
     end.

Definition upto (n : nat) : list Z := map Z.of_nat (seq 1 n).
Definition orNone (l : list Z) : list (option Z) := None :: map Some l.

(** Every original up to 8x8 and every box up to 5x5. *)
Definition smallBoxes : bool :=
  forallb (fun ow => forallb (fun oh =>
    forallb (fun tw => forallb (fun th => fitsBox ow oh tw th) (upto 5)) (upto 5))
    (upto 8)) (upto 8).

(** A grid of well-formed Constraint Sets, with and without upscale. *)
Definition smallConstraintSets : bool :=
  forallb (fun ow => forallb (fun oh =>
    forallb (fun t => forallb (fun mnw => forallb (fun mnh =>
    forallb (fun mxw => forallb (fun mxh => forallb (fun up =>
      let c := ConstraintSet.mk t None mnw mnh mxw mxh up in
      negb (wellFormed ow oh c) || respectsMax ow oh c)
      [true; false]) (orNone [2; 9]%Z)) (orNone [3; 9]%Z))
      (orNone [2; 7]%Z)) (orNone [4]%Z)) (orNone [1; 20]%Z))
    [1; 5; 98]%Z) [1; 6; 49]%Z.

End OnDoubles.

Import Exact(number, Fin, PosInf, NegInf, NaN, of_Z).

(** A dimension that is a non-negative integer no larger than [bound]. *)
Definition atMost (x : number) (bound : Z) : Prop :=
  exists z : Z, x = of_Z z /\ (0 <= z <= bound)%Z.

(** What the two locals can hold while the minimum stages run: non-negative
    integers, not both zero, or one of them [Infinity] beside a positive
    integer. *)
Inductive reachable : @target number -> Prop :=
| reach_fin (w h : Z) :
    (0 <= w)%Z -> (0 <= h)%Z -> (0 < w \/ 0 < h)%Z -> reachable (of_Z w, of_Z h)
| reach_inf_h (w : Z) : (0 < w)%Z -> reachable (of_Z w, PosInf)
| reach_inf_w (h : Z) : (0 < h)%Z -> reachable (PosInf, of_Z h).

(** What they can hold while the maximum stages run. *)
Inductive tame : @target number -> Prop :=
| tame_fin (w h : Z) : (0 <= w)%Z -> (0 <= h)%Z -> tame (of_Z w, of_Z h)
| tame_inf_h (w : Z) : (0 <= w)%Z -> tame (of_Z w, PosInf)
| tame_inf_w (h : Z) : (0 <= h)%Z -> tame (PosInf, of_Z h).

(** ** Doubles: values, validity and bounds

    The vocabulary of the proofs about [Double.t]. *)

Local Open Scope Z_scope.

(** What the round bit and the sticky bit of a shift record say of the part
    [num / den] that was shifted out: nothing, less than a half, a half, or
    more than a half. *)
Definition encodes (r s : bool) (num den : Z) : Prop :=
  0 <= num < den
  /\ match r, s with
     | false, false => num = 0
     | false, true => 0 < num /\ 2 * num < den
     | true, false => 2 * num = den
     | true, true => den < 2 * num
     end.

(** What [binary_round_aux] may return for the integer [m'] of units
    [2 ^ e1]: zero, the float of that exact value, or an overflow. *)
Definition rounds_to (sx : bool) (m' e1 : Z) (r : spec_float) : Prop :=
  (m' = 0 /\ r = S754_zero sx)
  \/ (0 < m' /\ exists m e, r = S754_finite sx m e
        /\ bounded 53 1024 m e = true /\ e1 <= e /\ Zpos m * 2 ^ (e - e1) = m')
  \/ (0 < m' /\ r = S754_infinity sx /\ 1024 < Zdigits2 m' + e1).

(** The value of a finite float in units of [2 ^ -1074]. *)
Definition units (m : positive) (e : Z) : Z := Zpos m * 2 ^ (e + 1074).

Definition valid (x : Double.t) : Prop := valid_binary 53 1024 x = true.

(** [below z r]: the float [r] is not greater than the integer [z]. *)
Definition below (z : Z) (r : Double.t) : Prop :=
  match r with
  | S754_zero _ | S754_nan => True
  | S754_infinity s => s = true
  | S754_finite true _ _ => True
  | S754_finite false m e =>
      bounded 53 1024 m e = true /\ units m e <= z * 2 ^ 1074
  end.

(** A scale factor: a float between zero and one. *)
Definition fraction (s : Double.t) : Prop :=
  s = S754_zero false
  \/ exists m e, s = S754_finite false m e
       /\ bounded 53 1024 m e = true /\ units m e <= 2 ^ 1074.

Definition validPair (t : @target Double.t) : Prop :=
  valid (fst t) /\ valid (snd t).

Definition validOption (o : option Double.t) : Prop :=
  match o with Some v => valid v | None => True end.

Definition validOptions (options : ImageProcessingOptions Double.t) : Prop :=
  validOption (width options) /\ validOption (height options)
  /\ validOption (minWidth options) /\ validOption (minHeight options)
  /\ validOption (maxWidth options) /\ validOption (maxHeight options).

Local Close Scope Z_scope.

(** ** A small file system and codec to run the converter on

    Files are a path, a byte size and, for a decodable image, its pixel
    size; the codec writes one file per [toFile].  The paths are flat
    ([dir/name.ext]), which is all the path functions here handle. *)

Module Disk.

Record file : Type := mkFile {
  path : string;
  bytes : Z;
  pixels : option (Z * Z)
}.

Definition world : Type := list file.

Definition lookup (p : string) (w : world) : option file :=
  find (fun f => path f =? p) w.

Definition fs_stat (p : string) : M world Stats :=
  fun w => match lookup p w with
           | Some f => (Return (mkStats (bytes f) false), w)
           | None => (Throw (Error "ENOENT: no such file or directory"), w)
           end.

Definition fs_access (p : string) : M world unit :=
  fun w => match lookup p w with
           | Some _ => (Return tt, w)
           | None => (Throw (Error "ENOENT: no such file or directory"), w)
           end.

Definition fs_mkdir (p : string) : M world unit := ret tt.

Record pipeline : Type := mkPipeline {
  source : string;
  resized : option (Double.t * Double.t);
  encoding : option string
}.

Definition sharp (p : string) : outcome pipeline :=
  Return (mkPipeline p None None).

Definition sharp_metadata (p : string) : M world (Metadata Double.t) :=
  fun w => match lookup p w with
           | Some f =>
               match pixels f with
               | Some (a, b) =>
                   (Return (mkMetadata (Some (Double.of_Z a))
                                       (Some (Double.of_Z b))), w)
               | None =>
                   (Throw (Error "Input file contains unsupported image format"), w)
               end
           | None => (Throw (Error "Input file is missing"), w)
           end.

Definition resize (pl : pipeline) (w h : Double.t) (o : ResizeOptions)
    : outcome pipeline :=
  Return (mkPipeline (source pl) (Some (w, h)) (encoding pl)).

Definition toFormat (pl : pipeline) (f : string) (q : option Double.t)
    : outcome pipeline :=
  Return (mkPipeline (source pl) (resized pl) (Some f)).

(** Writing stores a file of 1000 bytes. *)
Definition toFile (pl : pipeline) (out : string) : M world unit :=
  fun w => (Return tt, mkFile out 1000 None :: w).

(** [(stem, extension)], the extension starting at the last dot. *)
Fixpoint splitExtension (s : string) : string * string :=
  match s with
  | EmptyString => (EmptyString, EmptyString)
  | String c rest =>
      let (stem, ext) := splitExtension rest in
      if ext =? "" then
        if Ascii.eqb c "."%char then (EmptyString, String c rest)
        else (String c stem, EmptyString)
      else (String c stem, ext)
  end.

Definition path_extname (p : string) : string := snd (splitExtension p).
Definition path_basename (p ext : string) : string := fst (splitExtension p).
Definition path_dirname (p : string) : string := ".".
Definition path_join (a b : string) : string := a ++ "/" ++ b.
Definition path_relative (from to : string) : string :=
  substring (S (String.length from)) (String.length to) to.

(** Every file on the disk below [dir], in disk order. *)
Definition findImageFiles (dir : string) (recursive : bool)
    : M world (list string) :=
  fun w => (Return (filter (prefix (dir ++ "/")) (map path w)), w).

Definition processImage :=
  processImage fs_stat sharp sharp_metadata resize toFormat toFile.

Definition convertFile :=
  convertFile fs_stat fs_access fs_mkdir sharp sharp_metadata resize toFormat
    toFile path_dirname path_extname path_basename path_relative path_join.

Definition convertFiles :=
  convertFiles fs_stat fs_access fs_mkdir sharp sharp_metadata resize toFormat
    toFile path_dirname path_extname path_basename path_relative path_join.

Definition convertDirectory :=
  convertDirectory fs_stat fs_access fs_mkdir sharp sharp_metadata resize
    toFormat toFile path_dirname path_extname path_basename path_relative
    path_join findImageFiles.

(** Three images to convert; the output of the second is already there. *)
Definition batch : world :=
  [ mkFile "in/a.jpg" 5000 (Some (1000, 500)%Z);
    mkFile "in/b.jpg" 6000 (Some (800, 600)%Z);
    mkFile "in/c.png" 7000 (Some (100, 100)%Z);
    mkFile "out/b.webp" 10 None ].


Definition toWebp (overwrite : option bool) : CliOptions Double.t :=
  mkCli (mkOptions "webp" (Some (Double.of_Z 500)) None None None None None None None)
    "in" "out" None overwrite.

End Disk.

(** ** [imageProcessor.ts]: [getFileExtension] and [isImageExtension] *)

(** [String.prototype.slice(1)] *)
Definition slice1 (s : string) : string :=
  match s with
  | EmptyString => EmptyString
  | String _ rest => rest
  end.

(** Lines 158-161; [path.extname] is Node's. *)
Definition getFileExtension (path_extname : string -> string)
    (filePath : string) : string :=
  let ext := toLowerCase (path_extname filePath) in
  slice1 ext.

(** The array literal of lines 170-182. *)
Definition imageExtensions : list string :=
  ["jpg"; "jpeg"; "png"; "webp"; "gif"; "tiff"; "tif"; "bmp"; "avif"; "heic";
   "heif"].

Definition isImageExtension (extension : string) : bool :=
  includes imageExtensions (toLowerCase extension).

(** ** [index.ts]: [findImageFiles] *)

Module Dirent.

(** What lies at a path, as [fs.readdir(dirPath, { withFileTypes: true })]
    reports it.  The directory tree is read, never written, while files are
    looked for, so a directory carries what [fs.readdir] gives for it: its
    entries, or the error thrown.  [Other] is neither a file nor a directory
    (a symbolic link, a socket). *)
#[warnings="-register-all"]
Inductive t : Type :=
| File (name : string)
| Directory (name : string) (listing : outcome (list t))
| Other (name : string).

Definition name (entry : t) : string :=
  match entry with File n | Directory n _ | Other n => n end.

Definition isDirectory (entry : t) : bool :=
  match entry with Directory _ _ => true | _ => false end.

Definition isFile (entry : t) : bool :=
  match entry with File _ => true | _ => false end.

End Dirent.

Section Discovery.
Variable path_extname : string -> string.
Variable path_join : string -> string -> string.

(** Lines 63-82.  [directory] is what lies at [dirPath], and the first
    [match] is [await fs.readdir(dirPath, ...)], which throws on anything
    that is not a directory; [each] is the [for ... of] loop and
    [imageFiles] the array it pushes to. *)
Fixpoint findImageFiles (dirPath : string) (directory : Dirent.t)
    (recursive : bool) {struct directory} : outcome (list string) :=
  match directory with
  | Dirent.Directory _ (Return entries) =>
      (fix each (entries : list Dirent.t) (imageFiles : list string)
           {struct entries} : outcome (list string) :=
         match entries with
         | [] => Return imageFiles
         | entry :: rest =>
             let fullPath := path_join dirPath (Dirent.name entry) in
             if Dirent.isDirectory entry && recursive then
               match findImageFiles fullPath entry recursive with
               | Return subFiles => each rest (imageFiles ++ subFiles)%list
               | Throw e => Throw e
               end
             else if Dirent.isFile entry then
               let ext := getFileExtension path_extname (Dirent.name entry) in
               if isImageExtension ext
               then each rest (imageFiles ++ [fullPath])%list
               else each rest imageFiles
             else each rest imageFiles
         end) entries []
  | Dirent.Directory _ (Throw e) => Throw e
  | Dirent.File _ | Dirent.Other _ =>
      Throw (Error ("ENOTDIR: not a directory, scandir '" ++ dirPath ++ "'"))
  end.

Section Loop.
Variable dirPath : string.
Variable recursive : bool.

(** The loop of lines 67-79 on its own: the array after [entries], starting
    from [imageFiles]. *)
Fixpoint eachEntry (entries : list Dirent.t) (imageFiles : list string)
    {struct entries} : outcome (list string) :=
  match entries with
  | [] => Return imageFiles
  | entry :: rest =>
      let fullPath := path_join dirPath (Dirent.name entry) in
      if Dirent.isDirectory entry && recursive then
        match findImageFiles fullPath entry recursive with
        | Return subFiles => eachEntry rest (imageFiles ++ subFiles)%list
        | Throw e => Throw e
        end
      else if Dirent.isFile entry then
        let ext := getFileExtension path_extname (Dirent.name entry) in
        if isImageExtension ext
        then eachEntry rest (imageFiles ++ [fullPath])%list
        else eachEntry rest imageFiles
      else eachEntry rest imageFiles
  end.

End Loop.

(** An image file of the tree below [dirPath]: a file entry with an image
    extension, in the directory itself or in a readable directory below. *)
Inductive imageFileIn : string -> list Dirent.t -> string -> Prop :=
| image_here (dirPath : string) (entries : list Dirent.t) (name : string) :
    In (Dirent.File name) entries ->
    isImageExtension (getFileExtension path_extname name) = true ->
    imageFileIn dirPath entries (path_join dirPath name)
| image_below (dirPath : string) (entries : list Dirent.t) (name : string)
    (sub : list Dirent.t) (p : string) :
    In (Dirent.Directory name (Return sub)) entries ->
    imageFileIn (path_join dirPath name) sub p ->
    imageFileIn dirPath entries p.

End Discovery.

(** Every directory of the tree can be listed. *)
Fixpoint readable (entry : Dirent.t) : bool :=
  match entry with
  | Dirent.Directory _ (Return entries) => forallb readable entries
  | Dirent.Directory _ (Throw _) => false
  | _ => true
  end.

(** [l] is [l'] with some elements left out. *)
Inductive subsequence {A : Type} : list A -> list A -> Prop :=
| sub_nil : subsequence [] []
| sub_keep (x : A) (l l' : list A) :
    subsequence l l' -> subsequence (x :: l) (x :: l')
| sub_skip (x : A) (l l' : list A) : subsequence l l' -> subsequence l (x :: l').

(** ** [index.ts]: [convertImages] *)

Section Entry.
Context {N : Type} {arith : Arithmetic N}.
Variable world : Type.
Variable pipeline : Type.
Variable fs_stat : string -> M world Stats.
Variable fs_access : string -> M world unit.
Variable fs_mkdir : string -> M world unit.
Variable sharp : string -> outcome pipeline.
Variable sharp_metadata : string -> M world (Metadata N).
Variable resize : pipeline -> N -> N -> ResizeOptions -> outcome pipeline.
Variable toFormat : pipeline -> string -> option N -> outcome pipeline.
Variable toFile : pipeline -> string -> M world unit.
Variable path_dirname : string -> string.
Variable path_extname : string -> string.
Variable path_basename : string -> string -> string.
Variable path_relative : string -> string -> string.
Variable path_join : string -> string -> string.
Variable path_resolve : string -> string.
Variable findImageFiles : string -> bool -> M world (list string).

(** [(await fs.stat(p).catch(() => null))?.isDirectory()] *)
Definition isExistingDirectory (p : string) : M world bool :=
  stats <- try_catch (s <- fs_stat p ;; ret (Some s)) (fun _ => ret None) ;;
  ret (match stats with Some s => isDirectory s | None => false end).

(** Lines 199-236. *)
Definition convertImages (options : CliOptions N) : M world ProcessingSummary :=
  let inputPath := path_resolve (input options) in
  let outputPath := path_resolve (output options) in
  try_catch
    (stats <- fs_stat inputPath ;;
     if isDirectory stats then
       convertDirectory fs_stat fs_access fs_mkdir sharp sharp_metadata resize
         toFormat toFile path_dirname path_extname path_basename path_relative
         path_join findImageFiles inputPath outputPath options
     else
       outputIsDirectory <- isExistingDirectory outputPath ;;
       finalOutputPath <-
         (if outputIsDirectory then
            let inputBasename :=
              path_basename inputPath (path_extname inputPath) in
            format <- lift (normalizeFormat (format (processing options))) ;;
            ret (path_join outputPath (inputBasename ++ "." ++ format))
          else ret outputPath) ;;
       result <- convertSingleImage fs_stat fs_access fs_mkdir sharp
                   sharp_metadata resize toFormat toFile path_dirname
                   inputPath finalOutputPath options ;;
       ret (mkSummary 1
              (if success result then 1 else 0)
              (if success result then 0 else 1)
              [result]))
    (fun error =>
       throw (Error ("Input path does not exist or is not accessible: "
                     ++ inputPath ++ ". " ++ messageOf error))).

End Entry.

(** ** Samples: a directory to search and codecs to run on the small disk *)

Module Samples.

(** [photos/]: two images, a text file, a directory of scans with one
    below it, a link named like an image, a directory named like an image. *)
Definition entries : list Dirent.t :=
  [ Dirent.File "a.JPG";
    Dirent.File "notes.txt";
    Dirent.Directory "scans"
      (Return [ Dirent.File "b.tif";
                Dirent.Directory "deep" (Return [Dirent.File "d.webp"]) ]);
    Dirent.Other "link.png";
    Dirent.Directory "shots.png" (Return [Dirent.File "e.gif"]);
    Dirent.File "z.png" ].

Definition photos : Dirent.t := Dirent.Directory "photos" (Return entries).

(** The same with a directory nobody may list. *)
Definition guarded : Dirent.t :=
  Dirent.Directory "photos"
    (Return [ Dirent.File "a.JPG";
              Dirent.Directory "private"
                (Throw (Error "EACCES: permission denied, scandir")) ]).

Definition findImageFiles :=
  findImageFiles Disk.path_extname Disk.path_join.


(** A [fs.mkdir] that is refused. *)
Definition mkdir_denied (p : string) : M Disk.world unit :=
  throw (Error "EACCES: permission denied, mkdir").

(** An encoder that knows no ["jpeg"] and takes a quality for [jpg], [webp]
    and [avif] only. *)
Definition strictEncoder (pl : Disk.pipeline) (f : string)
    (q : option Double.t) : outcome Disk.pipeline :=
  if f =? "jpeg" then Throw (Error "Invalid format jpeg")
  else
    match q with
    | Some _ =>
        if includes ["jpg"; "webp"; "avif"] f then Disk.toFormat pl f q
        else Throw (Error "quality is not supported")
    | None => Disk.toFormat pl f q
    end.

Definition convertSingleImage :=
  convertSingleImage Disk.fs_stat Disk.fs_access Disk.fs_mkdir Disk.sharp
    Disk.sharp_metadata Disk.resize Disk.toFormat Disk.toFile
    Disk.path_dirname.

Definition convertImages :=
  convertImages Disk.fs_stat Disk.fs_access Disk.fs_mkdir Disk.sharp
    Disk.sharp_metadata Disk.resize Disk.toFormat Disk.toFile
    Disk.path_dirname Disk.path_extname Disk.path_basename Disk.path_relative
    Disk.path_join (fun p => p) Disk.findImageFiles.

(** Convert [input] to [output] in [format], nothing else asked. *)
Definition plain (format input output : string) (quality : option Double.t)
    : CliOptions Double.t :=
  mkCli (mkOptions format None None None None None None quality None)
    input output None None.

End Samples.

(** * Properties *)

(** ** Rounding of doubles

    What the Standard Library's [binary_round_aux], [SFmul] and [SFdiv]
    return, read off their definitions: enough of round-to-nearest to bound
    a product and a quotient. *)

Local Open Scope Z_scope.
Unset Implicit Arguments.

Lemma digits2_pos_bounds (p : positive) :
  2 ^ (Zpos (digits2_pos p) - 1) <= Zpos p < 2 ^ Zpos (digits2_pos p).
Proof.
  induction p as [p IH | p IH |]; cbn [digits2_pos].
  - rewrite Pos2Z.inj_succ.
    replace (Z.succ (Zpos (digits2_pos p)) - 1) with (Z.succ (Zpos (digits2_pos p) - 1)) by lia.
    rewrite !Z.pow_succ_r by lia. lia.
  - rewrite Pos2Z.inj_succ.
    replace (Z.succ (Zpos (digits2_pos p)) - 1) with (Z.succ (Zpos (digits2_pos p) - 1)) by lia.
    rewrite !Z.pow_succ_r by lia. lia.
  - cbn. lia.
Qed.

Lemma Zdigits2_bounds (m : Z) :
  0 < m -> 2 ^ (Zdigits2 m - 1) <= m < 2 ^ Zdigits2 m.
Proof. destruct m as [|p|p]; try lia. intros _. apply digits2_pos_bounds. Qed.

Lemma Zdigits2_pos (m : Z) : 0 < m -> 0 < Zdigits2 m.
Proof. destruct m; cbn; lia. Qed.

Lemma Zdigits2_nonneg (m : Z) : 0 <= Zdigits2 m.
Proof. destruct m; cbn; lia. Qed.

(** [digits] is determined by the power-of-two bracket. *)
Lemma Zdigits2_unique (m d : Z) :
  2 ^ (d - 1) <= m < 2 ^ d -> 0 < m -> Zdigits2 m = d.
Proof.
  intros [L U] Hm. pose proof (Zdigits2_bounds m Hm) as [L' U'].
  pose proof (Zdigits2_pos m Hm).
  assert (0 < d).
  { destruct (Z.ltb_spec 0 d) as [| Hd]; [assumption |]. exfalso.
    destruct (Z.eq_dec d 0) as [-> |]; [cbn in U; lia |].
    rewrite Z.pow_neg_r in U by lia. lia. }
  assert (d - 1 < Zdigits2 m) by (apply (Z.pow_lt_mono_r_iff 2); lia).
  assert (Zdigits2 m - 1 < d) by (apply (Z.pow_lt_mono_r_iff 2); lia).
  lia.
Qed.

Lemma Zdigits2_le (a b : Z) : 0 < a -> a <= b -> Zdigits2 a <= Zdigits2 b.
Proof.
  intros Ha Hab. pose proof (Zdigits2_bounds a Ha) as [La Ua].
  pose proof (Zdigits2_bounds b ltac:(lia)) as [Lb Ub].
  pose proof (Zdigits2_pos a Ha). pose proof (Zdigits2_pos b ltac:(lia)).
  assert (Zdigits2 a - 1 < Zdigits2 b) by (apply (Z.pow_lt_mono_r_iff 2); lia).
  lia.
Qed.

(** ** Shifting right *)

Lemma shr_1_spec (m : Z) (r s : bool) :
  0 <= m ->
  shr_1 (Build_shr_record m r s) = Build_shr_record (m / 2) (Z.odd m) (r || s).
Proof.
  intros Hm. destruct m as [| p | p]; try lia.
  - reflexivity.
  - destruct p as [p | p |]; cbn [shr_1].
    + f_equal. rewrite Pos2Z.inj_xI. 
      replace (2 * Zpos p + 1) with (1 + Zpos p * 2) by lia.
      rewrite Z.div_add by lia. reflexivity.
    + f_equal. rewrite Pos2Z.inj_xO.
      replace (2 * Zpos p) with (0 + Zpos p * 2) by lia.
      rewrite Z.div_add by lia. reflexivity.
    + reflexivity.
Qed.

Lemma pow2_xO (p : positive) : 2 ^ Zpos p~0 = 2 ^ Zpos p * 2 ^ Zpos p.
Proof.
  replace (Zpos p~0) with (Zpos p + Zpos p) by lia.
  apply Z.pow_add_r; lia.
Qed.

Lemma pow2_xI (p : positive) : 2 ^ Zpos p~1 = 2 * (2 ^ Zpos p * 2 ^ Zpos p).
Proof.
  replace (Zpos p~1) with (1 + (Zpos p + Zpos p)) by lia.
  rewrite Z.pow_add_r by lia. rewrite Z.pow_add_r by lia. reflexivity.
Qed.

Lemma pow2_pos (n : Z) : 0 <= n -> 0 < 2 ^ n.
Proof. intros. apply Z.pow_pos_nonneg; lia. Qed.

(** The mantissa after [p] shifts is the quotient by [2 ^ p]; when nothing
    is lost the record says so. *)
Lemma iter_shr_1 (p : positive) (m : Z) (r s : bool) :
  0 <= m ->
  let mrs := iter_pos shr_1 p (Build_shr_record m r s) in
  shr_m mrs = m / 2 ^ Zpos p
  /\ (r = false -> s = false -> m mod 2 ^ Zpos p = 0 ->
      shr_r mrs = false /\ shr_s mrs = false).
Proof.
  revert m r s. induction p as [p IH | p IH |]; intros m r s Hm; cbn [iter_pos].
  - pose proof (pow2_pos (Zpos p) ltac:(lia)) as P.
    rewrite shr_1_spec by assumption. rewrite pow2_xI.
    assert (H2 : 0 <= m / 2) by (apply Z.div_pos; lia).
    destruct (IH (m / 2) (Z.odd m) (r || s) H2) as [E1 X1].
    set (mrs1 := iter_pos shr_1 p (Build_shr_record (m / 2) (Z.odd m) (r || s))) in *.
    assert (H3 : 0 <= shr_m mrs1) by (rewrite E1; apply Z.div_pos; lia).
    destruct mrs1 as [m1 r1 s1]. cbn [shr_m shr_r shr_s] in *.
    destruct (IH m1 r1 s1 H3) as [E2 X2].
    cbv zeta in *. split.
    + rewrite E2, E1. rewrite !Z.div_div by lia. reflexivity.
    + intros -> -> D.
      apply Z.mod_divide in D; [| lia]. destruct D as [k D].
      assert (Hm2 : m / 2 = k * 2 ^ Zpos p * 2 ^ Zpos p).
      { subst m. replace (k * (2 * (2 ^ Zpos p * 2 ^ Zpos p)))
          with ((k * 2 ^ Zpos p * 2 ^ Zpos p) * 2) by lia.
        apply Z.div_mul. lia. }
      assert (Z.odd m = false).
      { subst m. rewrite <- Z.negb_even.
        replace (k * (2 * (2 ^ Zpos p * 2 ^ Zpos p)))
          with (2 * (k * 2 ^ Zpos p * 2 ^ Zpos p)) by lia.
        now rewrite Z.even_mul. }
      destruct X1 as [R1 S1]; try assumption; try reflexivity.
      { rewrite Hm2. apply Z.mod_mul. lia. }
      subst r1 s1.
      apply X2; try reflexivity.
      rewrite E1, Hm2, Z.div_mul by lia. apply Z.mod_mul. lia.
  - pose proof (pow2_pos (Zpos p) ltac:(lia)) as P.
    rewrite pow2_xO.
    destruct (IH m r s Hm) as [E1 X1].
    set (mrs1 := iter_pos shr_1 p (Build_shr_record m r s)) in *.
    assert (H3 : 0 <= shr_m mrs1) by (rewrite E1; apply Z.div_pos; lia).
    destruct mrs1 as [m1 r1 s1]. cbn [shr_m shr_r shr_s] in *.
    destruct (IH m1 r1 s1 H3) as [E2 X2].
    cbv zeta in *. split.
    + rewrite E2, E1. rewrite !Z.div_div by lia. reflexivity.
    + intros -> -> D.
      apply Z.mod_divide in D; [| lia]. destruct D as [k D].
      assert (Hm2 : m = k * 2 ^ Zpos p * 2 ^ Zpos p) by lia.
      destruct X1 as [R1 S1]; try reflexivity.
      { rewrite Hm2. apply Z.mod_mul. lia. }
      subst r1 s1. apply X2; try reflexivity.
      rewrite E1, Hm2, Z.div_mul by lia. apply Z.mod_mul. lia.
  - rewrite shr_1_spec by assumption. cbn [shr_m shr_r shr_s]. split.
    + reflexivity.
    + intros -> -> D. change (2 ^ 1) with 2 in D. split; [| reflexivity].
      rewrite <- Z.negb_even. rewrite Zeven_mod.
      rewrite D. reflexivity.
Qed.

Lemma pow2_split (a n : Z) : 0 <= n <= a -> 2 ^ a = 2 ^ n * 2 ^ (a - n).
Proof.
  intros H. rewrite <- Z.pow_add_r by lia. f_equal. lia.
Qed.

Lemma div_pow2_lower (M a n : Z) :
  0 <= n <= a -> 2 ^ a <= M -> 2 ^ (a - n) <= M / 2 ^ n.
Proof.
  intros H L. pose proof (pow2_pos n ltac:(lia)).
  apply Z.div_le_lower_bound; [lia |].
  rewrite <- pow2_split by lia. assumption.
Qed.

Lemma div_pow2_upper (M b n : Z) :
  0 <= n <= b -> M < 2 ^ b -> M / 2 ^ n < 2 ^ (b - n).
Proof.
  intros H U. pose proof (pow2_pos n ltac:(lia)).
  apply Z.div_lt_upper_bound; [lia |].
  rewrite <- pow2_split by lia. assumption.
Qed.

Lemma div_pow2_small (M b n : Z) : 0 <= M -> 0 <= b <= n -> M < 2 ^ b -> M / 2 ^ n = 0.
Proof.
  intros HM H U. apply Z.div_small. split; [assumption |].
  apply Z.lt_le_trans with (2 ^ b); [assumption |].
  apply Z.pow_le_mono_r; lia.
Qed.

Lemma round_nearest_even_bounds (m : Z) (l : location) :
  m <= round_nearest_even m l <= m + 1
  /\ (l = loc_Exact -> round_nearest_even m l = m).
Proof.
  unfold round_nearest_even.
  destruct l as [| [ | | ]]; try destruct (Z.even m); split; try lia; try discriminate;
    reflexivity.
Qed.

Lemma shr_fexp_spec (m e : Z) (l : location) :
  0 <= m -> e <= fexp 53 1024 (Zdigits2 m + e) ->
  let e' := fexp 53 1024 (Zdigits2 m + e) in
  exists mrs, shr_fexp 53 1024 m e l = (mrs, e')
    /\ shr_m mrs = m / 2 ^ (e' - e)
    /\ (l = loc_Exact -> m mod 2 ^ (e' - e) = 0 ->
        loc_of_shr_record mrs = loc_Exact).
Proof.
  intros Hm He e'. unfold shr_fexp, shr. fold e'.
  destruct (e' - e) as [| p | p] eqn:N; try lia.
  - exists (shr_record_of_loc m l). replace (e + 0) with e' by lia.
    split; [f_equal; lia |]. split.
    + rewrite Z.div_1_r. destruct l as [| [ | | ]]; reflexivity.
    + now intros -> _.
  - destruct (shr_record_of_loc m l) as [m0 r s] eqn:R.
    assert (m0 = m) by (destruct l as [| [ | | ]]; cbn in R; congruence).
    subst m0.
    destruct (iter_shr_1 p m r s Hm) as [E X].
    exists (iter_pos shr_1 p (Build_shr_record m r s)).
    split; [f_equal; lia |]. split; [exact E |].
    intros -> D. cbn in R. injection R as <- <-.
    destruct X as [Xr Xs]; try reflexivity; try assumption.
    destruct (iter_pos shr_1 p _) as [m1 r1 s1]. cbn in *. now subst.
Qed.

(** ** Rounding *)

Lemma fexp_max (e : Z) : fexp 53 1024 e = Z.max (e - 53) (-1074).
Proof. reflexivity. Qed.

Lemma Zdigits2_pow2 (k : Z) : 0 <= k -> Zdigits2 (2 ^ k) = k + 1.
Proof.
  intros Hk. apply Zdigits2_unique; [| now apply pow2_pos].
  replace (k + 1 - 1) with k by lia. split; [lia |].
  apply Z.pow_lt_mono_r; lia.
Qed.

(** What [binary_round_aux] returns is the rounding of the mantissa it
    rounded. *)
Lemma binary_round_aux_rounds (sx : bool) (M E : Z) (l : location)
    (mrs1 : shr_record) :
  0 <= M -> E <= fexp 53 1024 (Zdigits2 M + E) ->
  shr_fexp 53 1024 M E l = (mrs1, fexp 53 1024 (Zdigits2 M + E)) ->
  rounds_to sx (round_nearest_even (shr_m mrs1) (loc_of_shr_record mrs1))
    (fexp 53 1024 (Zdigits2 M + E)) (binary_round_aux 53 1024 sx M E l).
Proof.
  intros HM HE S1.
  destruct (shr_fexp_spec M E l HM HE) as (mrs0 & S0 & M1 & _).
  cbv zeta in S0, M1. rewrite S1 in S0. injection S0 as <-.
  set (e1 := fexp 53 1024 (Zdigits2 M + E)) in *.
  unfold binary_round_aux. rewrite S1.
  set (m1 := M / 2 ^ (e1 - E)) in *.
  set (m' := round_nearest_even (shr_m mrs1) (loc_of_shr_record mrs1)).
  destruct (round_nearest_even_bounds (shr_m mrs1) (loc_of_shr_record mrs1)) as [B _].
  fold m' in B. rewrite M1 in B.
  assert (P1 : 0 < 2 ^ (e1 - E)) by (apply pow2_pos; lia).
  assert (Hm1 : 0 <= m1) by (apply Z.div_pos; lia).
  assert (Ee1 : e1 = Z.max (Zdigits2 M + E - 53) (-1074)) by reflexivity.
  assert (U1 : m1 < 2 ^ 53).
  { destruct (Z.eq_dec M 0) as [-> | NZ];
      [unfold m1; rewrite Z.div_0_l by lia; reflexivity |].
    pose proof (Zdigits2_bounds M ltac:(lia)) as [_ UM].
    pose proof (Zdigits2_pos M ltac:(lia)).
    destruct (Z.le_gt_cases (e1 - E) (Zdigits2 M)) as [C | C].
    - apply Z.lt_le_trans with (2 ^ (Zdigits2 M - (e1 - E))).
      + apply div_pow2_upper; [lia | assumption].
      + apply Z.pow_le_mono_r; lia.
    - unfold m1. rewrite (div_pow2_small M (Zdigits2 M)); try assumption; lia. }
  assert (L1 : -1074 < e1 -> 2 ^ 52 <= m1).
  { intros A.
    assert (NZ : 0 < M).
    { destruct (Z.eq_dec M 0) as [-> |]; [cbn in Ee1; lia | lia]. }
    pose proof (Zdigits2_bounds M NZ) as [LM _].
    replace 52 with ((Zdigits2 M - 1) - (e1 - E)) by lia.
    apply div_pow2_lower; [lia | assumption]. }
  assert (Hm' : 0 <= m') by lia.
  assert (E1low : -1074 <= e1) by (unfold e1; rewrite fexp_max; lia).
  assert (HE2 : e1 <= fexp 53 1024 (Zdigits2 m' + e1)).
  { rewrite fexp_max. destruct (Z.eq_dec e1 (-1074)) as [-> |]; [lia |].
    assert (2 ^ 52 <= m') by (specialize (L1 ltac:(lia)); lia).
    assert (53 <= Zdigits2 m').
    { replace 53 with (Zdigits2 (2 ^ 52)) by (now rewrite Zdigits2_pow2).
      apply Zdigits2_le; [reflexivity | assumption]. }
    lia. }
  destruct (shr_fexp_spec m' e1 loc_Exact Hm' HE2) as (mrs2 & S2 & M2 & _).
  rewrite S2. unfold rounds_to.
  set (e2 := fexp 53 1024 (Zdigits2 m' + e1)) in *.
  destruct (Z.eq_dec m' 0) as [Z0' | NZ'].
  - left. split; [assumption |]. rewrite M2, Z0', Z.div_0_l; [reflexivity |].
    apply Z.neq_sym, Z.lt_neq, pow2_pos. lia.
  - right.
    assert (R : exists m2 : positive,
               shr_m mrs2 = Zpos m2 /\ Zpos m2 * 2 ^ (e2 - e1) = m'
               /\ canonical_mantissa 53 1024 m2 e2 = true).
    { destruct (Z.eq_dec e2 e1) as [Q | Q].
      - exists (Z.to_pos m').
        assert (Id : Zpos (Z.to_pos m') = m') by (apply Z2Pos.id; lia).
        rewrite Id, M2, Q, Z.sub_diag, Z.div_1_r, Z.mul_1_r.
        repeat split. unfold canonical_mantissa. apply Z.eqb_eq.
        change (Zpos (digits2_pos (Z.to_pos m'))) with (Zdigits2 (Zpos (Z.to_pos m'))).
        rewrite Id. fold e2. exact Q.
      - assert (G : e1 < e2) by lia.
        unfold e2 in G. rewrite fexp_max in G.
        assert (53 < Zdigits2 m') by lia.
        assert (2 ^ 53 <= m').
        { pose proof (Zdigits2_bounds m' ltac:(lia)) as [Lm _].
          apply Z.le_trans with (2 ^ (Zdigits2 m' - 1)); [| assumption].
          apply Z.pow_le_mono_r; lia. }
        assert (Em' : m' = 2 ^ 53) by lia.
        assert (E2 : e2 = e1 + 1).
        { unfold e2. rewrite fexp_max, Em', Zdigits2_pow2 by lia. lia. }
        exists (4503599627370496)%positive.
        rewrite M2, E2, Em'. replace (e1 + 1 - e1) with 1 by lia.
        repeat split. unfold canonical_mantissa. apply Z.eqb_eq.
        rewrite fexp_max. cbn [digits2_pos Pos.succ]. lia. }
    destruct R as (m2 & Sm & Vm & Cm). rewrite Sm.
    destruct (Z.leb_spec e2 (1024 - 53)) as [Fin | Ovf].
    + left. split; [lia |]. exists m2, e2. repeat split; try assumption.
      unfold bounded. rewrite Cm. cbn [andb]. apply Z.leb_le. assumption.
    + right. split; [lia |]. split; [reflexivity |].
      unfold e2 in Ovf. rewrite fexp_max in Ovf. lia.
Qed.

Lemma binary_round_aux_spec (sx : bool) (M E : Z) (l : location) :
  0 <= M -> E <= fexp 53 1024 (Zdigits2 M + E) ->
  let e1 := fexp 53 1024 (Zdigits2 M + E) in
  exists m' : Z,
    M / 2 ^ (e1 - E) <= m' <= M / 2 ^ (e1 - E) + 1
    /\ (l = loc_Exact -> M mod 2 ^ (e1 - E) = 0 -> m' = M / 2 ^ (e1 - E))
    /\ rounds_to sx m' e1 (binary_round_aux 53 1024 sx M E l).
Proof.
  intros HM HE e1.
  destruct (shr_fexp_spec M E l HM HE) as (mrs1 & S1 & M1 & X1).
  fold e1 in S1, M1, X1.
  exists (round_nearest_even (shr_m mrs1) (loc_of_shr_record mrs1)).
  destruct (round_nearest_even_bounds (shr_m mrs1) (loc_of_shr_record mrs1))
    as [B Bx].
  split; [rewrite <- M1; exact B |]. split.
  - intros -> D. rewrite <- M1. apply Bx. now apply X1.
  - now apply binary_round_aux_rounds.
Qed.

(** ** Values and order of valid floats *)

Lemma bounded_facts (m : positive) (e : Z) :
  bounded 53 1024 m e = true ->
  -1074 <= e <= 971 /\ Zdigits2 (Zpos m) <= 53
  /\ (-1074 < e -> Zdigits2 (Zpos m) = 53)
  /\ e = fexp 53 1024 (Zdigits2 (Zpos m) + e).
Proof.
  unfold bounded, canonical_mantissa. intros H.
  apply andb_prop in H. destruct H as [C B].
  apply Z.eqb_eq in C. apply Z.leb_le in B.
  change (Zpos (digits2_pos m)) with (Zdigits2 (Zpos m)) in C.
  pose proof C as C'. rewrite fexp_max in C'.
  repeat split; try lia.
Qed.

Lemma units_pos (m : positive) (e : Z) : -1074 <= e -> 0 < units m e.
Proof. intros H. unfold units. pose proof (pow2_pos (e + 1074) ltac:(lia)). lia. Qed.

Lemma units_lt_of_exponent (m1 m2 : positive) (e1 e2 : Z) :
  bounded 53 1024 m1 e1 = true -> bounded 53 1024 m2 e2 = true ->
  e1 < e2 -> units m1 e1 < units m2 e2.
Proof.
  intros B1 B2 L.
  destruct (bounded_facts _ _ B1) as (R1 & D1 & _ & _).
  destruct (bounded_facts _ _ B2) as (R2 & _ & N2 & _).
  specialize (N2 ltac:(lia)).
  pose proof (Zdigits2_bounds (Zpos m1) ltac:(lia)) as [_ U1].
  pose proof (Zdigits2_bounds (Zpos m2) ltac:(lia)) as [L2 _].
  rewrite N2 in L2. change (2 ^ (53 - 1)) with (2 ^ 52) in L2.
  assert (Zpos m1 < 2 ^ 53).
  { apply Z.lt_le_trans with (2 ^ Zdigits2 (Zpos m1)); [assumption |].
    apply Z.pow_le_mono_r; lia. }
  unfold units.
  pose proof (pow2_pos (e1 + 1074) ltac:(lia)) as P1.
  assert (E : 2 ^ (e2 + 1074) = 2 ^ (e2 - e1) * 2 ^ (e1 + 1074)).
  { rewrite <- Z.pow_add_r by lia. f_equal. lia. }
  assert (2 <= 2 ^ (e2 - e1)).
  { change 2 with (2 ^ 1) at 1. apply Z.pow_le_mono_r; lia. }
  rewrite E. change (2 ^ 53) with (2 * 2 ^ 52) in *. nia.
Qed.

Lemma SFcompare_units (m1 m2 : positive) (e1 e2 : Z) :
  bounded 53 1024 m1 e1 = true -> bounded 53 1024 m2 e2 = true ->
  SFcompare (S754_finite false m1 e1) (S754_finite false m2 e2)
  = Some (units m1 e1 ?= units m2 e2).
Proof.
  intros B1 B2. unfold SFcompare. f_equal.
  destruct (Z.compare_spec e1 e2) as [-> | L | G].
  - destruct (bounded_facts _ _ B2) as (R2 & _).
    unfold units. pose proof (pow2_pos (e2 + 1074) ltac:(lia)).
    rewrite <- Zmult_compare_compat_r by lia. reflexivity.
  - symmetry. apply Z.compare_lt_iff. now apply units_lt_of_exponent.
  - symmetry. apply Z.compare_gt_iff. now apply units_lt_of_exponent.
Qed.

Lemma rounds_to_finite (sx sx' : bool) (m' e1 : Z) (m : positive) (e : Z) :
  -1074 <= e1 ->
  rounds_to sx m' e1 (S754_finite sx' m e) ->
  sx' = sx /\ bounded 53 1024 m e = true /\ units m e = m' * 2 ^ (e1 + 1074).
Proof.
  intros L [[_ H] | [(_ & m0 & e0 & H & B & Le & V) | (_ & H & _)]]; try discriminate.
  injection H as -> -> ->. repeat split; [assumption |].
  unfold units. rewrite <- V.
  replace (e0 + 1074) with ((e0 - e1) + (e1 + 1074)) by lia.
  rewrite Z.pow_add_r by lia. lia.
Qed.

Lemma rounds_to_valid (sx : bool) (m' e1 : Z) (r : spec_float) :
  rounds_to sx m' e1 r -> valid_binary 53 1024 r = true.
Proof.
  intros [[_ ->] | [(_ & m & e & -> & B & _) | (_ & -> & _)]]; cbn; trivial.
Qed.

Lemma Zdigits2_mul (a b : Z) :
  0 < a -> 0 < b -> Zdigits2 a + Zdigits2 b - 1 <= Zdigits2 (a * b).
Proof.
  intros Ha Hb.
  pose proof (Zdigits2_bounds a Ha) as [La _].
  pose proof (Zdigits2_bounds b Hb) as [Lb _].
  pose proof (Zdigits2_bounds (a * b) ltac:(lia)) as [_ U].
  pose proof (Zdigits2_pos a Ha). pose proof (Zdigits2_pos b Hb).
  pose proof (Zdigits2_pos (a * b) ltac:(lia)).
  assert (2 ^ (Zdigits2 a - 1 + (Zdigits2 b - 1)) < 2 ^ Zdigits2 (a * b)).
  { rewrite Z.pow_add_r by lia.
    pose proof (pow2_pos (Zdigits2 a - 1) ltac:(lia)).
    pose proof (pow2_pos (Zdigits2 b - 1) ltac:(lia)). nia. }
  assert (Zdigits2 a - 1 + (Zdigits2 b - 1) < Zdigits2 (a * b))
    by (apply (Z.pow_lt_mono_r_iff 2); lia).
  lia.
Qed.

Lemma Zdigits2_below (a k : Z) : 0 < a -> 0 <= k -> a < 2 ^ k -> Zdigits2 a <= k.
Proof.
  intros Ha Hk U. pose proof (Zdigits2_bounds a Ha) as [L _].
  pose proof (Zdigits2_pos a Ha).
  assert (Zdigits2 a - 1 < k) by (apply (Z.pow_lt_mono_r_iff 2); lia).
  lia.
Qed.

Lemma mul_precondition (m1 m2 : positive) (e1 e2 : Z) :
  bounded 53 1024 m1 e1 = true -> bounded 53 1024 m2 e2 = true ->
  e1 + e2 <= fexp 53 1024 (Zdigits2 (Zpos (m1 * m2)) + (e1 + e2)).
Proof.
  intros B1 B2.
  destruct (bounded_facts _ _ B1) as (R1 & D1 & N1 & _).
  destruct (bounded_facts _ _ B2) as (R2 & D2 & N2 & _).
  pose proof (Zdigits2_mul (Zpos m1) (Zpos m2) ltac:(lia) ltac:(lia)) as DM.
  pose proof (Zdigits2_pos (Zpos m1) ltac:(lia)).
  pose proof (Zdigits2_pos (Zpos m2) ltac:(lia)).
  rewrite Pos2Z.inj_mul, fexp_max. lia.
Qed.

(** A valid positive float times a valid float of value at most one is at
    most the float. *)
Lemma SFmul_shrinks (mw ms : positive) (ew es : Z) :
  bounded 53 1024 mw ew = true -> bounded 53 1024 ms es = true ->
  units ms es <= 2 ^ 1074 ->
  let p := SFmul 53 1024 (S754_finite false mw ew) (S754_finite false ms es) in
  p = S754_zero false
  \/ exists m e, p = S754_finite false m e /\ bounded 53 1024 m e = true
       /\ units m e <= units mw ew.
Proof.
  intros Bw Bs One p. subst p. cbn [SFmul xorb].
  destruct (bounded_facts _ _ Bw) as (Rw & Dw & Nw & _).
  destruct (bounded_facts _ _ Bs) as (Rs & Ds & Ns & _).
  pose proof (mul_precondition mw ms ew es Bw Bs) as Pre.
  set (M := Zpos (mw * ms)) in *. set (E := ew + es) in *.
  destruct (binary_round_aux_spec false M E loc_Exact ltac:(subst M; lia) Pre)
    as (m' & Bm & Xm & R).
  set (e1 := fexp 53 1024 (Zdigits2 M + E)) in *.
  assert (Ee1 : e1 = Z.max (Zdigits2 M + E - 53) (-1074)) by reflexivity.
  (* the value of [s] is at most one *)
  assert (Hes : es <= 0).
  { unfold units in One. destruct (Z.le_gt_cases es 0); [assumption |]. exfalso.
    assert (2 ^ 1074 < 2 ^ (es + 1074)) by (apply Z.pow_lt_mono_r; lia).
    pose proof (pow2_pos 1074 ltac:(lia)). nia. }
  assert (Hms : Zpos ms <= 2 ^ (- es)).
  { unfold units in One.
    assert (Q : 2 ^ 1074 = 2 ^ (- es) * 2 ^ (es + 1074)).
    { rewrite <- Z.pow_add_r by lia. f_equal. lia. }
    rewrite Q in One. pose proof (pow2_pos (es + 1074) ltac:(lia)). nia. }
  assert (HM : M = Zpos mw * Zpos ms) by (subst M; apply Pos2Z.inj_mul).
  pose proof (Zdigits2_bounds (Zpos mw) ltac:(lia)) as [_ Uw].
  pose proof (pow2_pos (- es) ltac:(lia)) as Pes.
  assert (UM : M < 2 ^ (Zdigits2 (Zpos mw) - es)).
  { replace (Zdigits2 (Zpos mw) - es) with (Zdigits2 (Zpos mw) + - es) by lia.
    rewrite Z.pow_add_r by (try apply Zdigits2_nonneg; lia). nia. }
  assert (DM : Zdigits2 M <= Zdigits2 (Zpos mw) - es).
  { apply Zdigits2_below; [lia | | assumption].
    pose proof (Zdigits2_nonneg (Zpos mw)). lia. }
  assert (Le1 : e1 <= ew) by lia.
  assert (Ge1 : -1074 <= e1) by lia.
  (* the float [w] in units of [2 ^ e1] *)
  set (W := Zpos mw * 2 ^ (ew - e1)).
  assert (PW : 0 < 2 ^ (ew - e1)) by (apply pow2_pos; lia).
  assert (Pn : 0 < 2 ^ (e1 - E)) by (apply pow2_pos; lia).
  assert (MW : M <= W * 2 ^ (e1 - E)).
  { unfold W. rewrite <- Z.mul_assoc, <- Z.pow_add_r by lia.
    replace (ew - e1 + (e1 - E)) with (- es) by (unfold E; lia). nia. }
  assert (Hm' : m' <= W).
  { destruct (Z.le_gt_cases W (M / 2 ^ (e1 - E))) as [C | C]; [| lia].
    assert (W * 2 ^ (e1 - E) <= M).
    { apply Z.le_trans with (M / 2 ^ (e1 - E) * 2 ^ (e1 - E)); [nia |].
      rewrite Z.mul_comm. apply Z.mul_div_le. lia. }
    assert (EM : M = W * 2 ^ (e1 - E)) by lia.
    rewrite Xm; [| reflexivity | rewrite EM; apply Z.mod_mul; lia].
    rewrite EM, Z.div_mul by lia. lia. }
  assert (UW : units mw ew = W * 2 ^ (e1 + 1074)).
  { unfold units, W. rewrite <- Z.mul_assoc, <- Z.pow_add_r by lia.
    do 2 f_equal. lia. }
  destruct R as [[_ ->] | [(Pm & m & e & -> & B & Le & V) | (Pm & _ & Ovf)]].
  - now left.
  - right. exists m, e. repeat split; try assumption.
    destruct (@rounds_to_finite false false m' e1 m e Ge1) as (_ & _ & Um).
    { right. left. split; [assumption |]. exists m, e. now repeat split. }
    rewrite Um, UW. pose proof (pow2_pos (e1 + 1074) ltac:(lia)). nia.
  - exfalso.
    assert (m' < 2 ^ (53 + (ew - e1))).
    { apply Z.le_lt_trans with W; [assumption |]. unfold W.
      rewrite Z.pow_add_r by lia.
      assert (Zpos mw < 2 ^ 53).
      { apply Z.lt_le_trans with (2 ^ Zdigits2 (Zpos mw)); [assumption |].
        apply Z.pow_le_mono_r; lia. }
      nia. }
    pose proof (Zdigits2_below m' (53 + (ew - e1)) ltac:(lia) ltac:(lia) ltac:(assumption)).
    lia.
Qed.

(** ** Division *)

Lemma SFdiv_core_spec (m1 m2 : positive) (e1 e2 : Z) :
  let e' := Z.min (fexp 53 1024 (Zdigits2 (Zpos m1) + e1 - (Zdigits2 (Zpos m2) + e2)))
              (e1 - e2) in
  exists l,
    SFdiv_core_binary 53 1024 (Zpos m1) e1 (Zpos m2) e2
    = (Zpos m1 * 2 ^ (e1 - e2 - e') / Zpos m2, e', l).
Proof.
  intros e'. unfold SFdiv_core_binary. fold e'.
  assert (S : 0 <= e1 - e2 - e') by (unfold e'; lia).
  assert (Q : match e1 - e2 - e' with
              | Z0 => Zpos m1
              | Zpos _ => Z.shiftl (Zpos m1) (e1 - e2 - e')
              | Zneg _ => 0
              end = Zpos m1 * 2 ^ (e1 - e2 - e')).
  { destruct (e1 - e2 - e') as [| p | p] eqn:Es; try lia.
    now rewrite Z.shiftl_mul_pow2 by lia. }
  rewrite Q.
  set (a := Zpos m1 * 2 ^ (e1 - e2 - e')).
  unfold Z.div. destruct (Z.div_eucl a (Zpos m2)) as [q r].
  eexists. reflexivity.
Qed.

Lemma div_precondition (m1 m2 : positive) (e1 e2 : Z) :
  let e' := Z.min (fexp 53 1024 (Zdigits2 (Zpos m1) + e1 - (Zdigits2 (Zpos m2) + e2)))
              (e1 - e2) in
  let q := Zpos m1 * 2 ^ (e1 - e2 - e') / Zpos m2 in
  0 <= q /\ e' <= fexp 53 1024 (Zdigits2 q + e').
Proof.
  intros e' q.
  assert (S : 0 <= e1 - e2 - e') by (unfold e'; lia).
  pose proof (pow2_pos (e1 - e2 - e') S) as Ps.
  assert (Hq : 0 <= q) by (apply Z.div_pos; lia).
  split; [assumption |].
  rewrite fexp_max.
  destruct (Z.le_gt_cases e' (-1074)) as [C | C]; [lia |].
  set (d1 := Zdigits2 (Zpos m1)) in *. set (d2 := Zdigits2 (Zpos m2)) in *.
  assert (F : e' <= d1 + e1 - (d2 + e2) - 53).
  { unfold e' in *. rewrite fexp_max in *. lia. }
  pose proof (Zdigits2_bounds (Zpos m1) ltac:(lia)) as [L1 _].
  pose proof (Zdigits2_bounds (Zpos m2) ltac:(lia)) as [_ U2].
  pose proof (Zdigits2_pos (Zpos m1) ltac:(lia)).
  pose proof (Zdigits2_pos (Zpos m2) ltac:(lia)).
  fold d1 in L1. fold d2 in U2.
  assert (2 ^ 52 <= q).
  { apply Z.div_le_lower_bound; [lia |].
    assert (2 ^ (d2 + 52) <= Zpos m1 * 2 ^ (e1 - e2 - e')).
    { apply Z.le_trans with (2 ^ (d1 - 1) * 2 ^ (e1 - e2 - e')); [| nia].
      rewrite <- Z.pow_add_r by lia. apply Z.pow_le_mono_r; lia. }
    rewrite Z.pow_add_r in * by lia. nia. }
  assert (53 <= Zdigits2 q).
  { replace 53 with (Zdigits2 (2 ^ 52)) by (now rewrite Zdigits2_pow2).
    apply Zdigits2_le; [reflexivity | assumption]. }
  lia.
Qed.

(** The quotient of a valid positive float by a larger one is a valid float
    of value at most one. *)
Lemma SFdiv_below_one (m1 m2 : positive) (e1 e2 : Z) :
  bounded 53 1024 m1 e1 = true -> bounded 53 1024 m2 e2 = true ->
  units m1 e1 < units m2 e2 ->
  let s := SFdiv 53 1024 (S754_finite false m1 e1) (S754_finite false m2 e2) in
  s = S754_zero false
  \/ exists m e, s = S754_finite false m e /\ bounded 53 1024 m e = true
       /\ units m e <= 2 ^ 1074.
Proof.
  intros B1 B2 Lt s. subst s. cbn [SFdiv xorb].
  pose (k := 3000). assert (Hk : 3000 <= k) by (unfold k; lia). clearbody k.
  destruct (bounded_facts _ _ B1) as (R1 & _).
  destruct (bounded_facts _ _ B2) as (R2 & _).
  destruct (SFdiv_core_spec m1 m2 e1 e2) as [l Eq]. rewrite Eq. clear Eq.
  destruct (div_precondition m1 m2 e1 e2) as [Hq Pre].
  set (e' := Z.min (fexp 53 1024 (Zdigits2 (Zpos m1) + e1 - (Zdigits2 (Zpos m2) + e2)))
               (e1 - e2)) in *.
  set (q := Zpos m1 * 2 ^ (e1 - e2 - e') / Zpos m2) in *.
  destruct (binary_round_aux_spec false q e' l Hq Pre) as (m' & Bm & _ & R).
  set (e1' := fexp 53 1024 (Zdigits2 q + e')) in *.
  assert (Ee1 : e1' = Z.max (Zdigits2 q + e' - 53) (-1074)) by reflexivity.
  assert (S : 0 <= e1 - e2 - e') by (unfold e'; lia).
  assert (Le' : -2045 <= e').
  { unfold e'. rewrite fexp_max. lia. }
  (* the quotient is below one: q * 2^e' < 1, all exponents raised by k, to keep them positive *)
  assert (Q1 : q * 2 ^ (e' + k) < 2 ^ k).
  { assert (q * Zpos m2 <= Zpos m1 * 2 ^ (e1 - e2 - e')).
    { unfold q. rewrite Z.mul_comm. apply Z.mul_div_le. lia. }
    unfold units in Lt.
    pose proof (pow2_pos (e' + k) ltac:(lia)) as P1.
    pose proof (pow2_pos (e2 + 1074) ltac:(lia)) as P2.
    pose proof (pow2_pos k ltac:(lia)) as P3.
    assert (A : 2 ^ (e1 - e2 - e') * (2 ^ (e' + k) * 2 ^ (e2 + 1074))
                = 2 ^ (e1 + 1074) * 2 ^ k).
    { rewrite <- !Z.pow_add_r by lia. f_equal. lia. }
    assert (q * Zpos m2 * (2 ^ (e' + k) * 2 ^ (e2 + 1074))
            <= Zpos m1 * (2 ^ (e1 + 1074) * 2 ^ k)).
    { rewrite <- A. nia. }
    assert (q * 2 ^ (e' + k) * (Zpos m2 * 2 ^ (e2 + 1074))
            < 2 ^ k * (Zpos m2 * 2 ^ (e2 + 1074))) by nia.
    apply Z.mul_lt_mono_pos_r with (Zpos m2 * 2 ^ (e2 + 1074)); [nia | assumption]. }
  assert (Ge1 : -1074 <= e1') by lia.
  assert (Pn : 0 < 2 ^ (e1' - e')) by (apply pow2_pos; lia).
  (* the rounded mantissa is at most one in units of 2^e1' *)
  assert (Hm' : e1' <= 0 /\ m' <= 2 ^ (- e1')).
  { destruct (Z.eq_dec q 0) as [Q0 | NQ].
    - rewrite Q0 in *. cbn [Zdigits2] in *. rewrite Z.div_0_l in Bm by lia.
      assert (e1' = -1074) by lia. split; [lia |].
      apply Z.le_trans with 1; [lia |].
      pose proof (pow2_pos (- e1') ltac:(lia)). lia.
    - pose proof (Zdigits2_bounds q ltac:(lia)) as [Lq _].
      pose proof (Zdigits2_pos q ltac:(lia)).
      assert (Zdigits2 q + e' <= 0).
      { assert (2 ^ (Zdigits2 q - 1 + (e' + k)) < 2 ^ k).
        { rewrite Z.pow_add_r by lia.
          pose proof (pow2_pos (e' + k) ltac:(lia)). nia. }
        assert (Zdigits2 q - 1 + (e' + k) < k)
          by (apply (Z.pow_lt_mono_r_iff 2); lia).
        lia. }
      split; [lia |].
      assert (q / 2 ^ (e1' - e') < 2 ^ (- e1')); [| lia].
      assert (q / 2 ^ (e1' - e') * 2 ^ (e1' - e') <= q).
      { rewrite Z.mul_comm. apply Z.mul_div_le. lia. }
      assert (A : 2 ^ (e1' - e') * 2 ^ (e' + k) = 2 ^ (e1' + k)).
      { rewrite <- Z.pow_add_r by lia. f_equal. lia. }
      assert (B : 2 ^ (- e1') * 2 ^ (e1' + k) = 2 ^ k).
      { rewrite <- Z.pow_add_r by lia. f_equal. lia. }
      pose proof (pow2_pos (e' + k) ltac:(lia)).
      pose proof (pow2_pos (e1' + k) ltac:(lia)).
      assert (q / 2 ^ (e1' - e') * 2 ^ (e1' + k) < 2 ^ (- e1') * 2 ^ (e1' + k)).
      { rewrite B, <- A. nia. }
      apply Z.mul_lt_mono_pos_r with (2 ^ (e1' + k)); assumption. }
  destruct Hm' as [He1' Um'].
  destruct R as [[_ ->] | [(Pm & m & e & -> & B & Le & V) | (Pm & _ & Ovf)]].
  - now left.
  - right. exists m, e. repeat split; try assumption.
    destruct (@rounds_to_finite false false m' e1' m e Ge1) as (_ & _ & Um).
    { right. left. split; [assumption |]. exists m, e. now repeat split. }
    rewrite Um.
    replace 1074 with (- e1' + (e1' + 1074)) at 2 by lia.
    rewrite (Z.pow_add_r 2 (- e1')) by lia.
    pose proof (pow2_pos (e1' + 1074) ltac:(lia)). nia.
  - exfalso.
    assert (m' < 2 ^ (- e1' + 1)).
    { rewrite Z.pow_add_r by lia. pose proof (pow2_pos (- e1') ltac:(lia)). lia. }
    pose proof (Zdigits2_below m' (- e1' + 1) ltac:(lia) ltac:(lia) ltac:(assumption)).
    lia.
Qed.

(** ** Integers as floats *)

Lemma iter_xO (p d : positive) : Zpos (Pos.iter xO p d) = Zpos p * 2 ^ Zpos d.
Proof.
  induction d as [| d IH] using Pos.peano_ind.
  - cbn. lia.
  - rewrite Pos.iter_succ, Pos2Z.inj_xO, IH, Pos2Z.inj_succ, Z.pow_succ_r by lia. lia.
Qed.

Lemma Zdigits2_shift (a k : Z) : 0 < a -> 0 <= k -> Zdigits2 (a * 2 ^ k) = Zdigits2 a + k.
Proof.
  intros Ha Hk. pose proof (Zdigits2_bounds a Ha) as [L U].
  pose proof (Zdigits2_pos a Ha). pose proof (pow2_pos k Hk).
  apply Zdigits2_unique; [| nia].
  replace (Zdigits2 a + k - 1) with (Zdigits2 a - 1 + k) by lia.
  rewrite !Z.pow_add_r by lia. nia.
Qed.

Lemma binary_round_spec (sx : bool) (mx : positive) (ex : Z) :
  let e1 := fexp 53 1024 (Zdigits2 (Zpos mx) + ex) in
  exists m' : Z,
    rounds_to sx m' e1 (binary_round 53 1024 sx mx ex)
    /\ (e1 <= ex -> m' = Zpos mx * 2 ^ (ex - e1)).
Proof.
  intros e1. unfold binary_round, shl_align.
  change (Zpos (digits2_pos mx)) with (Zdigits2 (Zpos mx)). fold e1.
  destruct (e1 - ex) as [| d | d] eqn:D.
  - (* already aligned *)
    assert (Q : ex - e1 = 0) by lia.
    destruct (binary_round_aux_spec sx (Zpos mx) ex loc_Exact ltac:(lia))
      as (m' & B & X & R); [fold e1; lia |]. fold e1 in B, X, R.
    replace (e1 - ex) with 0 in * by lia. rewrite Z.div_1_r in *.
    exists m'. rewrite X in * by (try reflexivity; apply Z.mod_1_r).
    split; [assumption |]. intros _.
    rewrite Q, Z.pow_0_r. lia.
  - (* the rounding shifts right *)
    destruct (binary_round_aux_spec sx (Zpos mx) ex loc_Exact ltac:(lia))
      as (m' & B & X & R); [fold e1; lia |]. fold e1 in B, X, R.
    exists m'. split; [assumption | lia].
  - (* the mantissa is shifted left, exactly *)
    assert (Hd : ex - e1 = Zpos d) by lia.
    assert (DM : Zdigits2 (Zpos (Pos.iter xO mx d)) + e1 = Zdigits2 (Zpos mx) + ex).
    { rewrite iter_xO, Zdigits2_shift by lia. lia. }
    destruct (binary_round_aux_spec sx (Zpos (Pos.iter xO mx d)) e1 loc_Exact ltac:(lia))
      as (m' & B & X & R); [rewrite DM; fold e1; lia |].
    rewrite DM in B, X, R. fold e1 in B, X, R.
    rewrite Z.sub_diag, Z.div_1_r in *.
    rewrite X in * by (try reflexivity; apply Z.mod_1_r).
    exists (Zpos (Pos.iter xO mx d)). split; [assumption |].
    intros _. rewrite iter_xO, Hd. reflexivity.
Qed.

(** A small positive integer is a float of exactly that value. *)
Lemma of_Z_spec (z : Z) :
  0 < z < 2 ^ 53 ->
  exists m e, Double.of_Z z = S754_finite false m e
    /\ bounded 53 1024 m e = true /\ units m e = z * 2 ^ 1074.
Proof.
  intros [Hz Uz]. destruct z as [| p | p]; try lia.
  unfold Double.of_Z, binary_normalize, Double.prec, Double.emax.
  destruct (binary_round_spec false p 0) as (m' & R & X).
  pose proof (Zdigits2_below (Zpos p) 53 ltac:(lia) ltac:(lia) Uz) as D.
  pose proof (Zdigits2_pos (Zpos p) ltac:(lia)) as D0.
  set (e1 := fexp 53 1024 (Zdigits2 (Zpos p) + 0)) in *.
  assert (E1 : e1 = Zdigits2 (Zpos p) - 53).
  { unfold e1. rewrite fexp_max. lia. }
  specialize (X ltac:(lia)).
  assert (Pm : 0 < m').
  { rewrite X. pose proof (pow2_pos (0 - e1) ltac:(lia)). lia. }
  assert (G1 : -1074 <= e1) by lia.
  destruct R as [[Z0' _] | [(_ & m & e & Eq & B & Le & V) | (_ & _ & Ovf)]]; try lia.
  - exists m, e. split; [assumption |]. split; [assumption |].
    destruct (@rounds_to_finite false false m' e1 m e G1) as (_ & _ & Um).
    { right. left. split; [assumption |]. exists m, e. now repeat split. }
    rewrite Um, X, <- Z.mul_assoc, <- Z.pow_add_r by lia.
    do 2 f_equal. lia.
  - exfalso. rewrite X, Zdigits2_shift in Ovf by lia. lia.
Qed.

Lemma binary_normalize_valid (n e : Z) (s : bool) :
  valid (binary_normalize 53 1024 n e s).
Proof.
  unfold valid, binary_normalize. destruct n as [| p | p]; [reflexivity | |].
  - destruct (binary_round_spec false p e) as (m' & R & _).
    exact (rounds_to_valid _ _ _ _ R).
  - destruct (binary_round_spec true p e) as (m' & R & _).
    exact (rounds_to_valid _ _ _ _ R).
Qed.

Lemma of_Z_valid (z : Z) : valid (Double.of_Z z).
Proof. apply binary_normalize_valid. Qed.

Lemma Math_round_valid (x : Double.t) : valid x -> valid (Double.Math_round x).
Proof.
  intros V. destruct x as [s | s | | s m [| k | k]]; try exact V.
  apply binary_normalize_valid.
Qed.

Lemma Math_min_valid (x y : Double.t) :
  valid x -> valid y -> valid (Double.Math_min x y).
Proof.
  intros Vx Vy. unfold Double.Math_min.
  destruct x, y; try reflexivity; destruct (SFltb _ _); assumption.
Qed.

Lemma SFmul_valid (x y : Double.t) :
  valid x -> valid y -> valid (Double.mul x y).
Proof.
  unfold valid, Double.mul, Double.prec, Double.emax. intros Vx Vy.
  destruct x as [sx | sx | | sx mx ex], y as [sy | sy | | sy my ey]; try reflexivity.
  cbn [SFmul]. cbn [valid_binary] in Vx, Vy.
  pose proof (mul_precondition mx my ex ey Vx Vy) as Pre.
  destruct (binary_round_aux_spec (xorb sx sy) (Zpos (mx * my)) (ex + ey)
              loc_Exact ltac:(lia) Pre) as (m' & _ & _ & R).
  exact (rounds_to_valid _ _ _ _ R).
Qed.

Lemma SFdiv_valid (x y : Double.t) :
  valid x -> valid y -> valid (Double.div x y).
Proof.
  unfold valid, Double.div, Double.prec, Double.emax. intros Vx Vy.
  destruct x as [sx | sx | | sx mx ex], y as [sy | sy | | sy my ey]; try reflexivity.
  cbn [SFdiv].
  destruct (SFdiv_core_spec mx my ex ey) as [l Eq]. rewrite Eq.
  destruct (div_precondition mx my ex ey) as [Hq Pre].
  destruct (binary_round_aux_spec (xorb sx sy) _ _ l Hq Pre) as (m' & _ & _ & R).
  exact (rounds_to_valid _ _ _ _ R).
Qed.

(** ** Not above an integer *)

Lemma below_not_greater (z : Z) (r : Double.t) :
  0 < z < 2 ^ 53 -> below z r -> Double.ltb (Double.of_Z z) r = false.
Proof.
  intros Hz B. destruct (of_Z_spec z Hz) as (m & e & -> & Bz & Uz).
  unfold Double.ltb, SFltb.
  destruct r as [s | s | | [|] m' e']; cbn [below] in B; try reflexivity.
  - subst s. reflexivity.
  - destruct B as [B' U]. rewrite SFcompare_units by assumption.
    destruct (Z.compare_spec (units m e) (units m' e')); try reflexivity. lia.
Qed.

Lemma not_greater_below (z : Z) (r : Double.t) :
  0 < z < 2 ^ 53 -> valid r -> Double.ltb (Double.of_Z z) r = false -> below z r.
Proof.
  intros Hz V L. destruct (of_Z_spec z Hz) as (m & e & Ez & Bz & Uz).
  rewrite Ez in L. unfold Double.ltb, SFltb in L.
  destruct r as [s | s | | [|] m' e']; cbn [below]; trivial.
  - destruct s; [reflexivity | discriminate L].
  - unfold valid in V. cbn [valid_binary] in V. split; [assumption |].
    rewrite SFcompare_units in L by assumption.
    destruct (Z.compare_spec (units m e) (units m' e')); try discriminate L; lia.
Qed.

Lemma rounds_to_negative_below (z m' e1 : Z) (r : Double.t) :
  rounds_to true m' e1 r -> below z r.
Proof.
  intros [[_ ->] | [(_ & m & e & -> & _) | (_ & -> & _)]]; cbn; trivial.
Qed.

Lemma Math_round_below (z : Z) (p : Double.t) :
  0 < z < 2 ^ 53 -> below z p -> below z (Double.Math_round p).
Proof.
  intros Hz B.
  destruct p as [s | s | | s m [| k | k]]; try exact B.
  unfold Double.Math_round.
  set (n := (2 * (if s then Zneg m else Zpos m) + 2 ^ Zpos k) / 2 ^ (Zpos k + 1)).
  pose proof (pow2_pos (Zpos k) ltac:(lia)) as Pk.
  assert (P2 : 2 ^ (Zpos k + 1) = 2 * 2 ^ Zpos k).
  { rewrite Z.pow_add_r by lia. lia. }
  destruct s.
  - (* a negative value rounds to a non-positive integer *)
    assert (n <= 0).
    { assert (n < 1); [| lia]. apply Z.div_lt_upper_bound; lia. }
    unfold binary_normalize, Double.prec, Double.emax.
    destruct n as [| q | q]; try lia; [exact I |].
    destruct (binary_round_spec true q 0) as (m' & R & _).
    exact (rounds_to_negative_below _ _ _ _ R).
  - cbn [below] in B. destruct B as [Bp Up].
    unfold units in Up.
    assert (Q : 2 ^ 1074 = 2 ^ Zpos k * 2 ^ (Zneg k + 1074)).
    { rewrite <- Z.pow_add_r; [f_equal; lia | lia |].
      destruct (bounded_facts _ _ Bp) as (Rp & _). lia. }
    assert (Pe : 0 < 2 ^ (Zneg k + 1074)).
    { apply pow2_pos. destruct (bounded_facts _ _ Bp) as (Rp & _). lia. }
    assert (Hm : Zpos m <= z * 2 ^ Zpos k) by (rewrite Q in Up; nia).
    assert (Hn : 0 <= n <= z).
    { split; [apply Z.div_pos; lia |].
      assert (n < z + 1); [| lia]. apply Z.div_lt_upper_bound; [lia |]. nia. }
    destruct (Z.eq_dec n 0) as [-> | NZ]; [exact I |].
    destruct (of_Z_spec n ltac:(lia)) as (m1 & e1 & E1 & B1 & U1).
    unfold Double.of_Z, Double.prec, Double.emax in E1.
    replace (binary_normalize Double.prec Double.emax n 0 false)
      with (binary_normalize 53 1024 n 0 false) by reflexivity.
    rewrite E1. cbn [below]. split; [assumption |].
    rewrite U1. pose proof (pow2_pos 1074 ltac:(lia)). nia.
Qed.

Lemma scale_is_fraction (z : Z) (x : Double.t) :
  0 < z < 2 ^ 53 -> valid x -> Double.ltb (Double.of_Z z) x = true ->
  fraction (Double.div (Double.of_Z z) x).
Proof.
  intros Hz V L. destruct (of_Z_spec z Hz) as (m & e & Ez & Bz & Uz).
  rewrite Ez in *. unfold Double.ltb, SFltb in L.
  unfold Double.div, Double.prec, Double.emax.
  destruct x as [s | s | | [|] m' e']; try discriminate L.
  - destruct s; [discriminate L |]. now left.
  - unfold valid in V. cbn [valid_binary] in V.
    rewrite SFcompare_units in L by assumption.
    destruct (Z.compare_spec (units m e) (units m' e')) as [| Lt |];
      try discriminate L.
    exact (SFdiv_below_one m m' e e' Bz V Lt).
Qed.

Lemma mul_fraction_below (z : Z) (w s : Double.t) :
  valid w -> below z w -> fraction s -> below z (Double.mul w s).
Proof.
  intros V B F. unfold Double.mul, Double.prec, Double.emax.
  destruct F as [-> | (ms & es & -> & Bs & Us)].
  - destruct w as [sw | sw | | sw mw ew]; cbn; trivial.
  - destruct w as [sw | sw | | [|] mw ew]; cbn [SFmul below xorb] in *; trivial.
    + subst sw. reflexivity.
    + unfold valid in V. cbn [valid_binary] in V.
      pose proof (mul_precondition mw ms ew es V Bs) as Pre.
      destruct (binary_round_aux_spec true (Zpos (mw * ms)) (ew + es)
                  loc_Exact ltac:(lia) Pre) as (m' & _ & _ & R).
      exact (rounds_to_negative_below _ _ _ _ R).
    + destruct B as [Bw Uw].
      destruct (SFmul_shrinks mw ms ew es Bw Bs Us) as [E | (m & e & E & Bm & Um)];
        cbn [SFmul xorb] in E; rewrite E; cbn [below]; [trivial |].
      split; [assumption | lia].
Qed.

(** The width of the maximum-height stage: scaling a width that is within
    [z] by [maxHeight / height], with [height] above [maxHeight], leaves it
    within [z]. *)
Lemma scaled_down_below (z mh : Z) (w h : Double.t) :
  0 < z < 2 ^ 53 -> 0 < mh < 2 ^ 53 -> valid w -> valid h ->
  below z w -> Double.ltb (Double.of_Z mh) h = true ->
  below z (Double.Math_round (Double.mul w (Double.div (Double.of_Z mh) h))).
Proof.
  intros Hz Hm Vw Vh B L.
  apply Math_round_below; [assumption |].
  apply mul_fraction_below; try assumption.
  now apply scale_is_fraction.
Qed.

Lemma below_self (z : Z) : 0 < z < 2 ^ 53 -> below z (Double.of_Z z).
Proof.
  intros Hz. destruct (of_Z_spec z Hz) as (m & e & -> & B & U).
  cbn [below]. split; [assumption | lia].
Qed.

Lemma truthy_of_Z_double (z : Z) : 0 < z < 2 ^ 53 -> Double.truthy (Double.of_Z z) = true.
Proof. intros Hz. destruct (of_Z_spec z Hz) as (m & e & -> & _). reflexivity. Qed.

(** ** The resolver on doubles *)

Ltac double_ops :=
  cbn [mul div ltb strict_neq Math_round Math_min truthy double_arithmetic] in *.

Lemma given_valid (o : option Double.t) (v : Double.t) :
  validOption o -> given o = Some v -> valid v.
Proof.
  unfold given. destruct o as [x |]; [| discriminate].
  destruct (truthy x); [| discriminate]. now intros V [= <-].
Qed.

Ltac valid_step :=
  first [ assumption
        | apply Math_round_valid | apply SFmul_valid | apply SFdiv_valid
        | apply Math_min_valid | apply of_Z_valid
        | match goal with
          | G : given ?o = Some ?v |- valid ?v =>
              apply (given_valid o v); [assumption | exact G]
          end ].

Section DoubleStages.
Variables originalWidth originalHeight : Double.t.
Variable options : ImageProcessingOptions Double.t.
Hypothesis originalWidth_valid : valid originalWidth.
Hypothesis originalHeight_valid : valid originalHeight.
Hypothesis options_valid : validOptions options.

Lemma applyWidthHeight_valid (t : target) :
  validPair t -> validPair (applyWidthHeight originalWidth originalHeight options t).
Proof.
  destruct options_valid as (Vw & Vh & _).
  intros [V1 V2]. unfold applyWidthHeight.
  destruct (given (width options)) eqn:Gw, (given (height options)) eqn:Gh;
    split; cbn [fst snd]; double_ops; repeat valid_step.
Qed.

Lemma applyMinWidth_valid (t : target) :
  validPair t -> validPair (applyMinWidth options t).
Proof.
  destruct options_valid as (_ & _ & Vw & _).
  intros [V1 V2]. unfold applyMinWidth. destruct t as [w h]. cbn [fst snd] in *.
  destruct (given (minWidth options)) eqn:G; [| now split].
  destruct (ltb w t); [| now split].
  destruct (flag (allowUpscale options)); split; cbn [fst snd]; double_ops;
    repeat valid_step.
Qed.

Lemma applyMinHeight_valid (t : target) :
  validPair t -> validPair (applyMinHeight options t).
Proof.
  destruct options_valid as (_ & _ & _ & Vh & _).
  intros [V1 V2]. unfold applyMinHeight. destruct t as [w h]. cbn [fst snd] in *.
  destruct (given (minHeight options)) eqn:G; [| now split].
  destruct (ltb h t); [| now split].
  destruct (flag (allowUpscale options)); split; cbn [fst snd]; double_ops;
    repeat valid_step.
Qed.

Lemma given_of_Z_double (z : Z) :
  0 < z < 2 ^ 53 -> given (Some (Double.of_Z z)) = Some (Double.of_Z z).
Proof. intros Hz. unfold given. double_ops. now rewrite truthy_of_Z_double. Qed.

Lemma applyMaxWidth_double (mw : option Z) (t : target) :
  maxWidth options = option_map Double.of_Z mw ->
  (forall m, mw = Some m -> 0 < m < 2 ^ 53) ->
  validPair t ->
  validPair (applyMaxWidth options t)
  /\ forall m, mw = Some m -> below m (fst (applyMaxWidth options t)).
Proof.
  intros E R [V1 V2]. unfold applyMaxWidth. destruct t as [w h].
  cbn [fst snd] in *. rewrite E.
  destruct mw as [m |]; cbn [option_map]; [| split; [now split | discriminate]].
  specialize (R m eq_refl). rewrite given_of_Z_double by assumption.
  double_ops. destruct (Double.ltb (Double.of_Z m) w) eqn:L.
  - split; [split; cbn [fst snd]; repeat valid_step |].
    intros m' [= <-]. now apply below_self.
  - split; [now split |].
    intros m' [= <-]. now apply not_greater_below.
Qed.

Lemma applyMaxHeight_double (mh : option Z) (t : target) :
  maxHeight options = option_map Double.of_Z mh ->
  (forall m, mh = Some m -> 0 < m < 2 ^ 53) ->
  validPair t ->
  (forall m, mh = Some m -> below m (snd (applyMaxHeight options t)))
  /\ forall z, 0 < z < 2 ^ 53 -> below z (fst t) ->
       below z (fst (applyMaxHeight options t)).
Proof.
  intros E R [V1 V2]. unfold applyMaxHeight. destruct t as [w h].
  cbn [fst snd] in *. rewrite E.
  destruct mh as [m |]; cbn [option_map]; [| split; [discriminate | trivial]].
  specialize (R m eq_refl). rewrite given_of_Z_double by assumption.
  double_ops. destruct (Double.ltb (Double.of_Z m) h) eqn:L.
  - split.
    + intros m' [= <-]. now apply below_self.
    + intros z Hz B. cbn [fst]. now apply scaled_down_below.
  - split.
    + intros m' [= <-]. now apply not_greater_below.
    + trivial.
Qed.

End DoubleStages.

Lemma optionsOf_valid (fmt : string) (q : option Double.t) (c : ConstraintSet.t) :
  validOptions (optionsOf Double.of_Z fmt q c).
Proof.
  unfold validOptions, optionsOf, validOption. cbn.
  repeat split;
    match goal with |- match option_map _ ?o with _ => _ end => destruct o end;
    cbn; trivial; apply of_Z_valid.
Qed.

(** On doubles every maximum that is set and below [2 ^ 53] is respected,
    whatever the other constraints and the original size. *)
Lemma max_constraints_on_doubles
    (ow oh : Z) (c : ConstraintSet.t) (fmt : string) (q : option Double.t) :
  (forall m, ConstraintSet.maxWidth c = Some m -> 0 < m < 2 ^ 53) ->
  (forall m, ConstraintSet.maxHeight c = Some m -> 0 < m < 2 ^ 53) ->
  let d := calculateTargetDimensions (Double.of_Z ow) (Double.of_Z oh)
             (optionsOf Double.of_Z fmt q c) in
  (forall m, ConstraintSet.maxWidth c = Some m ->
     Double.ltb (Double.of_Z m) (Dimensions.width d) = false)
  /\ (forall m, ConstraintSet.maxHeight c = Some m ->
        Double.ltb (Double.of_Z m) (Dimensions.height d) = false).
Proof.
  intros Rw Rh d.
  set (options := optionsOf Double.of_Z fmt q c) in *.
  pose proof (optionsOf_valid fmt q c) as VO. fold options in VO.
  set (t0 := (Double.of_Z ow, Double.of_Z oh)).
  assert (V0 : validPair t0) by (split; apply of_Z_valid).
  pose proof (applyWidthHeight_valid (Double.of_Z ow) (Double.of_Z oh) options
                (of_Z_valid ow) (of_Z_valid oh) VO t0 V0) as V1.
  pose proof (applyMinWidth_valid options VO _ V1) as V2.
  pose proof (applyMinHeight_valid options VO _ V2) as V3.
  destruct (applyMaxWidth_double options (ConstraintSet.maxWidth c) _ eq_refl Rw V3)
    as [V4 W4].
  destruct (applyMaxHeight_double options (ConstraintSet.maxHeight c) _ eq_refl Rh V4)
    as [H5 W5].
  split.
  - intros m Em. apply below_not_greater; [now apply Rw |].
    apply W5; [now apply Rw |]. now apply W4.
  - intros m Em. apply below_not_greater; [now apply Rh |]. now apply H5.
Qed.

(** ** Exact products and rounded quotients of integers *)

(** A valid float is determined by its value. *)
Lemma units_injective (m1 m2 : positive) (e1 e2 : Z) :
  bounded 53 1024 m1 e1 = true -> bounded 53 1024 m2 e2 = true ->
  units m1 e1 = units m2 e2 -> m1 = m2 /\ e1 = e2.
Proof.
  intros B1 B2 U.
  destruct (Z.lt_trichotomy e1 e2) as [L | [E | G]].
  - pose proof (units_lt_of_exponent _ _ _ _ B1 B2 L). lia.
  - subst e2. split; [| reflexivity]. unfold units in U.
    destruct (bounded_facts _ _ B1) as (R & _).
    pose proof (pow2_pos (e1 + 1074) ltac:(lia)).
    apply Z.mul_reg_r in U; [| lia]. now injection U.
  - pose proof (units_lt_of_exponent _ _ _ _ B2 B1 G). lia.
Qed.

Lemma of_Z_units (z : Z) (m : positive) (e : Z) :
  0 < z < 2 ^ 53 -> bounded 53 1024 m e = true -> units m e = z * 2 ^ 1074 ->
  S754_finite false m e = Double.of_Z z.
Proof.
  intros Hz B U. destruct (of_Z_spec z Hz) as (m' & e' & -> & B' & U').
  destruct (units_injective m m' e e' B B') as [-> ->]; [| reflexivity].
  now rewrite U, U'.
Qed.

(** The float of a small integer has a non-positive exponent. *)
Lemma integer_mantissa (z : Z) (m : positive) (e : Z) :
  0 < z < 2 ^ 53 -> bounded 53 1024 m e = true -> units m e = z * 2 ^ 1074 ->
  e <= 0 /\ Zpos m = z * 2 ^ (- e).
Proof.
  intros [Hz Uz] B U. destruct (bounded_facts _ _ B) as (R & D & N & _).
  unfold units in U.
  destruct (Z.lt_ge_cases 0 e) as [Pe | Ne].
  - exfalso. specialize (N ltac:(lia)).
    pose proof (Zdigits2_bounds (Zpos m) ltac:(lia)) as [L _].
    rewrite N in L. change (2 ^ (53 - 1)) with (2 ^ 52) in L.
    rewrite Z.pow_add_r in U by lia.
    assert (2 <= 2 ^ e).
    { change 2 with (2 ^ 1) at 1. apply Z.pow_le_mono_r; lia. }
    change (2 ^ 53) with (2 * 2 ^ 52) in Uz.
    rewrite Z.mul_assoc in U. apply Z.mul_reg_r in U; [| now apply Z.pow_nonzero].
    set (h := 2 ^ 52) in *. clearbody h. set (E := 2 ^ e) in *. clearbody E. nia.
  - split; [lia |].
    assert (S : 2 ^ 1074 = 2 ^ (- e) * 2 ^ (e + 1074)).
    { rewrite <- Z.pow_add_r by lia. f_equal. lia. }
    rewrite S, Z.mul_assoc in U.
    pose proof (pow2_pos (e + 1074) ltac:(lia)).
    apply Z.mul_reg_r in U; [assumption | lia].
Qed.

(** The product of two integers that fits in 53 bits is computed exactly. *)
Lemma SFmul_of_Z (a b : Z) :
  0 < a -> 0 < b -> a * b < 2 ^ 53 ->
  Double.mul (Double.of_Z a) (Double.of_Z b) = Double.of_Z (a * b).
Proof.
  intros Ha Hb Hab.
  assert (La : a < 2 ^ 53) by nia. assert (Lb : b < 2 ^ 53) by nia.
  destruct (of_Z_spec a ltac:(lia)) as (ma & ea & -> & Ba & Ua).
  destruct (of_Z_spec b ltac:(lia)) as (mb & eb & -> & Bb & Ub).
  destruct (integer_mantissa a ma ea ltac:(lia) Ba Ua) as [Nea Ma].
  destruct (integer_mantissa b mb eb ltac:(lia) Bb Ub) as [Neb Mb].
  clear Ua Ub.
  unfold Double.mul, Double.prec, Double.emax. cbn [SFmul xorb].
  pose proof (mul_precondition ma mb ea eb Ba Bb) as Pre.
  destruct (binary_round_aux_spec false (Zpos (ma * mb)) (ea + eb) loc_Exact
              ltac:(lia) Pre) as (m' & _ & X & R).
  assert (M : Zpos (ma * mb) = a * b * 2 ^ (- (ea + eb))).
  { rewrite Pos2Z.inj_mul, Ma, Mb.
    replace (- (ea + eb)) with (- ea + - eb) by lia.
    rewrite Z.pow_add_r by lia. ring. }
  assert (Pab : 0 < a * b) by nia.
  pose proof (Zdigits2_pos (a * b) Pab) as D0.
  pose proof (Zdigits2_below (a * b) 53 Pab ltac:(lia) Hab) as D1.
  assert (DM : Zdigits2 (Zpos (ma * mb)) + (ea + eb) = Zdigits2 (a * b)).
  { rewrite M, Zdigits2_shift by lia. lia. }
  rewrite DM in *.
  set (e1 := fexp 53 1024 (Zdigits2 (a * b))) in *.
  assert (E1 : e1 = Zdigits2 (a * b) - 53) by (unfold e1; rewrite fexp_max; lia).
  assert (S : Zpos (ma * mb) = a * b * 2 ^ (- e1) * 2 ^ (e1 - (ea + eb))).
  { rewrite M, <- (Z.mul_assoc (a * b)), <- Z.pow_add_r by lia.
    do 2 f_equal. lia. }
  pose proof (pow2_pos (e1 - (ea + eb)) ltac:(lia)) as Pk.
  pose proof (pow2_pos (- e1) ltac:(lia)) as Pe.
  assert (Em : m' = a * b * 2 ^ (- e1)).
  { rewrite X; [| reflexivity | rewrite S; apply Z.mod_mul; lia].
    rewrite S. apply Z.div_mul. lia. }
  assert (Pm : 0 < m') by (rewrite Em; nia).
  destruct R as [[Z0' _] | [(_ & m & e & Eq & B & Le & V) | (_ & _ & Ovf)]]; try lia.
  - rewrite Eq. apply of_Z_units; [lia | assumption |].
    destruct (rounds_to_finite false false m' e1 m e ltac:(lia)) as (_ & _ & Um).
    { right. left. split; [assumption |]. exists m, e. now repeat split. }
    rewrite Um, Em, <- (Z.mul_assoc (a * b)), <- Z.pow_add_r by lia.
    do 2 f_equal. lia.
  - exfalso. rewrite Em, Zdigits2_shift in Ovf by lia. lia.
Qed.

(** [Math.round] of a float whose value lies in [[j - 1/2, j + 1/2)]. *)
Lemma Math_round_of_units (m : positive) (e j : Z) :
  bounded 53 1024 m e = true ->
  0 <= j < 2 ^ 52 ->
  (2 * j - 1) * 2 ^ 1074 <= 2 * units m e < (2 * j + 1) * 2 ^ 1074 ->
  Double.Math_round (S754_finite false m e) = Double.of_Z j.
Proof.
  intros B Hj U. destruct (bounded_facts _ _ B) as (R & D & N & _).
  unfold units in U.
  destruct e as [| p | k].
  - cbn [Double.Math_round]. apply of_Z_units; [| assumption |].
    + change (0 + 1074) with 1074 in U.
      set (K := 2 ^ 1074) in *. assert (0 < K) by (now apply pow2_pos).
      clearbody K. change (2 ^ 53) with (2 * 2 ^ 52). nia.
    + unfold units. change (0 + 1074) with 1074 in *.
      set (K := 2 ^ 1074) in *. assert (0 < K) by (now apply pow2_pos).
      clearbody K. f_equal. nia.
  - exfalso. specialize (N ltac:(lia)).
    pose proof (Zdigits2_bounds (Zpos m) ltac:(lia)) as [L _].
    rewrite N in L. change (2 ^ (53 - 1)) with (2 ^ 52) in L.
    rewrite Z.pow_add_r in U by lia.
    assert (2 <= 2 ^ Zpos p).
    { change 2 with (2 ^ 1) at 1. apply Z.pow_le_mono_r; lia. }
    set (K := 2 ^ 1074) in *. assert (0 < K) by (now apply pow2_pos).
    clearbody K. set (h := 2 ^ 52) in *. clearbody h.
    set (E := 2 ^ Zpos p) in *. clearbody E.
    assert (2 * (Zpos m * E) < 2 * j + 1) by nia. nia.
  - cbn [Double.Math_round]. unfold Double.of_Z. f_equal.
    assert (S : 2 ^ 1074 = 2 ^ Zpos k * 2 ^ (Zneg k + 1074)).
    { rewrite <- Z.pow_add_r by lia. f_equal. lia. }
    rewrite S in U. clear S.
    pose proof (pow2_pos (Zneg k + 1074) ltac:(lia)) as Pr.
    pose proof (pow2_pos (Zpos k) ltac:(lia)) as Pk.
    rewrite Z.pow_add_r by lia. change (2 ^ 1) with 2.
    set (r := 2 ^ (Zneg k + 1074)) in *. clearbody r.
    set (P := 2 ^ Zpos k) in *. clearbody P.
    symmetry. apply Z.div_unique with (r := 2 * Zpos m + P - P * 2 * j); [| lia].
    left. nia.
Qed.

(** The quotient of two small integers, rounded by the division and then by
    [Math.round], is the quotient rounded half up: the division errs by less
    than the distance from the quotient to the next half-integer. *)
Lemma Math_round_SFdiv_of_Z (n c : Z) :
  0 < n < 2 ^ 51 -> 0 < c < 2 ^ 53 ->
  Double.Math_round (Double.div (Double.of_Z n) (Double.of_Z c))
  = Double.of_Z ((2 * n + c) / (2 * c)).
Proof.
  intros Hn Hc.
  set (j := (2 * n + c) / (2 * c)).
  assert (J : (2 * j - 1) * c <= 2 * n /\ 2 * n + 1 <= (2 * j + 1) * c
              /\ 0 <= j /\ j <= n).
  { pose proof (Z.div_mod (2 * n + c) (2 * c) ltac:(lia)) as D.
    pose proof (Z.mod_pos_bound (2 * n + c) (2 * c) ltac:(lia)) as M.
    fold j in D. assert (0 <= j) by (apply Z.div_pos; lia).
    split; [lia |]. split; [lia |]. split; [lia |]. nia. }
  clearbody j. destruct J as (J1 & J2 & J3 & J4).
  destruct (of_Z_spec n ltac:(lia)) as (m1 & e1 & -> & B1 & U1).
  destruct (of_Z_spec c ltac:(lia)) as (m2 & e2 & -> & B2 & U2).
  destruct (integer_mantissa n m1 e1 ltac:(lia) B1 U1) as [N1 M1].
  destruct (integer_mantissa c m2 e2 ltac:(lia) B2 U2) as [N2 M2].
  clear U1 U2.
  unfold Double.div, Double.prec, Double.emax. cbn [SFdiv xorb].
  destruct (SFdiv_core_spec m1 m2 e1 e2) as [l Eq]. cbv zeta in Eq. rewrite Eq.
  destruct (div_precondition m1 m2 e1 e2) as [Hq Pre]. cbv zeta in Hq, Pre.
  destruct (binary_round_aux_spec false _ _ l Hq Pre) as (m' & Bm & _ & R).
  cbv zeta in Bm, R.
  assert (D1 : Zdigits2 (Zpos m1) = Zdigits2 n - e1).
  { rewrite M1, Zdigits2_shift by lia. lia. }
  assert (D2 : Zdigits2 (Zpos m2) = Zdigits2 c - e2).
  { rewrite M2, Zdigits2_shift by lia. lia. }
  pose proof (Zdigits2_below n 51 ltac:(lia) ltac:(lia) ltac:(lia)) as Dn.
  pose proof (Zdigits2_pos c ltac:(lia)) as Dc.
  rewrite D1, D2 in *.
  set (e' := Z.min (fexp 53 1024 (Zdigits2 n - e1 + e1 - (Zdigits2 c - e2 + e2)))
               (e1 - e2)) in *.
  assert (Le' : e' <= -3) by (unfold e'; rewrite fexp_max; lia).
  assert (S : 0 <= e1 - e2 - e') by (unfold e'; lia).
  set (q := Zpos m1 * 2 ^ (e1 - e2 - e') / Zpos m2) in *.
  set (E1 := fexp 53 1024 (Zdigits2 q + e')) in *.
  assert (EE : E1 = Z.max (Zdigits2 q + e' - 53) (-1074)) by apply fexp_max.
  pose proof (Zdigits2_nonneg q) as Dq.
  pose proof (pow2_pos (- e2) ltac:(lia)) as PA.
  pose proof (pow2_pos (- e') ltac:(lia)) as PE.
  (* the unit of the result is small against the divisor *)
  assert (A : E1 <= -2 /\ c < 2 ^ (- E1 - 1)).
  { assert (G : Zdigits2 q + e' <= 51).
    { destruct (Z.eq_dec q 0) as [Q0 | Q0]; [rewrite Q0; cbn; lia |].
      pose proof (Zdigits2_bounds q ltac:(lia)) as [Lq _].
      pose proof (Z.mul_div_le (Zpos m1 * 2 ^ (e1 - e2 - e')) (Zpos m2) ltac:(lia)) as Q.
      fold q in Q.
      assert (T : Zpos m1 * 2 ^ (e1 - e2 - e') = n * 2 ^ (- e') * 2 ^ (- e2)).
      { rewrite M1, <- !Z.mul_assoc, <- !Z.pow_add_r by lia. do 2 f_equal. lia. }
      rewrite T, M2 in Q.
      pose proof (Zdigits2_pos q ltac:(lia)) as Dq'.
      pose proof (pow2_pos (Zdigits2 q - 1) ltac:(lia)) as Pd.
      assert (W : 2 ^ (Zdigits2 q - 1) * c <= n * 2 ^ (- e')).
      { set (a2 := 2 ^ (- e2)) in *. clearbody a2.
        set (x := 2 ^ (- e')) in *. clearbody x.
        set (y := 2 ^ (Zdigits2 q - 1)) in *. clearbody y. nia. }
      assert (W' : 2 ^ (Zdigits2 q - 1) < 2 ^ (51 - e')).
      { replace (51 - e') with (51 + - e') by lia. rewrite Z.pow_add_r by lia.
        set (x := 2 ^ (- e')) in *. clearbody x.
        set (y := 2 ^ (Zdigits2 q - 1)) in *. clearbody y.
        set (h := 2 ^ 51) in *. clearbody h. nia. }
      apply Z.pow_lt_mono_r_iff in W'; lia. }
    split; [lia |].
    destruct (Z.le_gt_cases (Zdigits2 q + e' - 53) (-1074)) as [C | C].
    - replace E1 with (-1074) by lia.
      apply Z.lt_trans with (2 ^ 53); [lia |]. apply Z.pow_lt_mono_r; lia.
    - replace E1 with (Zdigits2 q + e' - 53) by lia.
      destruct (Z.eq_dec q 0) as [Q0 | Q0].
      + rewrite Q0. change (Zdigits2 0) with 0.
        apply Z.lt_le_trans with (2 ^ 53); [lia |]. apply Z.pow_le_mono_r; lia.
      + pose proof (Zdigits2_bounds q ltac:(lia)) as [Lq _].
        pose proof (Z.mul_div_le (Zpos m1 * 2 ^ (e1 - e2 - e')) (Zpos m2) ltac:(lia)) as Q.
        fold q in Q.
        assert (T : Zpos m1 * 2 ^ (e1 - e2 - e') = n * 2 ^ (- e') * 2 ^ (- e2)).
        { rewrite M1, <- !Z.mul_assoc, <- !Z.pow_add_r by lia. do 2 f_equal. lia. }
        rewrite T, M2 in Q.
        pose proof (Zdigits2_pos q ltac:(lia)) as Dq'.
        pose proof (pow2_pos (Zdigits2 q - 1) ltac:(lia)) as Pd.
        pose proof (pow2_pos (- (Zdigits2 q + e' - 53) - 1) ltac:(lia)) as PP.
        assert (T2 : 2 ^ 51 * 2 ^ (- e')
                     = 2 ^ (- (Zdigits2 q + e' - 53) - 1) * 2 ^ (Zdigits2 q - 1)).
        { rewrite <- !Z.pow_add_r by lia. f_equal. lia. }
        set (a2 := 2 ^ (- e2)) in *. clearbody a2.
        set (x := 2 ^ (- e')) in *. clearbody x.
        set (y := 2 ^ (Zdigits2 q - 1)) in *. clearbody y.
        set (P := 2 ^ (- (Zdigits2 q + e' - 53) - 1)) in *. clearbody P.
        set (h := 2 ^ 51) in *. clearbody h.
        assert (y * c <= n * x) by nia.
        assert (y * c < P * y) by nia. nia. }
  destruct A as [A1 A2].
  assert (L1 : -1074 <= E1) by lia.
  assert (K0 : 0 <= E1 - e') by lia.
  pose proof (pow2_pos (E1 - e') K0) as PK.
  pose proof (pow2_pos (- E1 - 1) ltac:(lia)) as PP.
  (* the quotient in units of the result *)
  assert (F : q / 2 ^ (E1 - e') = 2 * n * 2 ^ (- E1 - 1) / c).
  { unfold q. rewrite Z.div_div by lia.
    assert (T : Zpos m1 * 2 ^ (e1 - e2 - e')
                = 2 * n * 2 ^ (- E1 - 1) * (2 ^ (- e2) * 2 ^ (E1 - e'))).
    { rewrite M1. change 2 with (2 ^ 1) at 2.
      rewrite <- !Z.mul_assoc, <- !Z.pow_add_r by lia.
      rewrite (Z.mul_comm (2 ^ 1)), <- !Z.mul_assoc, <- !Z.pow_add_r by lia.
      do 2 f_equal. lia. }
    rewrite T, M2, <- (Z.mul_assoc c). apply Z.div_mul_cancel_r; lia. }
  rewrite F in Bm.
  assert (Bd : (2 * j - 1) * 2 ^ (- E1 - 1) <= m' < (2 * j + 1) * 2 ^ (- E1 - 1)).
  { set (P := 2 ^ (- E1 - 1)) in *. clearbody P.
    pose proof (Z.mul_div_le (2 * n * P) c ltac:(lia)) as Up.
    assert (Lo : (2 * j - 1) * P <= 2 * n * P / c).
    { apply Z.div_le_lower_bound; [lia | nia]. }
    set (f := 2 * n * P / c) in *. clearbody f.
    split; [lia |].
    assert (c * f < c * ((2 * j + 1) * P - 1)) by nia.
    assert (f < (2 * j + 1) * P - 1) by nia. lia. }
  clear F Bm.
  destruct R as [[Z0' ->] | [(Pm & m & e & -> & B & Le & V) | (Pm & _ & Ovf)]].
  - (* the quotient rounds to zero *)
    cbn [Double.Math_round].
    replace j with 0 by nia. reflexivity.
  - apply Math_round_of_units; [assumption | lia |].
    unfold units. rewrite <- V in Bd.
    assert (T : 2 ^ 1074 = 2 * 2 ^ (- E1 - 1) * 2 ^ (E1 + 1074)).
    { replace (2 ^ 1074) with (2 ^ (1 + (- E1 - 1) + (E1 + 1074)))
        by (f_equal; lia).
      rewrite !Z.pow_add_r by lia. reflexivity. }
    assert (T' : 2 ^ (e + 1074) = 2 ^ (e - E1) * 2 ^ (E1 + 1074)).
    { rewrite <- Z.pow_add_r by lia. f_equal. lia. }
    rewrite T, T'.
    pose proof (pow2_pos (E1 + 1074) ltac:(lia)) as PT.
    set (P := 2 ^ (- E1 - 1)) in *. clearbody P.
    set (t := 2 ^ (E1 + 1074)) in *. clearbody t.
    set (u := 2 ^ (e - E1)) in *. clearbody u.
    replace (Zpos m * (u * t)) with (Zpos m * u * t) by ring.
    set (v := Zpos m * u) in *. clearbody v.
    destruct Bd as [Lo Hi].
    apply (Z.mul_le_mono_nonneg_r _ _ t) in Lo; [| lia].
    apply (Z.mul_lt_mono_pos_r t) in Hi; [| lia].
    lia.
  - exfalso.
    assert (U : m' < 2 ^ (51 - E1)).
    { apply Z.lt_le_trans with ((2 * j + 1) * 2 ^ (- E1 - 1)); [lia |].
      replace (51 - E1) with (52 + (- E1 - 1)) by lia.
      rewrite Z.pow_add_r by lia.
      apply Z.mul_le_mono_nonneg_r; lia. }
    pose proof (Zdigits2_below m' (51 - E1) Pm ltac:(lia) U). lia.
Qed.

(** [Math.round (a * b / c)] on doubles, for integers whose product is below
    [2 ^ 51]: the integer [(2 * a * b + c) / (2 * c)], as in exact
    arithmetic. *)
Lemma round_ratio_double (a b c : Z) :
  0 < a -> 0 < b -> a * b < 2 ^ 51 -> 0 < c < 2 ^ 53 ->
  Double.Math_round
    (Double.div (Double.mul (Double.of_Z a) (Double.of_Z b)) (Double.of_Z c))
  = Double.of_Z ((2 * a * b + c) / (2 * c)).
Proof.
  intros Ha Hb Hab Hc.
  rewrite SFmul_of_Z by lia.
  rewrite Math_round_SFdiv_of_Z by nia.
  do 2 f_equal. lia.
Qed.

(** Only zero is the float zero. *)
Lemma of_Z_double_zero (j : Z) :
  0 <= j < 2 ^ 53 -> Double.of_Z j = Double.of_Z 0 -> j = 0.
Proof.
  intros Hj E. destruct (Z.eq_dec j 0) as [| N]; [assumption | exfalso].
  destruct (of_Z_spec j ltac:(lia)) as (m & e & F & _).
  rewrite F in E. discriminate E.
Qed.

(** ** Rounding to nearest *)

Lemma shr_1_encodes (m : Z) (r s : bool) (num den : Z) :
  0 <= m -> encodes r s num den ->
  encodes (Z.odd m) (r || s) (m mod 2 * den + num) (2 * den)
  /\ m / 2 * (2 * den) + (m mod 2 * den + num) = m * den + num.
Proof.
  intros Hm [B C].
  pose proof (Z.div_mod m 2 ltac:(lia)) as D.
  pose proof (Z.mod_pos_bound m 2 ltac:(lia)) as R.
  rewrite Zodd_mod. unfold encodes.
  assert (Hb : m mod 2 = 0 \/ m mod 2 = 1) by lia.
  set (b := m mod 2) in *. set (q := m / 2) in *. clearbody b q.
  split; [| subst m; ring].
  destruct Hb as [-> | ->];
    [change (0 =? 1) with false | change (1 =? 1) with true];
    destruct r, s; cbn [orb] in *; lia.
Qed.

(** [p] shifts keep the value and what the two bits say of the rest. *)
Lemma iter_shr_1_encodes (p : positive) :
  forall (m : Z) (r s : bool) (num den : Z),
  0 <= m -> encodes r s num den ->
  exists num',
    0 <= shr_m (iter_pos shr_1 p (Build_shr_record m r s))
    /\ encodes (shr_r (iter_pos shr_1 p (Build_shr_record m r s)))
         (shr_s (iter_pos shr_1 p (Build_shr_record m r s)))
         num' (den * 2 ^ Zpos p)
    /\ shr_m (iter_pos shr_1 p (Build_shr_record m r s)) * (den * 2 ^ Zpos p)
       + num'
       = m * den + num.
Proof.
  induction p as [p IH | p IH |]; intros m r s num den Hm En; cbn [iter_pos].
  - rewrite shr_1_spec by assumption.
    destruct (shr_1_encodes m r s num den Hm En) as [E1 V1].
    assert (H1 : 0 <= m / 2) by (apply Z.div_pos; lia).
    destruct (IH _ _ _ _ _ H1 E1) as (n2 & H2 & E2 & V2).
    destruct (iter_pos shr_1 p (Build_shr_record (m / 2) (Z.odd m) (r || s)))
      as [m2 r2 s2].
    cbn [shr_m shr_r shr_s] in *.
    destruct (IH _ _ _ _ _ H2 E2) as (n3 & H3 & E3 & V3).
    exists n3. rewrite pow2_xI.
    replace (den * (2 * (2 ^ Zpos p * 2 ^ Zpos p)))
      with (2 * den * 2 ^ Zpos p * 2 ^ Zpos p) by ring.
    split; [assumption |]. split; [assumption |]. lia.
  - destruct (IH _ _ _ _ _ Hm En) as (n2 & H2 & E2 & V2).
    destruct (iter_pos shr_1 p (Build_shr_record m r s)) as [m2 r2 s2].
    cbn [shr_m shr_r shr_s] in *.
    destruct (IH _ _ _ _ _ H2 E2) as (n3 & H3 & E3 & V3).
    exists n3. rewrite pow2_xO.
    replace (den * (2 ^ Zpos p * 2 ^ Zpos p))
      with (den * 2 ^ Zpos p * 2 ^ Zpos p) by ring.
    split; [assumption |]. split; [assumption |]. lia.
  - rewrite shr_1_spec by assumption. cbn [shr_m shr_r shr_s].
    destruct (shr_1_encodes m r s num den Hm En) as [E1 V1].
    exists (m mod 2 * den + num). change (2 ^ 1) with 2.
    replace (den * 2) with (2 * den) by ring.
    split; [apply Z.div_pos; lia |]. split; assumption.
Qed.

(** Rounding to nearest, ties to even: the result is within half a unit. *)
Lemma round_nearest_even_half (m : Z) (r s : bool) (num den : Z) :
  encodes r s num den ->
  - den
  <= 2 * (round_nearest_even m (loc_of_shr_record (Build_shr_record m r s)) * den
          - (m * den + num))
  <= den.
Proof.
  intros [B C]. unfold round_nearest_even.
  destruct r, s; cbn [loc_of_shr_record] in *; try destruct (Z.even m); lia.
Qed.

Lemma shr_record_of_loc_m (m : Z) (l : location) :
  exists r s, shr_record_of_loc m l = Build_shr_record m r s.
Proof. destruct l as [| [ | | ]]; cbn; eauto. Qed.

Lemma shr_fexp_nearest (m e : Z) (l : location) (r s : bool) (num den : Z) :
  0 <= m -> e <= fexp 53 1024 (Zdigits2 m + e) ->
  shr_record_of_loc m l = Build_shr_record m r s -> encodes r s num den ->
  exists mrs num',
    shr_fexp 53 1024 m e l = (mrs, fexp 53 1024 (Zdigits2 m + e))
    /\ encodes (shr_r mrs) (shr_s mrs) num'
         (den * 2 ^ (fexp 53 1024 (Zdigits2 m + e) - e))
    /\ shr_m mrs * (den * 2 ^ (fexp 53 1024 (Zdigits2 m + e) - e)) + num'
       = m * den + num.
Proof.
  intros Hm He Rl En. unfold shr_fexp, shr. rewrite Rl.
  set (e' := fexp 53 1024 (Zdigits2 m + e)) in *.
  destruct (e' - e) as [| p | p] eqn:N; try lia.
  - exists (Build_shr_record m r s), num.
    cbn [shr_m shr_r shr_s]. rewrite Z.pow_0_r, Z.mul_1_r.
    split; [f_equal; lia |]. split; [assumption | reflexivity].
  - destruct (iter_shr_1_encodes p m r s num den Hm En) as (n' & _ & E' & V').
    exists (iter_pos shr_1 p (Build_shr_record m r s)), n'.
    split; [f_equal; lia |]. split; assumption.
Qed.

(** [binary_round_aux] rounds to nearest: the mantissa [m'] it keeps, in
    units of [2 ^ e1], is within half a unit of the value [M + num / den] in
    units of [2 ^ E]. *)
Lemma binary_round_aux_nearest (sx : bool) (M E : Z) (l : location)
    (r s : bool) (num den : Z) :
  0 <= M -> E <= fexp 53 1024 (Zdigits2 M + E) ->
  shr_record_of_loc M l = Build_shr_record M r s -> encodes r s num den ->
  let e1 := fexp 53 1024 (Zdigits2 M + E) in
  exists m' : Z,
    - (den * 2 ^ (e1 - E))
    <= 2 * (m' * (den * 2 ^ (e1 - E)) - (M * den + num))
    <= den * 2 ^ (e1 - E)
    /\ rounds_to sx m' e1 (binary_round_aux 53 1024 sx M E l).
Proof.
  intros HM HE Rl En e1.
  destruct (shr_fexp_nearest M E l r s num den HM HE Rl En)
    as (mrs & n' & S1 & E1 & V1).
  fold e1 in S1, E1, V1.
  exists (round_nearest_even (shr_m mrs) (loc_of_shr_record mrs)).
  split; [| now apply binary_round_aux_rounds].
  destruct mrs as [m1 r1 s1]. cbn [shr_m shr_r shr_s] in *.
  rewrite <- V1. now apply round_nearest_even_half.
Qed.

(** The quotient and the location of the remainder that [SFdiv] rounds. *)
Lemma SFdiv_core_location (m1 m2 : positive) (e1 e2 : Z) :
  let e' := Z.min (fexp 53 1024 (Zdigits2 (Zpos m1) + e1 - (Zdigits2 (Zpos m2) + e2)))
              (e1 - e2) in
  let a := Zpos m1 * 2 ^ (e1 - e2 - e') in
  SFdiv_core_binary 53 1024 (Zpos m1) e1 (Zpos m2) e2
  = (a / Zpos m2, e', new_location (Zpos m2) (a mod Zpos m2)).
Proof.
  intros e' a. unfold SFdiv_core_binary. fold e'.
  assert (S : 0 <= e1 - e2 - e') by (unfold e'; lia).
  assert (Q : match e1 - e2 - e' with
              | Z0 => Zpos m1
              | Zpos _ => Z.shiftl (Zpos m1) (e1 - e2 - e')
              | Zneg _ => 0
              end = a).
  { unfold a. destruct (e1 - e2 - e') as [| p | p] eqn:Es; try lia.
    now rewrite Z.shiftl_mul_pow2 by lia. }
  rewrite Q. unfold Z.div, Z.modulo.
  now destruct (Z.div_eucl a (Zpos m2)) as [q r].
Qed.

Lemma new_location_encodes (n k q : Z) :
  0 <= k < n ->
  exists r s,
    shr_record_of_loc q (new_location n k) = Build_shr_record q r s
    /\ encodes r s k n.
Proof.
  intros B. unfold new_location, new_location_even, new_location_odd, encodes.
  rewrite Zeven_mod.
  pose proof (Z.div_mod n 2 ltac:(lia)) as D.
  pose proof (Z.mod_pos_bound n 2 ltac:(lia)) as R.
  destruct (Z.eqb_spec (n mod 2) 0) as [Ev | Od];
    destruct (Z.eqb_spec k 0) as [-> | Nk].
  - exists false, false. split; [reflexivity | split; [lia | reflexivity]].
  - destruct (Z.compare_spec (2 * k) n).
    + exists true, false. split; [reflexivity | split; [lia | cbv beta iota; lia]].
    + exists false, true. split; [reflexivity | split; [lia | cbv beta iota; lia]].
    + exists true, true. split; [reflexivity | split; [lia | cbv beta iota; lia]].
  - exists false, false. split; [reflexivity | split; [lia | reflexivity]].
  - destruct (Z.compare_spec (2 * k + 1) n).
    + exists false, true. split; [reflexivity | split; [lia | cbv beta iota; lia]].
    + exists false, true. split; [reflexivity | split; [lia | cbv beta iota; lia]].
    + exists true, true. split; [reflexivity | split; [lia | cbv beta iota; lia]].
Qed.

(** ** Quotients and products to half a unit in the last place *)

(** The float of a small integer: its exponent and its mantissa. *)
Lemma of_Z_shape (z : Z) (m : positive) (e : Z) :
  0 < z < 2 ^ 53 -> bounded 53 1024 m e = true -> units m e = z * 2 ^ 1074 ->
  -52 <= e <= 0 /\ Zpos m = z * 2 ^ (- e) /\ 2 ^ 52 <= Zpos m < 2 ^ 53.
Proof.
  intros Hz B U.
  destruct (integer_mantissa z m e Hz B U) as [Ne Mz]. clear U.
  destruct (bounded_facts _ _ B) as (R & D & N & F).
  pose proof (Zdigits2_pos z ltac:(lia)) as D0.
  pose proof (Zdigits2_below z 53 ltac:(lia) ltac:(lia) ltac:(lia)) as D1.
  assert (Dm : Zdigits2 (Zpos m) = Zdigits2 z - e).
  { rewrite Mz, Zdigits2_shift by lia. lia. }
  rewrite Dm, fexp_max in F.
  assert (Ee : -52 <= e) by lia.
  specialize (N ltac:(lia)).
  pose proof (Zdigits2_bounds (Zpos m) ltac:(lia)) as Bm.
  rewrite N in Bm. change (2 ^ (53 - 1)) with (2 ^ 52) in Bm.
  repeat split; try lia; assumption.
Qed.

(** The mantissa of a normal float has 53 bits. *)
Lemma normal_mantissa (m : positive) (e : Z) :
  bounded 53 1024 m e = true -> -1074 < e -> 2 ^ 52 <= Zpos m < 2 ^ 53.
Proof.
  intros B L. destruct (bounded_facts _ _ B) as (_ & _ & N & _).
  specialize (N L).
  pose proof (Zdigits2_bounds (Zpos m) ltac:(lia)) as Bm.
  rewrite N in Bm. exact Bm.
Qed.

(** A value within half a unit in the last place of [M], the unit being at
    most [M / 2 ^ 52]. *)
Lemma relative_error (M P u : Z) :
  - u <= 2 * (P - M) <= u -> 2 ^ 52 * u <= M ->
  (2 ^ 53 - 1) * M <= 2 ^ 53 * P <= (2 ^ 53 + 1) * M.
Proof. intros B U. lia. Qed.

(** The quotient of two small integers is a normal float within half a unit
    in the last place of the exact quotient. *)
Lemma SFdiv_of_Z_near (a c : Z) :
  0 < a < 2 ^ 53 -> 0 < c < 2 ^ 53 ->
  exists m e,
    Double.div (Double.of_Z a) (Double.of_Z c) = S754_finite false m e
    /\ bounded 53 1024 m e = true /\ -200 <= e <= 200
    /\ (2 ^ 53 - 1) * (a * 2 ^ 1074) <= 2 ^ 53 * (c * units m e)
       <= (2 ^ 53 + 1) * (a * 2 ^ 1074).
Proof.
  intros Ha Hc.
  destruct (of_Z_spec a Ha) as (m1 & e1 & -> & B1 & U1).
  destruct (of_Z_spec c Hc) as (m2 & e2 & -> & B2 & U2).
  destruct (of_Z_shape a m1 e1 Ha B1 U1) as (X1 & M1 & R1).
  destruct (of_Z_shape c m2 e2 Hc B2 U2) as (X2 & M2 & R2).
  clear U1 U2.
  unfold Double.div, Double.prec, Double.emax. cbn [SFdiv xorb].
  pose proof (SFdiv_core_location m1 m2 e1 e2) as Eq. cbv zeta in Eq. rewrite Eq.
  destruct (div_precondition m1 m2 e1 e2) as [Hq Pre]. cbv zeta in Hq, Pre.
  clear Eq.
  assert (D1 : Zdigits2 (Zpos m1) = 53) by (apply Zdigits2_unique; lia).
  assert (D2 : Zdigits2 (Zpos m2) = 53) by (apply Zdigits2_unique; lia).
  rewrite D1, D2 in *.
  set (e' := Z.min (fexp 53 1024 (53 + e1 - (53 + e2))) (e1 - e2)) in *.
  assert (Ee' : e' = e1 - e2 - 53) by (unfold e'; rewrite fexp_max; lia).
  clearbody e'.
  replace (e1 - e2 - e') with 53 in * by lia.
  set (X := Zpos m1 * 2 ^ 53) in *.
  assert (HX : 2 ^ 105 <= X < 2 ^ 106) by (unfold X; lia).
  pose proof (Z.div_mod X (Zpos m2) ltac:(lia)) as Q1.
  pose proof (Z.mod_pos_bound X (Zpos m2) ltac:(lia)) as Q2.
  set (q := X / Zpos m2) in *. set (rem := X mod Zpos m2) in *.
  assert (Bq : 2 ^ 52 <= q < 2 ^ 54).
  { split.
    - apply Z.div_le_lower_bound; lia.
    - apply Z.div_lt_upper_bound; lia. }
  destruct (new_location_encodes (Zpos m2) rem q Q2) as (r & s & Rl & En).
  destruct (binary_round_aux_nearest false q e' _ r s rem (Zpos m2) Hq Pre Rl En)
    as (m' & Near & R).
  cbv zeta in Near, R. clear Pre Rl En.
  (* the shift is by no bit or by one *)
  assert (K : exists k, (k = 0 \/ k = 1) /\ Zdigits2 q = 53 + k).
  { destruct (Z.lt_ge_cases q (2 ^ 53)) as [S | S].
    - exists 0. split; [now left |]. apply Zdigits2_unique; lia.
    - exists 1. split; [now right |]. apply Zdigits2_unique; lia. }
  destruct K as (k & Hk & Dq). rewrite Dq, fexp_max in *.
  replace (Z.max (53 + k + e' - 53) (-1074)) with (e' + k) in * by lia.
  replace (e' + k - e') with k in * by lia.
  assert (Lq : 2 ^ 52 * 2 ^ k <= q).
  { destruct Hk as [-> | ->]; [lia |].
    pose proof (Zdigits2_bounds q ltac:(lia)) as [L _]. rewrite Dq in L.
    change (2 ^ (53 + 1 - 1)) with (2 ^ 52 * 2 ^ 1) in L. exact L. }
  replace (q * Zpos m2 + rem) with X in Near by lia.
  assert (Hu : 0 < Zpos m2 * 2 ^ k
               /\ 2 ^ 52 * (Zpos m2 * 2 ^ k) <= X < 2 ^ 54 * (Zpos m2 * 2 ^ k)).
  { clear - Hk Lq Q1 Q2 Bq R2. clearbody q rem X.
    destruct Hk as [-> | ->];
      [change (2 ^ 0) with 1 in * | change (2 ^ 1) with 2 in *]; nia. }
  set (u := Zpos m2 * 2 ^ k) in *.
  assert (Bm : 0 < m' < 2 ^ 55).
  { clear - Near Hu. clearbody u X. nia. }
  destruct R as [[Z0' _] | [(_ & m & e & -> & B & Le & V) | (_ & _ & Ovf)]];
    [lia | | exfalso].
  - exists m, e. split; [reflexivity |]. split; [assumption |].
    assert (De : e - (e' + k) < 55).
    { apply (Z.pow_lt_mono_r_iff 2); [lia | lia |].
      apply Z.le_lt_trans with m'; [| lia]. rewrite <- V.
      pose proof (Pos2Z.is_pos m) as Pz.
      pose proof (pow2_pos (e - (e' + k)) ltac:(lia)) as Pp.
      clear - Pz Pp. nia. }
    split; [lia |].
    destruct (rounds_to_finite false false m' (e' + k) m e ltac:(lia)) as (_ & _ & Um').
    { right. left. split; [lia |]. exists m, e. now repeat split. }
    (* both sides in units of [2 ^ (e1 + 1021)] *)
    set (G := 2 ^ (e1 + 1021)).
    assert (PG : 0 < G) by (apply pow2_pos; lia).
    assert (EX : a * 2 ^ 1074 = X * G).
    { unfold X, G. rewrite M1, <- !Z.mul_assoc, <- !Z.pow_add_r by lia.
      do 2 f_equal. lia. }
    assert (EP : c * units m e = m' * u * G).
    { unfold G, u. rewrite Um', M2.
      replace (e' + k + 1074) with (k + (- e2 + (e1 + 1021))) by lia.
      rewrite !Z.pow_add_r by lia. ring. }
    rewrite EX, EP. clear EX EP Um'.
    pose proof (relative_error X (m' * u) u Near (proj1 (proj2 Hu))) as Rel.
    set (P := m' * u) in *. clearbody P. clearbody X.
    clearbody G. clear - Rel PG. nia.
  - pose proof (Zdigits2_below m' 55 ltac:(lia) ltac:(lia) ltac:(lia)). lia.
Qed.

(** The product of a small integer and a normal float is a float within
    half a unit in the last place of the exact product. *)
Lemma SFmul_of_Z_near (b : Z) (m : positive) (e : Z) :
  0 < b < 2 ^ 53 -> bounded 53 1024 m e = true -> -200 <= e <= 200 ->
  exists m2 e2,
    Double.mul (Double.of_Z b) (S754_finite false m e) = S754_finite false m2 e2
    /\ bounded 53 1024 m2 e2 = true
    /\ (2 ^ 53 - 1) * (b * units m e) <= 2 ^ 53 * units m2 e2
       <= (2 ^ 53 + 1) * (b * units m e).
Proof.
  intros Hb B He.
  destruct (of_Z_spec b Hb) as (mb & eb & -> & Bb & Ub).
  destruct (of_Z_shape b mb eb Hb Bb Ub) as (Xb & Mb & Rb). clear Ub.
  pose proof (normal_mantissa m e B ltac:(lia)) as Rm.
  unfold Double.mul, Double.prec, Double.emax. cbn [SFmul xorb].
  pose proof (mul_precondition mb m eb e Bb B) as Pre.
  assert (En : encodes false false 0 1) by (split; [lia | reflexivity]).
  destruct (binary_round_aux_nearest false (Zpos (mb * m)) (eb + e) loc_Exact
              false false 0 1 ltac:(lia) Pre eq_refl En) as (m' & Near & R).
  cbv zeta in Near, R. clear Pre En.
  rewrite Pos2Z.inj_mul, Z.mul_1_l, Z.mul_1_r, Z.add_0_r in *.
  set (M := Zpos mb * Zpos m) in *.
  assert (HM : 2 ^ 104 <= M < 2 ^ 106) by (unfold M; nia).
  assert (K : exists k, (k = 52 \/ k = 53) /\ Zdigits2 M = 53 + k).
  { destruct (Z.lt_ge_cases M (2 ^ 105)) as [S | S].
    - exists 52. split; [now left |]. apply Zdigits2_unique; lia.
    - exists 53. split; [now right |]. apply Zdigits2_unique; lia. }
  destruct K as (k & Hk & DM). rewrite DM, fexp_max in *.
  replace (Z.max (53 + k + (eb + e) - 53) (-1074)) with (eb + e + k) in * by lia.
  replace (eb + e + k - (eb + e)) with k in * by lia.
  assert (LM : 2 ^ 52 * 2 ^ k <= M).
  { pose proof (Zdigits2_bounds M ltac:(lia)) as [L _]. rewrite DM in L.
    replace (53 + k - 1) with (52 + k) in L by lia.
    rewrite Z.pow_add_r in L by lia. exact L. }
  assert (Bm' : 0 < m' < 2 ^ 55).
  { clear - Hk Near LM HM. clearbody M. destruct Hk as [-> | ->]; lia. }
  destruct R as [[Z0' _] | [(_ & m2 & e2 & -> & B2 & Le & V) | (_ & _ & Ovf)]];
    [lia | | exfalso].
  - exists m2, e2. split; [reflexivity |]. split; [assumption |].
    destruct (rounds_to_finite false false m' (eb + e + k) m2 e2 ltac:(lia))
      as (_ & _ & Um').
    { right. left. split; [lia |]. exists m2, e2. now repeat split. }
    set (G := 2 ^ (eb + e + 1074)).
    assert (PG : 0 < G) by (apply pow2_pos; lia).
    assert (EX : b * units m e = M * G).
    { unfold M, G, units. rewrite Mb.
      replace (e + 1074) with (- eb + (eb + e + 1074)) at 1 by lia.
      rewrite Z.pow_add_r by lia. ring. }
    assert (EP : units m2 e2 = m' * 2 ^ k * G).
    { rewrite Um'. unfold G.
      replace (eb + e + k + 1074) with (k + (eb + e + 1074)) by lia.
      rewrite Z.pow_add_r by lia. ring. }
    rewrite EX, EP. clear EX EP Um'.
    pose proof (relative_error M (m' * 2 ^ k) (2 ^ k) Near LM) as Rel.
    set (P := m' * 2 ^ k) in *. clearbody P. clearbody M.
    clearbody G. clear - Rel PG. nia.
  - pose proof (Zdigits2_below m' 55 ltac:(lia) ltac:(lia) ltac:(lia)). lia.
Qed.

(** [Math.min] of two positive floats is the one of smaller value, the first
    when they are equal. *)
Lemma Math_min_finite (m1 m2 : positive) (e1 e2 : Z) :
  bounded 53 1024 m1 e1 = true -> bounded 53 1024 m2 e2 = true ->
  (Double.ltb (S754_finite false m2 e2) (S754_finite false m1 e1) = false
   /\ Double.Math_min (S754_finite false m1 e1) (S754_finite false m2 e2)
      = S754_finite false m1 e1
   /\ units m1 e1 <= units m2 e2)
  \/ (Double.ltb (S754_finite false m2 e2) (S754_finite false m1 e1) = true
      /\ Double.Math_min (S754_finite false m1 e1) (S754_finite false m2 e2)
         = S754_finite false m2 e2
      /\ units m2 e2 <= units m1 e1).
Proof.
  intros B1 B2. unfold Double.Math_min, Double.ltb, SFltb.
  rewrite SFcompare_units by assumption.
  destruct (Z.compare_spec (units m2 e2) (units m1 e1)) as [E | L | G].
  - left. repeat split. rewrite E. apply Z.le_refl.
  - right. repeat split. now apply Z.lt_le_incl.
  - left. repeat split. now apply Z.lt_le_incl.
Qed.

(** Two roundings of half a unit in the last place each leave a value
    within half a pixel of a target below [2 ^ 51]: [K] is the value of
    one. *)
Lemma two_roundings_exact (t P V K : Z) :
  0 < K -> 0 < t < 2 ^ 51 ->
  (2 ^ 53 - 1) * (t * K) <= 2 ^ 53 * P <= (2 ^ 53 + 1) * (t * K) ->
  (2 ^ 53 - 1) * P <= 2 ^ 53 * V <= (2 ^ 53 + 1) * P ->
  (2 * t - 1) * K <= 2 * V < (2 * t + 1) * K.
Proof.
  intros HK Ht HP HV.
  assert (A : K <= t * K <= (2 ^ 51 - 1) * K) by nia.
  replace ((2 * t - 1) * K) with (2 * (t * K) - K) by ring.
  replace ((2 * t + 1) * K) with (2 * (t * K) + K) by ring.
  set (a := t * K) in *. clearbody a. lia.
Qed.

Lemma two_roundings_below (t P V K : Z) :
  0 < K -> 0 < t < 2 ^ 51 ->
  2 ^ 53 * P <= (2 ^ 53 + 1) * (t * K) ->
  2 ^ 53 * V <= (2 ^ 53 + 1) * P ->
  2 * V < (2 * t + 1) * K.
Proof.
  intros HK Ht HP HV.
  assert (A : K <= t * K <= (2 ^ 51 - 1) * K) by nia.
  replace ((2 * t + 1) * K) with (2 * (t * K) + K) by ring.
  set (a := t * K) in *. clearbody a. lia.
Qed.

(** Rounding half up, on a value [U] in units of [K]. *)
Lemma half_up_units (U K t : Z) :
  0 < K -> 0 <= U -> 2 * U < (2 * t + 1) * K ->
  let j := (2 * U + K) / (2 * K) in
  0 <= j <= t /\ (2 * j - 1) * K <= 2 * U < (2 * j + 1) * K.
Proof.
  intros HK HU B j.
  pose proof (Z.div_mod (2 * U + K) (2 * K) ltac:(lia)) as D.
  pose proof (Z.mod_pos_bound (2 * U + K) (2 * K) ltac:(lia)) as R.
  fold j in D. assert (Hj : 0 <= j) by (apply Z.div_pos; lia).
  set (r := (2 * U + K) mod (2 * K)) in *. clearbody r. clearbody j.
  assert (j <= t) by nia.
  repeat split; nia.
Qed.

(** [Math.round] of a positive float below [t + 1/2] is an integer up to
    [t]. *)
Lemma Math_round_whole (m : positive) (e t : Z) :
  bounded 53 1024 m e = true -> 0 < t < 2 ^ 51 ->
  2 * units m e < (2 * t + 1) * 2 ^ 1074 ->
  exists j, 0 <= j <= t
    /\ Double.Math_round (S754_finite false m e) = Double.of_Z j.
Proof.
  intros B Ht U.
  destruct (bounded_facts _ _ B) as (R & _).
  pose proof (units_pos m e ltac:(lia)) as PU.
  destruct (half_up_units (units m e) (2 ^ 1074) t
              ltac:(now apply pow2_pos) ltac:(now apply Z.lt_le_incl) U)
    as [Bj Hj].
  exists ((2 * units m e + 2 ^ 1074) / (2 * 2 ^ 1074)).
  split; [exact Bj |].
  apply Math_round_of_units; [assumption | | exact Hj].
  split; [apply Bj |]. apply Z.le_lt_trans with t; [apply Bj | lia].
Qed.

(** The bounding-box arm of the resolver on doubles (lines 32-39): both
    sides come out as integers inside the box, and the side whose ratio
    [Math.min] returned meets its target. *)
Lemma fit_inside_box_double (ow oh tw th : Z) :
  0 < ow < 2 ^ 53 -> 0 < oh < 2 ^ 53 -> 0 < tw < 2 ^ 51 -> 0 < th < 2 ^ 51 ->
  let widthRatio := Double.div (Double.of_Z tw) (Double.of_Z ow) in
  let heightRatio := Double.div (Double.of_Z th) (Double.of_Z oh) in
  let ratio := Double.Math_min widthRatio heightRatio in
  exists w h : Z,
    Double.Math_round (Double.mul (Double.of_Z ow) ratio) = Double.of_Z w
    /\ Double.Math_round (Double.mul (Double.of_Z oh) ratio) = Double.of_Z h
    /\ 0 <= w <= tw /\ 0 <= h <= th
    /\ (Double.ltb heightRatio widthRatio = false -> w = tw)
    /\ (Double.ltb heightRatio widthRatio = true -> h = th).
Proof.
  intros How Hoh Htw Hth widthRatio heightRatio ratio.
  destruct (SFdiv_of_Z_near tw ow ltac:(lia) How) as (mw & ew & Ew & Bw & Rw & Nw).
  destruct (SFdiv_of_Z_near th oh ltac:(lia) Hoh) as (mh & eh & Eh & Bh & Rh & Nh).
  subst ratio widthRatio heightRatio. rewrite Ew, Eh.
  assert (PK : 0 < 2 ^ 1074) by (now apply pow2_pos).
  destruct (Math_min_finite mw mh ew eh Bw Bh) as [(L & -> & Le) | (L & -> & Le)];
    rewrite L.
  - (* the width ratio is the smaller one *)
    destruct (SFmul_of_Z_near ow mw ew How Bw Rw) as (m3 & e3 & -> & B3 & N3).
    destruct (SFmul_of_Z_near oh mw ew Hoh Bw Rw) as (m4 & e4 & -> & B4 & N4).
    pose proof (two_roundings_exact tw _ _ _ PK Htw Nw N3) as Xw.
    assert (Le' : oh * units mw ew <= oh * units mh eh)
      by (apply Z.mul_le_mono_nonneg_l; lia).
    assert (Nh' : 2 ^ 53 * (oh * units mw ew) <= (2 ^ 53 + 1) * (th * 2 ^ 1074)).
    { apply Z.le_trans with (2 ^ 53 * (oh * units mh eh)); [| apply Nh].
      apply Z.mul_le_mono_nonneg_l; [apply Z.pow_nonneg |]; lia. }
    pose proof (two_roundings_below th _ _ _ PK Hth Nh' (proj2 N4)) as Xh.
    destruct (Math_round_whole m4 e4 th B4 ltac:(lia) Xh) as (h & Bh' & ->).
    exists tw, h. split.
    { apply Math_round_of_units; [assumption | lia | exact Xw]. }
    split; [reflexivity |]. split; [lia |]. split; [exact Bh' |].
    split; [reflexivity | discriminate].
  - (* the height ratio is the smaller one *)
    destruct (SFmul_of_Z_near ow mh eh How Bh Rh) as (m3 & e3 & -> & B3 & N3).
    destruct (SFmul_of_Z_near oh mh eh Hoh Bh Rh) as (m4 & e4 & -> & B4 & N4).
    pose proof (two_roundings_exact th _ _ _ PK Hth Nh N4) as Xh.
    assert (Nw' : 2 ^ 53 * (ow * units mh eh) <= (2 ^ 53 + 1) * (tw * 2 ^ 1074)).
    { apply Z.le_trans with (2 ^ 53 * (ow * units mw ew)); [| apply Nw].
      apply Z.mul_le_mono_nonneg_l; [apply Z.pow_nonneg; lia |].
      apply Z.mul_le_mono_nonneg_l; lia. }
    pose proof (two_roundings_below tw _ _ _ PK Htw Nw' (proj2 N3)) as Xw.
    destruct (Math_round_whole m3 e3 tw B3 ltac:(lia) Xw) as (w & Bw' & ->).
    exists w, th. split; [reflexivity |]. split.
    { apply Math_round_of_units; [assumption | lia | exact Xh]. }
    split; [exact Bw' |]. split; [lia |].
    split; [discriminate | reflexivity].
Qed.

Set Implicit Arguments.
Local Close Scope Z_scope.

(** ** Arithmetic of [number] on integers *)

Local Open Scope Q_scope.

(** Reading the operations of [Exact.number] through the interface. *)
Ltac exact_ops :=
  cbn [mul div ltb strict_neq Math_round Math_min truthy exact_arithmetic] in *.

Lemma inject_Z_le (a b : Z) : inject_Z a <= inject_Z b <-> (a <= b)%Z.
Proof. unfold Qle; simpl; lia. Qed.

Lemma inject_Z_lt (a b : Z) : inject_Z a < inject_Z b <-> (a < b)%Z.
Proof. unfold Qlt; simpl; lia. Qed.

Lemma compare_inject_Z (a b : Z) : (inject_Z a ?= inject_Z b) = (a ?= b)%Z.
Proof. unfold Qcompare; simpl. now rewrite ?Z.mul_1_r. Qed.

Lemma round_half (z : Z) : Qfloor (inject_Z z + (1 # 2)) = z.
Proof.
  unfold Qfloor, Qplus, inject_Z; simpl.
  replace (z * 2 + 1)%Z with (1 + z * 2)%Z by lia.
  rewrite Z.div_add by lia. reflexivity.
Qed.

Lemma round_le (q : Q) (m : Z) : q <= inject_Z m -> (Qfloor (q + (1 # 2)) <= m)%Z.
Proof.
  intros H. rewrite <- (round_half m).
  apply Qfloor_resp_le, Qplus_le_compat; [assumption | apply Qle_refl].
Qed.

Lemma round_ge (q : Q) (m : Z) : inject_Z m <= q -> (m <= Qfloor (q + (1 # 2)))%Z.
Proof.
  intros H. rewrite <- (round_half m) at 1.
  apply Qfloor_resp_le, Qplus_le_compat; [assumption | apply Qle_refl].
Qed.

Lemma round_eq (q : Q) (m : Z) : q == inject_Z m -> Qfloor (q + (1 # 2)) = m.
Proof. intros H. rewrite H. apply round_half. Qed.

Lemma Math_round_of_Z (z : Z) : Math_round (of_Z z) = of_Z z.
Proof. exact_ops; unfold Exact.Math_round, of_Z. now rewrite round_half. Qed.

Lemma truthy_of_Z (z : Z) : truthy (of_Z z) = negb (z =? 0)%Z.
Proof.
  exact_ops; unfold Exact.truthy, of_Z. f_equal.
  destruct (Z.eqb_spec z 0) as [-> | N]; [reflexivity |].
  destruct (Qeq_bool (inject_Z z) 0) eqn:E; [| reflexivity].
  apply Qeq_bool_eq in E. unfold Qeq in E; simpl in E. lia.
Qed.

Lemma given_of_Z (z : Z) : (1 <= z)%Z -> given (Some (of_Z z)) = Some (of_Z z).
Proof.
  intros H. unfold given. rewrite truthy_of_Z.
  destruct (Z.eqb_spec z 0); [lia | reflexivity].
Qed.

Lemma ltb_of_Z (a b : Z) : ltb (of_Z a) (of_Z b) = (a <? b)%Z.
Proof.
  exact_ops; unfold Exact.ltb, of_Z. rewrite compare_inject_Z. unfold Z.ltb.
  destruct (a ?= b)%Z; reflexivity.
Qed.

Lemma div_of_Z (a b : Z) :
  (0 < b)%Z -> div (of_Z a) (of_Z b) = Fin (inject_Z a / inject_Z b).
Proof.
  intros H. exact_ops; unfold Exact.div, of_Z.
  change 0 with (inject_Z 0). rewrite compare_inject_Z.
  destruct (Z.compare_spec b 0); try lia; reflexivity.
Qed.

Lemma div_fin_of_Z (q : Q) (b : Z) :
  (0 < b)%Z -> div (Fin q) (of_Z b) = Fin (q / inject_Z b).
Proof.
  intros H. exact_ops; unfold Exact.div, of_Z.
  change 0 with (inject_Z 0) at 1. rewrite compare_inject_Z.
  destruct (Z.compare_spec b 0); try lia; reflexivity.
Qed.

Lemma inject_Z_nonzero (b : Z) : (0 < b)%Z -> ~ inject_Z b == 0.
Proof. intros H E. unfold Qeq in E; simpl in E. lia. Qed.

Lemma inject_Z_pos (b : Z) : (0 < b)%Z -> 0 < inject_Z b.
Proof. intros H. change 0 with (inject_Z 0). now apply inject_Z_lt. Qed.

Lemma inject_Z_nonneg (b : Z) : (0 <= b)%Z -> 0 <= inject_Z b.
Proof. intros H. change 0 with (inject_Z 0). now apply inject_Z_le. Qed.

Lemma Qdiv_nonneg (x y : Q) : 0 <= x -> 0 < y -> 0 <= x / y.
Proof. intros Hx Hy. apply Qle_shift_div_l; [assumption |]. now rewrite Qmult_0_l. Qed.

Lemma Qdiv_pos (x y : Q) : 0 < x -> 0 < y -> 0 < x / y.
Proof. intros Hx Hy. apply Qlt_shift_div_l; [assumption |]. now rewrite Qmult_0_l. Qed.

Lemma Qdiv_le_1 (x y : Q) : 0 < y -> x <= y -> x / y <= 1.
Proof. intros Hy H. apply Qle_shift_div_r; [assumption |]. now rewrite Qmult_1_l. Qed.

Lemma Qmult_shrink (a s : Q) : 0 <= a -> s <= 1 -> a * s <= a.
Proof.
  intros Ha Hs. rewrite <- (Qmult_1_r a) at 2.
  rewrite (Qmult_comm a s), (Qmult_comm a 1).
  now apply Qmult_le_compat_r.
Qed.

Lemma Qmult_nonneg (a s : Q) : 0 <= a -> 0 <= s -> 0 <= a * s.
Proof. intros. now apply Qmult_le_0_compat. Qed.

Lemma compare_pos (q : Q) : 0 < q -> (q ?= 0) = Gt.
Proof. intros H. now apply Qgt_alt. Qed.

Lemma mul_of_Z_inf (h : Z) : (0 < h)%Z -> mul (of_Z h) PosInf = PosInf.
Proof.
  intros H. exact_ops; unfold Exact.mul, of_Z.
  now rewrite compare_pos by now apply inject_Z_pos.
Qed.

Lemma mul_inf_fin (q : Q) : 0 < q -> mul PosInf (Fin q) = PosInf.
Proof. intros H. exact_ops; unfold Exact.mul. now rewrite compare_pos. Qed.

Lemma div_by_zero (m : Z) : (0 < m)%Z -> div (of_Z m) (of_Z 0) = PosInf.
Proof.
  intros H. exact_ops; unfold Exact.div, of_Z.
  change (inject_Z 0 ?= 0) with Eq. cbv iota.
  now rewrite compare_pos by now apply inject_Z_pos.
Qed.

Lemma div_inf_of_Z (m : Z) : (0 < m)%Z -> div PosInf (of_Z m) = PosInf.
Proof.
  intros H. exact_ops; unfold Exact.div, of_Z.
  now rewrite compare_pos by now apply inject_Z_pos.
Qed.

(** [Math.round] of a non-negative integer times a non-negative ratio. *)
Lemma round_scaled (a : Z) (s : Q) :
  (0 <= a)%Z -> 0 <= s ->
  exists z : Z, Math_round (mul (of_Z a) (Fin s)) = of_Z z /\ (0 <= z)%Z
                /\ (s <= 1 -> (z <= a)%Z).
Proof.
  intros Ha Hs. exists (Qfloor (inject_Z a * s + (1 # 2))).
  split; [reflexivity |]. split.
  - apply round_ge, Qmult_nonneg; [now apply inject_Z_nonneg | assumption].
  - intros H1.
    apply round_le, Qmult_shrink; [now apply inject_Z_nonneg | assumption].
Qed.

(** [Math.round ((a * b) / c)] on integers. *)
Lemma round_quotient (a b c : Z) :
  (0 <= a)%Z -> (0 <= b)%Z -> (0 < c)%Z ->
  exists z : Z, Math_round (div (mul (of_Z a) (of_Z b)) (of_Z c)) = of_Z z
                /\ (0 <= z)%Z.
Proof.
  intros Ha Hb Hc. exact_ops; unfold Exact.mul, of_Z at 1 2.
  rewrite div_fin_of_Z by assumption.
  eexists. split; [reflexivity |].
  apply round_ge, Qdiv_nonneg; [| now apply inject_Z_pos].
  apply Qmult_nonneg; now apply inject_Z_nonneg.
Qed.

Lemma round_cancel_nonzero (a b : Z) :
  b <> 0%Z -> Math_round (div (mul (of_Z a) (of_Z b)) (of_Z b)) = of_Z a.
Proof.
  intros Hb.
  assert (N : ~ inject_Z b == 0) by (intros E; unfold Qeq in E; simpl in E; lia).
  exact_ops; unfold Exact.mul, Exact.div, of_Z.
  destruct (Qcompare_spec (inject_Z b) 0) as [E | _ | _]; [contradiction | |];
    exact_ops; unfold Exact.Math_round, of_Z; f_equal; f_equal;
    apply round_eq; now apply Qdiv_mult_l.
Qed.

Lemma round_cancel (a b : Z) :
  (0 < b)%Z -> Math_round (div (mul (of_Z a) (of_Z b)) (of_Z b)) = of_Z a.
Proof. intros Hb. apply round_cancel_nonzero. lia. Qed.

Lemma Qdiv_compare_cross (a b c d : Z) :
  (0 < b)%Z -> (0 < d)%Z ->
  (inject_Z a / inject_Z b ?= inject_Z c / inject_Z d) = (a * d ?= c * b)%Z.
Proof.
  intros Hb Hd. destruct b as [|b|b]; try lia. destruct d as [|d|d]; try lia.
  unfold Qcompare, Qdiv, Qmult, Qinv, inject_Z. simpl.
  now rewrite !Z.mul_1_r.
Qed.

Lemma inject_Z_div_pos (a b : Z) :
  (0 < a)%Z -> (0 < b)%Z -> 0 < inject_Z a / inject_Z b.
Proof. intros. apply Qdiv_pos; now apply inject_Z_pos. Qed.

Lemma given_positive (o : option Z) :
  positiveIfSet o = true -> given (option_map of_Z o) = option_map of_Z o.
Proof.
  destruct o as [z|]; simpl; [| reflexivity].
  intros H. apply Z.leb_le in H. now apply given_of_Z.
Qed.

Lemma wellFormed_spec (ow oh : Z) (c : ConstraintSet.t) :
  wellFormed ow oh c = true ->
  (1 <= ow)%Z /\ (1 <= oh)%Z
  /\ positiveIfSet (ConstraintSet.targetWidth c) = true
  /\ positiveIfSet (ConstraintSet.targetHeight c) = true
  /\ positiveIfSet (ConstraintSet.minWidth c) = true
  /\ positiveIfSet (ConstraintSet.minHeight c) = true
  /\ positiveIfSet (ConstraintSet.maxWidth c) = true
  /\ positiveIfSet (ConstraintSet.maxHeight c) = true.
Proof.
  unfold wellFormed. intros H.
  repeat (apply andb_prop in H; destruct H as [H ?]).
  repeat split; try assumption; now apply Z.leb_le.
Qed.

(** ** The stages of the resolver *)

Lemma round_mul_fin (a : Z) (q : Q) :
  Math_round (mul (of_Z a) (Fin q)) = of_Z (Qfloor (inject_Z a * q + (1 # 2))).
Proof. reflexivity. Qed.

(** Both targets given: the box is respected and the side with the smaller
    ratio is hit exactly. *)
Lemma fit_inside_box (ow oh tw th : Z) :
  (1 <= ow)%Z -> (1 <= oh)%Z -> (1 <= tw)%Z -> (1 <= th)%Z ->
  let ratio := Math_min (div (of_Z tw) (of_Z ow)) (div (of_Z th) (of_Z oh)) in
  exists w h : Z,
    Math_round (mul (of_Z ow) ratio) = of_Z w
    /\ Math_round (mul (of_Z oh) ratio) = of_Z h
    /\ (0 <= w <= tw)%Z /\ (0 <= h <= th)%Z
    /\ (tw * oh <= th * ow -> w = tw)%Z
    /\ (th * ow <= tw * oh -> h = th)%Z.
Proof.
  intros How Hoh Htw Hth ratio. subst ratio.
  rewrite !div_of_Z by lia. exact_ops; unfold Exact.Math_min, Exact.ltb.
  rewrite Qdiv_compare_cross by lia.
  assert (Pw : 0 <= inject_Z ow) by (apply inject_Z_nonneg; lia).
  assert (Ph : 0 <= inject_Z oh) by (apply inject_Z_nonneg; lia).
  assert (Nw : ~ inject_Z ow == 0) by (apply inject_Z_nonzero; lia).
  assert (Nh : ~ inject_Z oh == 0) by (apply inject_Z_nonzero; lia).
  assert (Rw : 0 <= inject_Z tw / inject_Z ow)
    by (apply Qlt_le_weak, inject_Z_div_pos; lia).
  assert (Rh : 0 <= inject_Z th / inject_Z oh)
    by (apply Qlt_le_weak, inject_Z_div_pos; lia).
  destruct (Z.compare_spec (th * ow) (tw * oh)) as [E | L | G].
  - (* equal ratios: the width ratio is kept, and both sides are exact *)
    exists tw, th. rewrite !round_mul_fin.
    assert (Q : inject_Z th / inject_Z oh == inject_Z tw / inject_Z ow).
    { apply Qeq_alt. rewrite Qdiv_compare_cross by lia. now apply Z.compare_eq_iff. }
    repeat split; try lia.
    + f_equal. apply round_eq. now apply Qmult_div_r.
    + f_equal. apply round_eq. rewrite <- Q. now apply Qmult_div_r.
  - (* the height ratio is the smaller one *)
    assert (Q : inject_Z th / inject_Z oh <= inject_Z tw / inject_Z ow).
    { apply Qle_alt. rewrite Qdiv_compare_cross by lia.
      intros C. apply Z.compare_gt_iff in C. lia. }
    exists (Qfloor (inject_Z ow * (inject_Z th / inject_Z oh) + (1 # 2))), th.
    rewrite !round_mul_fin.
    repeat split; try lia.
    + f_equal. apply round_eq. now apply Qmult_div_r.
    + apply round_ge. now apply Qmult_nonneg.
    + apply round_le.
      apply Qle_trans with (inject_Z ow * (inject_Z tw / inject_Z ow)).
      * rewrite !(Qmult_comm (inject_Z ow)). now apply Qmult_le_compat_r.
      * rewrite Qmult_div_r by assumption. apply Qle_refl.
  - (* the width ratio is the smaller one *)
    assert (Q : inject_Z tw / inject_Z ow <= inject_Z th / inject_Z oh).
    { apply Qle_alt. rewrite Qdiv_compare_cross by lia.
      intros C. apply Z.compare_gt_iff in C. lia. }
    exists tw, (Qfloor (inject_Z oh * (inject_Z tw / inject_Z ow) + (1 # 2))).
    rewrite !round_mul_fin.
    repeat split; try lia.
    + f_equal. apply round_eq. now apply Qmult_div_r.
    + apply round_ge. now apply Qmult_nonneg.
    + apply round_le.
      apply Qle_trans with (inject_Z oh * (inject_Z th / inject_Z oh)).
      * rewrite !(Qmult_comm (inject_Z oh)). now apply Qmult_le_compat_r.
      * rewrite Qmult_div_r by assumption. apply Qle_refl.
Qed.

Lemma ltb_inf_l (x : number) : ltb PosInf x = false.
Proof. now destruct x. Qed.

Lemma ltb_of_Z_inf (a : Z) : ltb (of_Z a) PosInf = true.
Proof. reflexivity. Qed.

Lemma mul_inf_of_Z (m : Z) : (0 < m)%Z -> mul PosInf (of_Z m) = PosInf.
Proof. intros H. apply mul_inf_fin. now apply inject_Z_pos. Qed.

Lemma div_of_Z_inf (m : Z) : div (of_Z m) PosInf = of_Z 0.
Proof. reflexivity. Qed.

Lemma round_times_zero (a : Z) : Math_round (mul (of_Z a) (of_Z 0)) = of_Z 0.
Proof.
  unfold of_Z at 2. rewrite round_mul_fin. f_equal. apply round_eq.
  now rewrite Qmult_0_r.
Qed.

Section Stages.
Variable options : ImageProcessingOptions number.
Variables ow oh : Z.

Lemma applyWidthHeight_reachable (tw th : option Z) :
  (1 <= ow)%Z -> (1 <= oh)%Z ->
  width options = option_map of_Z tw -> positiveIfSet tw = true ->
  height options = option_map of_Z th -> positiveIfSet th = true ->
  reachable (applyWidthHeight (of_Z ow) (of_Z oh) options (of_Z ow, of_Z oh)).
Proof.
  intros How Hoh Ew Pw Eh Ph. unfold applyWidthHeight.
  rewrite Ew, Eh, !given_positive by assumption.
  destruct tw as [w|], th as [h|]; cbn [option_map positiveIfSet] in *;
    try apply Z.leb_le in Pw; try apply Z.leb_le in Ph.
  - destruct (@fit_inside_box ow oh w h) as (w' & h' & -> & -> & Bw & Bh & Cw & Ch);
      try assumption.
    apply reach_fin; lia.
  - destruct (@round_quotient oh w ow) as (z & -> & Hz); try lia.
    apply reach_fin; lia.
  - destruct (@round_quotient ow h oh) as (z & -> & Hz); try lia.
    apply reach_fin; lia.
  - apply reach_fin; lia.
Qed.

Lemma applyMinWidth_reachable (mw : option Z) (t : target) :
  minWidth options = option_map of_Z mw -> positiveIfSet mw = true ->
  reachable t -> reachable (applyMinWidth options t).
Proof.
  intros E P R. unfold applyMinWidth. destruct t as [tw th].
  rewrite E, given_positive by assumption.
  destruct mw as [m|]; cbn [option_map positiveIfSet] in *; [| assumption].
  apply Z.leb_le in P.
  inversion R as [w h Hw Hh Hp | w Hw | h Hh]; subst.
  - rewrite ltb_of_Z. destruct (Z.ltb_spec w m); [| assumption].
    destruct (flag (allowUpscale options)); cbv zeta.
    + destruct (Z.eq_dec w 0) as [-> | N].
      * rewrite div_by_zero, mul_of_Z_inf by lia. apply reach_inf_h; lia.
      * rewrite div_of_Z by lia.
        destruct (@round_scaled h (inject_Z m / inject_Z w)) as (z & -> & Hz & _);
          [lia | apply Qlt_le_weak, inject_Z_div_pos; lia |].
        apply reach_fin; lia.
    + rewrite round_cancel by lia. apply reach_fin; lia.
  - rewrite ltb_of_Z. destruct (Z.ltb_spec w m); [| assumption].
    destruct (flag (allowUpscale options)); cbv zeta.
    + rewrite div_of_Z, mul_inf_fin by (try apply inject_Z_div_pos; lia).
      apply reach_inf_h; lia.
    + rewrite mul_inf_of_Z, div_inf_of_Z by lia. apply reach_inf_h; lia.
  - rewrite ltb_inf_l. assumption.
Qed.

Lemma applyMinHeight_reachable (mh : option Z) (t : target) :
  minHeight options = option_map of_Z mh -> positiveIfSet mh = true ->
  reachable t -> reachable (applyMinHeight options t).
Proof.
  intros E P R. unfold applyMinHeight. destruct t as [tw th].
  rewrite E, given_positive by assumption.
  destruct mh as [m|]; cbn [option_map positiveIfSet] in *; [| assumption].
  apply Z.leb_le in P.
  inversion R as [w h Hw Hh Hp | w Hw | h Hh]; subst.
  - rewrite ltb_of_Z. destruct (Z.ltb_spec h m); [| assumption].
    destruct (flag (allowUpscale options)); cbv zeta.
    + destruct (Z.eq_dec h 0) as [-> | N].
      * rewrite div_by_zero, mul_of_Z_inf by lia. apply reach_inf_w; lia.
      * rewrite div_of_Z by lia.
        destruct (@round_scaled w (inject_Z m / inject_Z h)) as (z & -> & Hz & _);
          [lia | apply Qlt_le_weak, inject_Z_div_pos; lia |].
        apply reach_fin; lia.
    + rewrite round_cancel by lia. apply reach_fin; lia.
  - rewrite ltb_inf_l. assumption.
  - rewrite ltb_of_Z. destruct (Z.ltb_spec h m); [| assumption].
    destruct (flag (allowUpscale options)); cbv zeta.
    + rewrite div_of_Z, mul_inf_fin by (try apply inject_Z_div_pos; lia).
      apply reach_inf_w; lia.
    + rewrite mul_inf_of_Z, div_inf_of_Z by lia. apply reach_inf_w; lia.
Qed.

Lemma reachable_tame (t : target) : reachable t -> tame t.
Proof. intros [w h ? ? ? | w ? | h ?]; constructor; lia. Qed.

(** After the maximum-width stage the width is within [maxWidth]. *)
Lemma applyMaxWidth_within (mw : option Z) (t : target) :
  maxWidth options = option_map of_Z mw -> positiveIfSet mw = true ->
  tame t ->
  tame (applyMaxWidth options t)
  /\ forall m, mw = Some m -> atMost (fst (applyMaxWidth options t)) m.
Proof.
  intros E P R. unfold applyMaxWidth. destruct t as [tw th].
  rewrite E, given_positive by assumption.
  destruct mw as [m|]; cbn [option_map positiveIfSet] in *;
    [| split; [assumption | discriminate]].
  apply Z.leb_le in P.
  inversion R as [w h Hw Hh | w Hw | h Hh]; subst.
  - rewrite ltb_of_Z. destruct (Z.ltb_spec m w).
    + rewrite div_of_Z by lia.
      destruct (@round_scaled h (inject_Z m / inject_Z w)) as (z & -> & Hz & _);
        [lia | apply Qlt_le_weak, inject_Z_div_pos; lia |].
      split; [apply tame_fin; lia |].
      intros m' [= <-]. exists m. split; [reflexivity | lia].
    + split; [assumption |].
      intros m' [= <-]. exists w. split; [reflexivity | lia].
  - rewrite ltb_of_Z. destruct (Z.ltb_spec m w).
    + rewrite div_of_Z, mul_inf_fin by (try apply inject_Z_div_pos; lia).
      split; [apply tame_inf_h; lia |].
      intros m' [= <-]. exists m. split; [reflexivity | lia].
    + split; [assumption |].
      intros m' [= <-]. exists w. split; [reflexivity | lia].
  - rewrite ltb_of_Z_inf, div_of_Z_inf, round_times_zero.
    split; [apply tame_fin; lia |].
    intros m' [= <-]. exists m. split; [reflexivity | lia].
Qed.

(** The maximum-height stage brings the height within [maxHeight] and never
    takes the width above a bound it already met. *)
Lemma applyMaxHeight_within (mh : option Z) (t : target) :
  maxHeight options = option_map of_Z mh -> positiveIfSet mh = true ->
  tame t ->
  (forall m, mh = Some m -> atMost (snd (applyMaxHeight options t)) m)
  /\ forall b, atMost (fst t) b -> atMost (fst (applyMaxHeight options t)) b.
Proof.
  intros E P R. unfold applyMaxHeight. destruct t as [tw th].
  rewrite E, given_positive by assumption.
  destruct mh as [m|]; cbn [option_map positiveIfSet] in *;
    [| split; [discriminate | trivial]].
  apply Z.leb_le in P.
  inversion R as [w h Hw Hh | w Hw | h Hh]; subst.
  - rewrite ltb_of_Z. destruct (Z.ltb_spec m h).
    + rewrite div_of_Z by lia.
      destruct (@round_scaled w (inject_Z m / inject_Z h)) as (z & -> & Hz & Hle);
        [lia | apply Qlt_le_weak, inject_Z_div_pos; lia |].
      assert (z <= w)%Z.
      { apply Hle, Qdiv_le_1; [apply inject_Z_pos; lia | apply inject_Z_le; lia]. }
      split.
      * intros m' [= <-]. exists m. split; [reflexivity | lia].
      * intros b (w' & Ew & Bw). cbn [fst snd] in *.
        assert (w' = w) by (unfold of_Z in Ew; now injection Ew).
        subst w'. exists z. split; [reflexivity | lia].
    + split; [| trivial].
      intros m' [= <-]. exists h. split; [reflexivity | lia].
  - rewrite ltb_of_Z_inf, div_of_Z_inf, round_times_zero. split.
    + intros m' [= <-]. exists m. split; [reflexivity | lia].
    + intros b (w' & Ew & Bw). cbn [fst snd] in *. exists 0%Z. split; [reflexivity | lia].
  - split.
    + intros m' [= <-]. rewrite ltb_of_Z.
      destruct (Z.ltb_spec m h); simpl; [exists m | exists h];
        (split; [reflexivity | lia]).
    + intros b (w' & Ew & _). simpl in Ew. unfold of_Z in Ew.
      destruct (of_Z m <? of_Z h)%js; discriminate.
Qed.

End Stages.

(** ** The dimension resolver *)

(** *** What holds in every arithmetic, doubles included *)

Section AnyArithmetic.
Context {N : Type} {arith : Arithmetic N}.
Local Open Scope js_scope.

(** The no-upscale branch of the minimum-width stage: the height is divided
    by the value just assigned to the width. *)
Lemma applyMinWidth_no_upscale
    (options : ImageProcessingOptions N) (currentWidth currentHeight m : N) :
  given (minWidth options) = Some m ->
  (currentWidth <? m) = true ->
  flag (allowUpscale options) = false ->
  applyMinWidth options (currentWidth, currentHeight)
  = (m, Math_round ((currentHeight * m) / m)).
Proof. intros G L F. unfold applyMinWidth. now rewrite G, L, F. Qed.

(** The same branch of the minimum-height stage. *)
Lemma applyMinHeight_no_upscale
    (options : ImageProcessingOptions N) (currentWidth currentHeight m : N) :
  given (minHeight options) = Some m ->
  (currentHeight <? m) = true ->
  flag (allowUpscale options) = false ->
  applyMinHeight options (currentWidth, currentHeight)
  = (Math_round ((currentWidth * m) / m), m).
Proof. intros G L F. unfold applyMinHeight. now rewrite G, L, F. Qed.

(** Only [width] given and truthy. *)
Lemma only_width_given
    (originalWidth originalHeight w : N)
    (fmt : string) (q : option N) (up : option bool) :
  truthy w = true ->
  calculateTargetDimensions originalWidth originalHeight
    (mkOptions fmt (Some w) None None None None None q up)
  = Dimensions.mk w (Math_round ((originalHeight * w) / originalWidth)).
Proof.
  intros T. unfold calculateTargetDimensions, applyWidthHeight.
  cbn [width height given]. rewrite T. reflexivity.
Qed.

(** Only [height] given and truthy. *)
Lemma only_height_given
    (originalWidth originalHeight h : N)
    (fmt : string) (q : option N) (up : option bool) :
  truthy h = true ->
  calculateTargetDimensions originalWidth originalHeight
    (mkOptions fmt None (Some h) None None None None q up)
  = Dimensions.mk (Math_round ((originalWidth * h) / originalHeight)) h.
Proof.
  intros T. unfold calculateTargetDimensions, applyWidthHeight.
  cbn [width height given]. rewrite T. reflexivity.
Qed.

End AnyArithmetic.

(** *** The end-to-end scenarios of the specification, on doubles and in
    exact arithmetic *)

Example scenario1 :
  let c := ConstraintSet.mk (Some 500%Z) None None None None None false in
  resolveDouble 1000 500 c = Dimensions.mk (Double.of_Z 500) (Double.of_Z 250)
  /\ resolve 1000 500 c = Dimensions.mk (of_Z 500) (of_Z 250).
Proof. split; reflexivity. Qed.

Example scenario2 :
  let c := ConstraintSet.mk (Some 400%Z) (Some 400%Z) None None None None false in
  resolveDouble 800 600 c = Dimensions.mk (Double.of_Z 400) (Double.of_Z 300)
  /\ resolve 800 600 c = Dimensions.mk (of_Z 400) (of_Z 300).
Proof. split; reflexivity. Qed.

Example scenario3 :
  let c := ConstraintSet.mk None None (Some 200%Z) None None None true in
  resolveDouble 100 100 c = Dimensions.mk (Double.of_Z 200) (Double.of_Z 200)
  /\ resolve 100 100 c = Dimensions.mk (of_Z 200) (of_Z 200).
Proof. split; reflexivity. Qed.

(** *** The claims *)

Local Open Scope Z_scope.

(** C1. Minimum width with upscale disallowed, on doubles: when [minWidth]
    is set, the current width is below it and [allowUpscale] is off, the
    stage sets the width to [minWidth] and recomputes the height as
    [round (height * minWidth / minWidth)], the divisor being the width
    already overwritten.  For an integer height (with
    [height * minWidth < 2 ^ 51]) that is the height itself: the width
    changes and the height does not, so the aspect ratio is not kept, where
    dividing by the width before the assignment would have given
    [(2 * height * minWidth + width) / (2 * width)], which is more than the
    height as soon as [width <= 2 * height * (minWidth - width)]. *)
Theorem min_width_no_upscale_divides_by_new_width
    (options : ImageProcessingOptions Double.t)
    (currentWidth currentHeight m : Double.t) :
  given (minWidth options) = Some m ->
  (currentWidth <? m)%js = true ->
  flag (allowUpscale options) = false ->
  applyMinWidth options (currentWidth, currentHeight)
  = (m, Math_round ((currentHeight * m) / m)%js)
  /\ (forall h mz : Z,
        currentHeight = Double.of_Z h -> m = Double.of_Z mz ->
        1 <= h -> 1 <= mz -> h * mz < 2 ^ 51 ->
        applyMinWidth options (currentWidth, currentHeight) = (m, currentHeight)
        /\ (forall w : Z,
              currentWidth = Double.of_Z w -> 1 <= w < mz ->
              Math_round ((currentHeight * m) / currentWidth)%js
              = Double.of_Z ((2 * h * mz + w) / (2 * w))
              /\ (w <= 2 * h * (mz - w) -> h < (2 * h * mz + w) / (2 * w)))).
Proof.
  intros G L F.
  pose proof (applyMinWidth_no_upscale options currentWidth currentHeight G L F) as E.
  split; [exact E |].
  intros h mz -> -> Hh Hm P.
  assert (Bm : mz < 2 ^ 51) by nia.
  split.
  - rewrite E. f_equal. double_ops. rewrite round_ratio_double by lia.
    f_equal. symmetry. apply Z.div_unique with (r := mz); lia.
  - intros w -> Hw. double_ops. split.
    + now rewrite round_ratio_double by lia.
    + intros D. apply Z.lt_le_trans with (h + 1); [lia |].
      apply Z.div_le_lower_bound; lia.
Qed.

Lemma min_width_no_upscale_witness :
  let options : ImageProcessingOptions Double.t :=
    mkOptions "png" None None (Some (Double.of_Z 200)) None None None None None in
  applyMinWidth options (Double.of_Z 100, Double.of_Z 100)
  = (Double.of_Z 200,
     Math_round ((Double.of_Z 100 * Double.of_Z 200) / Double.of_Z 200)%js)
  /\ applyMinWidth options (Double.of_Z 100, Double.of_Z 100)
     = (Double.of_Z 200, Double.of_Z 100)
  /\ Math_round ((Double.of_Z 100 * Double.of_Z 200) / Double.of_Z 100)%js
     = Double.of_Z 200.
Proof.
  intros options.
  destruct (@min_width_no_upscale_divides_by_new_width
              options (Double.of_Z 100) (Double.of_Z 100) (Double.of_Z 200)
              eq_refl eq_refl eq_refl)
    as [E K].
  destruct (K 100 200 eq_refl eq_refl ltac:(lia) ltac:(lia) ltac:(lia)) as [S D].
  split; [exact E |]. split; [exact S |].
  exact (proj1 (D 100 eq_refl ltac:(lia))).
Defined.

Local Close Scope Z_scope.

(** The whole resolver on that path, on doubles and in exact arithmetic:
    100x100 with [minWidth = 200] and no upscale comes out 200x100, where
    dividing by the width before the assignment would have given 200x200. *)
Example min_width_no_upscale_drift :
  let c := ConstraintSet.mk None None (Some 200%Z) None None None false in
  resolveDouble 100 100 c = Dimensions.mk (Double.of_Z 200) (Double.of_Z 100)
  /\ resolve 100 100 c = Dimensions.mk (of_Z 200) (of_Z 100)
  /\ Math_round ((Double.of_Z 100 * Double.of_Z 200) / Double.of_Z 100)%js
     = Double.of_Z 200.
Proof. repeat split; reflexivity. Qed.

(** In exact arithmetic the resolved dimensions of a well-formed input are
    non-negative integers within the maximums. *)
Lemma max_constraints_exact
    (ow oh : Z) (c : ConstraintSet.t) (fmt : string) (q : option number) :
  wellFormed ow oh c = true ->
  let d := calculateTargetDimensions (of_Z ow) (of_Z oh)
             (optionsOf of_Z fmt q c) in
  (forall m, ConstraintSet.maxWidth c = Some m -> atMost (Dimensions.width d) m)
  /\ (forall m, ConstraintSet.maxHeight c = Some m -> atMost (Dimensions.height d) m).
Proof.
  intros WF d.
  destruct (wellFormed_spec _ _ _ WF) as (How & Hoh & Ptw & Pth & Pnw & Pnh & Pxw & Pxh).
  set (options := optionsOf of_Z fmt q c) in *.
  set (t1 := applyWidthHeight (of_Z ow) (of_Z oh) options (of_Z ow, of_Z oh)).
  set (t2 := applyMinWidth options t1).
  set (t3 := applyMinHeight options t2).
  set (t4 := applyMaxWidth options t3).
  assert (R1 : reachable t1)
    by (apply applyWidthHeight_reachable with (tw := ConstraintSet.targetWidth c)
          (th := ConstraintSet.targetHeight c); auto).
  assert (R2 : reachable t2)
    by (apply applyMinWidth_reachable with (mw := ConstraintSet.minWidth c); auto).
  assert (R3 : reachable t3)
    by (apply applyMinHeight_reachable with (mh := ConstraintSet.minHeight c); auto).
  destruct (@applyMaxWidth_within options (ConstraintSet.maxWidth c) t3
              eq_refl Pxw (reachable_tame R3)) as [B4 W4].
  destruct (@applyMaxHeight_within options (ConstraintSet.maxHeight c) t4
              eq_refl Pxh B4) as [H5 W5].
  split.
  - intros m Em. apply W5, W4, Em.
  - intros m Em. apply H5, Em.
Qed.

(** C2. Maximum constraints always hold: for well-formed original dimensions
    and Constraint Set (maximums below [2 ^ 53]), whatever [allowUpscale]
    is, the resolved width does not exceed [maxWidth] when that is set and
    the resolved height does not exceed [maxHeight] when that is set: on
    doubles [width > maxWidth] is false, and in exact arithmetic the width is
    an integer between 0 and [maxWidth]. *)
Theorem max_constraints_enforced
    (ow oh : Z) (c : ConstraintSet.t) (fmt : string) :
  wellFormed ow oh c = true ->
  (forall m, ConstraintSet.maxWidth c = Some m -> (m < 2 ^ 53)%Z) ->
  (forall m, ConstraintSet.maxHeight c = Some m -> (m < 2 ^ 53)%Z) ->
  let d := calculateTargetDimensions (Double.of_Z ow) (Double.of_Z oh)
             (optionsOf Double.of_Z fmt None c) in
  let x := calculateTargetDimensions (of_Z ow) (of_Z oh)
             (optionsOf of_Z fmt None c) in
  (forall m, ConstraintSet.maxWidth c = Some m ->
     (Dimensions.width d >? Double.of_Z m)%js = false
     /\ atMost (Dimensions.width x) m)
  /\ (forall m, ConstraintSet.maxHeight c = Some m ->
        (Dimensions.height d >? Double.of_Z m)%js = false
        /\ atMost (Dimensions.height x) m).
Proof.
  intros WF Rw Rh d x.
  destruct (wellFormed_spec _ _ _ WF) as (_ & _ & _ & _ & _ & _ & Pw & Ph).
  assert (Rw' : forall m, ConstraintSet.maxWidth c = Some m -> (0 < m < 2 ^ 53)%Z).
  { intros m E. specialize (Rw m E). rewrite E in Pw. cbn in Pw.
    apply Z.leb_le in Pw. lia. }
  assert (Rh' : forall m, ConstraintSet.maxHeight c = Some m -> (0 < m < 2 ^ 53)%Z).
  { intros m E. specialize (Rh m E). rewrite E in Ph. cbn in Ph.
    apply Z.leb_le in Ph. lia. }
  destruct (@max_constraints_on_doubles ow oh c fmt None Rw' Rh') as [Dw Dh].
  destruct (@max_constraints_exact ow oh c fmt None WF) as [Xw Xh].
  split; intros m E; split; auto.
Qed.

Lemma max_constraints_enforced_witness :
  let c := ConstraintSet.mk None None (Some 800%Z) (Some 600%Z)
             (Some 1920%Z) (Some 1080%Z) true in
  let d := calculateTargetDimensions (Double.of_Z 4000) (Double.of_Z 4000)
             (optionsOf Double.of_Z "jpeg" None c) in
  let x := calculateTargetDimensions (of_Z 4000) (of_Z 4000)
             (optionsOf of_Z "jpeg" None c) in
  wellFormed 4000 4000 c = true
  /\ ((Dimensions.width d >? Double.of_Z 1920)%js = false
      /\ atMost (Dimensions.width x) 1920)
  /\ ((Dimensions.height d >? Double.of_Z 1080)%js = false
      /\ atMost (Dimensions.height x) 1080).
Proof.
  intros c d x. split; [reflexivity |].
  assert (Rw : forall m, ConstraintSet.maxWidth c = Some m -> (m < 2 ^ 53)%Z)
    by (intros m [= <-]; reflexivity).
  assert (Rh : forall m, ConstraintSet.maxHeight c = Some m -> (m < 2 ^ 53)%Z)
    by (intros m [= <-]; reflexivity).
  destruct (@max_constraints_enforced 4000 4000 c "jpeg" eq_refl Rw Rh) as [W H].
  split; [apply W | apply H]; reflexivity.
Defined.

Local Open Scope Z_scope.

(** The bounding box is left when the targets pass [2 ^ 51]: a 131x131
    image fitted into a square of 2325018982038530 comes out one pixel
    wider and higher than the box, and a 3x3 image fitted into
    9007199254740991 x 9007199254740991 comes out 9007199254740992 wide and
    high, the product of the rounded ratio having rounded up. *)
Lemma both_targets_outside_box :
  resolveDouble 131 131
    (ConstraintSet.mk (Some 2325018982038530) (Some 2325018982038530)
       None None None None false)
  = Dimensions.mk (Double.of_Z 2325018982038531) (Double.of_Z 2325018982038531)
  /\ (Double.of_Z 2325018982038531 >? Double.of_Z 2325018982038530)%js = true
  /\ OnDoubles.fitsBox 131 131 2325018982038530 2325018982038530 = false
  /\ resolveDouble 3 3
       (ConstraintSet.mk (Some 9007199254740991) (Some 9007199254740991)
          None None None None false)
     = Dimensions.mk (Double.of_Z 9007199254740992)
         (Double.of_Z 9007199254740992)
  /\ (Double.of_Z 9007199254740992 >? Double.of_Z 9007199254740991)%js = true
  /\ OnDoubles.fitsBox 3 3 9007199254740991 9007199254740991 = false.
Proof. vm_compute. repeat split. Qed.

(** C3. Both targets set and no minimum or maximum, on doubles, for
    originals below [2 ^ 53] and targets below [2 ^ 51]: the resolved
    dimensions are integers that fit the box, [width <= targetWidth] and
    [height <= targetHeight], and the side whose ratio [Math.min] returned
    meets its bound exactly, so at least one of the two does. *)
Theorem both_targets_fit_box
    (ow oh tw th : Z) (fmt : string) (q : option Double.t) (up : option bool) :
  1 <= ow < 2 ^ 53 -> 1 <= oh < 2 ^ 53 ->
  1 <= tw < 2 ^ 51 -> 1 <= th < 2 ^ 51 ->
  let d := calculateTargetDimensions (Double.of_Z ow) (Double.of_Z oh)
             (mkOptions fmt (Some (Double.of_Z tw)) (Some (Double.of_Z th))
                None None None None q up) in
  let widthRatio := (Double.of_Z tw / Double.of_Z ow)%js in
  let heightRatio := (Double.of_Z th / Double.of_Z oh)%js in
  exists w h : Z,
    d = Dimensions.mk (Double.of_Z w) (Double.of_Z h)
    /\ 0 <= w <= tw /\ 0 <= h <= th
    /\ (w = tw \/ h = th)
    /\ ((heightRatio <? widthRatio)%js = false -> w = tw)
    /\ ((heightRatio <? widthRatio)%js = true -> h = th).
Proof.
  intros How Hoh Htw Hth d widthRatio heightRatio.
  destruct (fit_inside_box_double ow oh tw th
              ltac:(lia) ltac:(lia) ltac:(lia) ltac:(lia))
    as (w & h & Ew & Eh & Bw & Bh & Cw & Ch).
  exists w, h.
  split.
  { subst d. unfold calculateTargetDimensions, applyWidthHeight.
    cbn [width height minWidth minHeight maxWidth maxHeight].
    rewrite !given_of_Z_double by lia.
    unfold applyMinWidth, applyMinHeight, applyMaxWidth, applyMaxHeight.
    cbn [minWidth minHeight maxWidth maxHeight given fst snd].
    double_ops. now rewrite Ew, Eh. }
  split; [exact Bw |]. split; [exact Bh |].
  subst widthRatio heightRatio. double_ops.
  split; [| split; assumption].
  destruct (Double.ltb (Double.div (Double.of_Z th) (Double.of_Z oh))
              (Double.div (Double.of_Z tw) (Double.of_Z ow))).
  - right. now apply Ch.
  - left. now apply Cw.
Qed.

Lemma both_targets_fit_box_witness :
  exists w h : Z,
    calculateTargetDimensions (Double.of_Z 800) (Double.of_Z 600)
      (mkOptions "png" (Some (Double.of_Z 400)) (Some (Double.of_Z 400))
         None None None None None None)
    = Dimensions.mk (Double.of_Z w) (Double.of_Z h)
    /\ 0 <= w <= 400 /\ 0 <= h <= 400
    /\ (w = 400 \/ h = 400)
    /\ ((Double.of_Z 400 / Double.of_Z 600 <? Double.of_Z 400 / Double.of_Z 800)%js
        = false -> w = 400)
    /\ ((Double.of_Z 400 / Double.of_Z 600 <? Double.of_Z 400 / Double.of_Z 800)%js
        = true -> h = 400).
Proof.
  apply (@both_targets_fit_box 800 600 400 400 "png" None None); lia.
Defined.



Local Close Scope Z_scope.

(** C5. Maximum enforcement runs after minimum enforcement and the minimums
    are not checked again: there is a well-formed input with [minWidth] set
    whose resolved width is strictly below [minWidth].  Original 1000x1000
    with [minWidth = 500] and [maxHeight = 100] resolves to 100x100, on
    doubles as in exact arithmetic. *)
Theorem max_overrides_min (up : bool) :
  let c := ConstraintSet.mk None None (Some 500%Z) None None (Some 100%Z) up in
  resolveDouble 1000 1000 c = Dimensions.mk (Double.of_Z 100) (Double.of_Z 100)
  /\ resolve 1000 1000 c = Dimensions.mk (of_Z 100) (of_Z 100)
  /\ exists (ow oh : Z) (c' : ConstraintSet.t) (mw w : Z),
       wellFormed ow oh c' = true
       /\ ConstraintSet.minWidth c' = Some mw
       /\ Dimensions.width (resolve ow oh c') = of_Z w
       /\ Dimensions.width (resolveDouble ow oh c') = Double.of_Z w
       /\ (w < mw)%Z.
Proof.
  intros c. split; [now destruct up |]. split; [now destruct up |].
  exists 1000%Z, 1000%Z, c, 500%Z, 100%Z.
  repeat split; now destruct up.
Qed.

(** C6. With none of [targetWidth], [targetHeight], [minWidth], [minHeight],
    [maxWidth], [maxHeight] set the resolver returns the original dimensions
    unchanged, in every arithmetic. *)
Theorem no_constraints_identity
    (N : Type) (arith : Arithmetic N) (originalWidth originalHeight : N)
    (fmt : string) (q : option N) (up : option bool) :
  calculateTargetDimensions originalWidth originalHeight
    (mkOptions fmt None None None None None None q up)
  = Dimensions.mk originalWidth originalHeight.
Proof. reflexivity. Qed.

(** *** Doubles against exact arithmetic *)

(** The inputs of the witnesses above give the same dimensions on doubles. *)
Example doubles_agree_on_witnesses :
  resolveDouble 4000 4000
    (ConstraintSet.mk None None (Some 800%Z) (Some 600%Z)
       (Some 1920%Z) (Some 1080%Z) true)
  = Dimensions.mk (Double.of_Z 1080) (Double.of_Z 1080)
  /\ resolve 4000 4000
       (ConstraintSet.mk None None (Some 800%Z) (Some 600%Z)
          (Some 1920%Z) (Some 1080%Z) true)
     = Dimensions.mk (of_Z 1080) (of_Z 1080)
  /\ resolveDouble 1000 333
       (ConstraintSet.mk (Some 500%Z) None None None None None false)
     = Dimensions.mk (Double.of_Z 500) (Double.of_Z 167)
  /\ resolve 1000 333
       (ConstraintSet.mk (Some 500%Z) None None None None None false)
     = Dimensions.mk (of_Z 500) (of_Z 167).
Proof. repeat split; reflexivity. Qed.

(** On doubles the box is respected for every original up to 8x8 and box up
    to 5x5, and the maximums for a grid of well-formed Constraint Sets. *)
Example doubles_respect_box_and_maximums :
  OnDoubles.smallBoxes = true /\ OnDoubles.smallConstraintSets = true.
Proof. split; vm_compute; reflexivity. Qed.

(** Where they part: 98x49 fitted into a box of width 1.  The ratio [1/98]
    rounds down as a double, [49 * (1/98)] lands just under one half, and the
    height is 0 on doubles where exact arithmetic gives 1.  Both stay inside
    the box and hit the width exactly. *)
Example doubles_differ_at_a_tie :
  let c := ConstraintSet.mk (Some 1%Z) (Some 100000%Z) None None None None false in
  resolveDouble 98 49 c = Dimensions.mk (Double.of_Z 1) (Double.of_Z 0)
  /\ resolve 98 49 c = Dimensions.mk (of_Z 1) (of_Z 1).
Proof. split; reflexivity. Qed.

Local Close Scope Q_scope.

(** ** The format registry *)

Lemma lower_ascii_idempotent (c : ascii) :
  lower_ascii (lower_ascii c) = lower_ascii c.
Proof. destruct c as [[] [] [] [] [] [] [] []]; reflexivity. Qed.

Lemma toLowerCase_idempotent (s : string) :
  toLowerCase (toLowerCase s) = toLowerCase s.
Proof.
  induction s as [| c s IH]; simpl; [reflexivity |].
  now rewrite lower_ascii_idempotent, IH.
Qed.

(** C7. [normalizeFormat] lower-cases its input and maps [jpg] to [jpeg]:
    ["JPG"], ["jpg"] and ["jpeg"] all give [jpeg]; it throws exactly when the
    lower-cased, jpg-mapped input is not a writable format, and otherwise
    returns that name. *)
Theorem normalizeFormat_canonical (s : string) :
  normalizeFormat "JPG" = Return "jpeg"
  /\ normalizeFormat "jpg" = Return "jpeg"
  /\ normalizeFormat "jpeg" = Return "jpeg"
  /\ ((exists e, normalizeFormat s = Throw e)
      <-> includes SUPPORTED_OUTPUT_FORMATS (jpgToJpeg (toLowerCase s)) = false)
  /\ normalizeFormat s
     = if includes SUPPORTED_OUTPUT_FORMATS (jpgToJpeg (toLowerCase s))
       then Return (jpgToJpeg (toLowerCase s))
       else Throw (Error ("Unsupported format: " ++ s)).
Proof.
  assert (E : normalizeFormat s
     = if includes SUPPORTED_OUTPUT_FORMATS (jpgToJpeg (toLowerCase s))
       then Return (jpgToJpeg (toLowerCase s))
       else Throw (Error ("Unsupported format: " ++ s))).
  { unfold normalizeFormat, isSupportedOutputFormat, jpgToJpeg.
    rewrite toLowerCase_idempotent.
    destruct (toLowerCase s =? "jpg"); reflexivity. }
  repeat split; try reflexivity; try exact E.
  - intros [e H]. rewrite E in H.
    now destruct (includes SUPPORTED_OUTPUT_FORMATS (jpgToJpeg (toLowerCase s))).
  - intros H. rewrite E, H. eauto.
Qed.

(** The cases of [config.test.ts]. *)
Example normalizeFormat_tests :
  normalizeFormat "PNG" = Return "png"
  /\ normalizeFormat "WebP" = Return "webp"
  /\ normalizeFormat "svg" = Throw (Error "Unsupported format: svg")
  /\ normalizeFormat "pdf" = Throw (Error "Unsupported format: pdf")
  /\ normalizeFormat "HEIC" = Throw (Error "Unsupported format: HEIC").
Proof. repeat split; reflexivity. Qed.

(** ** The single-image converter and the batch walker *)

Lemma filter_split_length {A : Type} (p : A -> bool) (l : list A) :
  (List.length (filter p l) + List.length (filter (fun x => negb (p x)) l)
   = List.length l)%nat.
Proof.
  induction l as [| x l IH]; simpl; [reflexivity |].
  destruct (p x); simpl; lia.
Qed.

Lemma summarize_counts (rs : list ProcessResult) :
  let s := summarize rs in
  results s = rs
  /\ total s = List.length rs
  /\ successful s = List.length (filter success rs)
  /\ failed s = List.length (filter (fun r => negb (success r)) rs)
  /\ (failed s = total s - successful s)%nat.
Proof.
  unfold summarize; cbn [results total successful failed].
  pose proof (filter_split_length success rs).
  replace (fun r => success r) with success by reflexivity.
  repeat split; lia.
Qed.

Lemma bind_returns {world A B : Type} (m : M world A) (k : A -> M world B)
    (w w' : world) (b : B) :
  bind m k w = (Return b, w') ->
  exists (a : A) (w1 : world), m w = (Return a, w1) /\ k a w1 = (Return b, w').
Proof.
  unfold bind. destruct (m w) as [[a | e] w1]; [eauto | discriminate].
Qed.

Section Walk.
Context {N : Type} {arith : Arithmetic N}.
Variable world : Type.
Variable pipeline : Type.
Variable fs_stat : string -> M world Stats.
Variable fs_access : string -> M world unit.
Variable fs_mkdir : string -> M world unit.
Variable sharp : string -> outcome pipeline.
Variable sharp_metadata : string -> M world (Metadata N).
Variable resize : pipeline -> N -> N -> ResizeOptions -> outcome pipeline.
Variable toFormat : pipeline -> string -> option N -> outcome pipeline.
Variable toFile : pipeline -> string -> M world unit.
Variable path_dirname : string -> string.
Variable path_extname : string -> string.
Variable path_basename : string -> string -> string.
Variable path_relative : string -> string -> string.
Variable path_join : string -> string -> string.
Variable findImageFiles : string -> bool -> M world (list string).

Let process := processImage fs_stat sharp sharp_metadata resize toFormat toFile.
Let outputOf := generateOutputPath path_dirname path_extname path_basename
                  path_relative path_join.
Let one := convertFile fs_stat fs_access fs_mkdir sharp sharp_metadata resize
             toFormat toFile path_dirname path_extname path_basename
             path_relative path_join.
Let walk := convertFiles fs_stat fs_access fs_mkdir sharp sharp_metadata resize
              toFormat toFile path_dirname path_extname path_basename
              path_relative path_join.
Let directory := convertDirectory fs_stat fs_access fs_mkdir sharp
                   sharp_metadata resize toFormat toFile path_dirname
                   path_extname path_basename path_relative path_join
                   findImageFiles.



(** A throw of the first [stat] comes back as that error's message, and an
    image without dimensions as the converter's own message. *)
Lemma processImage_captures (i o : string)
    (options : ImageProcessingOptions N) (w w1 : world) (e : exn) :
  fs_stat i w = (Throw e, w1) ->
  process i o options w = (Return (failedWith i o (messageOf e)), w1).
Proof.
  intros S. unfold process, processImage, try_catch, bind. now rewrite S.
Qed.

Lemma processImage_no_dimensions (i o : string)
    (options : ImageProcessingOptions N) (w w1 w2 : world) (st : Stats)
    (h : option N) :
  fs_stat i w = (Return st, w1) ->
  sharp_metadata i w1 = (Return (mkMetadata None h), w2) ->
  process i o options w
  = (Return (failedWith i o "Unable to read image dimensions"), w2).
Proof.
  intros S D. unfold process, processImage, try_catch, bind.
  rewrite S. cbv zeta. rewrite D. reflexivity.
Qed.

Lemma outputExists_found (options : CliOptions N) (out : string) (w w' : world) :
  flag (overwrite options) = false ->
  fs_access out w = (Return tt, w') ->
  outputExists fs_access options out w = (Return true, w').
Proof.
  intros F A. unfold outputExists. rewrite F. cbn [negb].
  unfold try_catch, bind. now rewrite A.
Qed.

(** The single-file path makes the same check before it converts. *)
Lemma convertSingleImage_existing_output
    (i o : string) (options : CliOptions N) (w w1 w2 : world) :
  flag (overwrite options) = false ->
  fs_mkdir (path_dirname o) w = (Return tt, w1) ->
  fs_access o w1 = (Return tt, w2) ->
  convertSingleImage fs_stat fs_access fs_mkdir sharp sharp_metadata resize
    toFormat toFile path_dirname i o options w
  = (Return (failedWith i o ALREADY_EXISTS), w2).
Proof.
  intros F D E. unfold convertSingleImage. cbv zeta. unfold bind at 1.
  rewrite D. unfold bind at 1.
  now rewrite (@outputExists_found options _ _ _ F E).
Qed.


(** C10. Every summary [convertDirectory] returns counts its own results:
    [total] is their number, [successful] the number with [success = true],
    [failed] the number with [success = false], which is [total - successful];
    the results are the list the loop produced, untouched. *)
Theorem summary_counts_results
    (inputDir outputDir : string) (options : CliOptions N)
    (w w' : world) (s : ProcessingSummary) :
  directory inputDir outputDir options w = (Return s, w') ->
  total s = List.length (results s)
  /\ successful s = List.length (filter success (results s))
  /\ failed s = List.length (filter (fun r => negb (success r)) (results s))
  /\ (failed s = total s - successful s)%nat
  /\ s = summarize (results s).
Proof.
  intros H. unfold directory, convertDirectory in H.
  apply bind_returns in H. destruct H as (? & w1 & _ & H).
  apply bind_returns in H. destruct H as (imageFiles & w2 & _ & H).
  assert (E : exists rs, s = summarize rs).
  { destruct (List.length imageFiles =? 0)%nat.
    - injection H as <- _. now exists [].
    - apply bind_returns in H. destruct H as (format & w3 & _ & H).
      apply bind_returns in H. destruct H as (rs & w4 & _ & H).
      injection H as <- _. now exists rs. }
  destruct E as [rs ->].
  destruct (summarize_counts rs) as (R & T & S & F & D).
  cbv zeta in *. rewrite R. repeat split; assumption.
Qed.

End Walk.

(** A run of [processImage] on the small disk: a missing input and an
    unsupported format both come back as failures. *)
Example processImage_failures_are_results :
  fst (Disk.processImage "in/zzz.jpg" "out/z.webp"
         (mkOptions "webp" None None None None None None None None) Disk.batch)
  = Return (failedWith "in/zzz.jpg" "out/z.webp" "ENOENT: no such file or directory")
  /\ fst (Disk.processImage "in/a.jpg" "out/a.svg"
            (mkOptions "svg" None None None None None None None None) Disk.batch)
     = Return (failedWith "in/a.jpg" "out/a.svg" "Unsupported format: svg")
  /\ fst (Disk.processImage "in/a.jpg" "out/a.webp"
            (mkOptions "webp" None None None None None None None None) Disk.batch)
     = Return (succeeded "in/a.jpg" "out/a.webp" 5000 1000).
Proof. repeat split; reflexivity. Qed.


(** Three files, the output of one already there: two successes and one
    failure. *)
Lemma summary_counts_results_witness :
  let rs := [succeeded "in/a.jpg" "out/a.webp" 5000 1000;
             failedWith "in/b.jpg" "out/b.webp" ALREADY_EXISTS;
             succeeded "in/c.png" "out/c.webp" 7000 1000] in
  let s := mkSummary 3 2 1 rs in
  let w' := (Disk.mkFile "out/c.webp" 1000 None
             :: Disk.mkFile "out/a.webp" 1000 None :: Disk.batch) in
  Disk.convertDirectory "in" "out" (Disk.toWebp None) Disk.batch = (Return s, w')
  /\ total s = List.length (results s)
  /\ successful s = List.length (filter success (results s))
  /\ failed s = List.length (filter (fun r => negb (success r)) (results s))
  /\ (failed s = total s - successful s)%nat
  /\ s = summarize (results s).
Proof.
  intros rs s w'. split; [reflexivity |].
  apply (@summary_counts_results Double.t double_arithmetic Disk.world Disk.pipeline
           Disk.fs_stat Disk.fs_access Disk.fs_mkdir Disk.sharp Disk.sharp_metadata
           Disk.resize Disk.toFormat Disk.toFile
           Disk.path_dirname Disk.path_extname Disk.path_basename
           Disk.path_relative Disk.path_join Disk.findImageFiles
           "in" "out" (Disk.toWebp None) Disk.batch w' s).
  reflexivity.
Defined.

(** * Further properties *)

(** ** The format registry and the extensions *)

Lemma includes_In (l : list string) (x : string) :
  includes l x = true <-> In x l.
Proof.
  unfold includes. rewrite existsb_exists. split.
  - intros (y & I & E). apply String.eqb_eq in E. now subst.
  - intros I. exists x. split; [assumption | apply String.eqb_refl].
Qed.

Ltac by_names :=
  repeat match goal with
         | |- context [String.eqb ?a ?b] =>
             destruct (String.eqb a b); cbn [orb]; try reflexivity
         end.

Lemma normalizeFormat_names (s g : string) :
  normalizeFormat s = Return g ->
  In g ["jpeg"; "png"; "webp"; "gif"; "tiff"; "bmp"; "avif"].
Proof.
  unfold normalizeFormat. intros H.
  destruct (toLowerCase s =? "jpg") eqn:J.
  - injection H as <-. now left.
  - destruct (isSupportedOutputFormat (toLowerCase s)) eqn:S; [| discriminate].
    injection H as <-. unfold isSupportedOutputFormat in S.
    rewrite toLowerCase_idempotent in S. apply includes_In in S.
    apply String.eqb_neq in J.
    cbn [In SUPPORTED_OUTPUT_FORMATS] in *. intuition congruence.
Qed.

(** X1. What [normalizeFormat] returns is one of the seven canonical names,
    never ["jpg"], is a writable format, and is a fixed point: normalizing it
    again returns it unchanged. *)
Theorem normalizeFormat_returns_canonical (s g : string) :
  normalizeFormat s = Return g ->
  In g ["jpeg"; "png"; "webp"; "gif"; "tiff"; "bmp"; "avif"]
  /\ g <> "jpg"
  /\ isSupportedOutputFormat g = true
  /\ normalizeFormat g = Return g.
Proof.
  intros H. pose proof (normalizeFormat_names _ H) as I.
  split; [exact I |].
  cbn [In] in I.
  repeat (destruct I as [<- | I];
          [repeat split; try reflexivity; discriminate |]).
  contradiction.
Qed.

Lemma normalizeFormat_returns_canonical_witness :
  In "jpeg" ["jpeg"; "png"; "webp"; "gif"; "tiff"; "bmp"; "avif"]
  /\ "jpeg" <> "jpg"
  /\ isSupportedOutputFormat "jpeg" = true
  /\ normalizeFormat "jpeg" = Return "jpeg".
Proof. exact (@normalizeFormat_returns_canonical "JPG" "jpeg" eq_refl). Defined.

(** X2. The three format lists are nested: a format with quality support is
    writable and a writable format is readable, the readable ones being the
    writable ones and [heic], [heif].  [formatSupportsQuality] compares the
    name as it is, the other two lower-case it first. *)
Theorem format_lists_are_nested (f : string) :
  (formatSupportsQuality f = true ->
   isSupportedOutputFormat f = true /\ toLowerCase f = f)
  /\ isSupportedInputFormat f
     = isSupportedOutputFormat f
       || (toLowerCase f =? "heic") || (toLowerCase f =? "heif").
Proof.
  split.
  - unfold formatSupportsQuality. intros H. apply includes_In in H.
    cbn [In QUALITY_SUPPORTED_FORMATS] in H.
    repeat (destruct H as [<- | H]; [split; reflexivity |]). contradiction.
  - unfold isSupportedInputFormat, isSupportedOutputFormat, includes,
      SUPPORTED_INPUT_FORMATS, SUPPORTED_OUTPUT_FORMATS.
    cbn [existsb]. by_names.
Qed.

(** X3. The extensions [findImageFiles] accepts are the readable formats and
    [tif]: [isImageExtension] is [isSupportedInputFormat] or the name [tif],
    in any letter case. *)
Theorem isImageExtension_is_readable_or_tif (extension : string) :
  isImageExtension extension
  = isSupportedInputFormat extension || (toLowerCase extension =? "tif").
Proof.
  unfold isImageExtension, isSupportedInputFormat, includes, imageExtensions,
    SUPPORTED_INPUT_FORMATS.
  cbn [existsb]. by_names.
Qed.

(** ** Looking for image files *)

Section Finding.
Variable path_extname : string -> string.
Variable path_join : string -> string -> string.

Let find := findImageFiles path_extname path_join.
Let each := eachEntry path_extname path_join.
Let imageName (entry : Dirent.t) : bool :=
  Dirent.isFile entry
  && isImageExtension (getFileExtension path_extname (Dirent.name entry)).

Lemma findImageFiles_listing (dirPath name : string)
    (entries : list Dirent.t) (recursive : bool) :
  find dirPath (Dirent.Directory name (Return entries)) recursive
  = each dirPath recursive entries [].
Proof. reflexivity. Qed.

(** The loop appends to the array it is given. *)
Lemma eachEntry_appends (dirPath : string) (recursive : bool)
    (entries : list Dirent.t) (imageFiles : list string) :
  each dirPath recursive entries imageFiles
  = match each dirPath recursive entries [] with
    | Return found => Return (imageFiles ++ found)%list
    | Throw e => Throw e
    end.
Proof.
  revert imageFiles.
  induction entries as [| entry rest IH]; intros imageFiles.
  - cbn. now rewrite app_nil_r.
  - unfold each in *. cbn [eachEntry]. cbv zeta.
    destruct (Dirent.isDirectory entry && recursive).
    + destruct (findImageFiles _ _ _ entry recursive) as [subFiles | e];
        [| reflexivity].
      rewrite (IH (imageFiles ++ subFiles)%list), (IH ([] ++ subFiles)%list).
      destruct (eachEntry _ _ _ _ rest []); [| reflexivity].
      now rewrite app_assoc.
    + destruct (Dirent.isFile entry); [| apply IH].
      destruct (isImageExtension _); [| apply IH].
      rewrite (IH (imageFiles ++ _)%list), (IH ([] ++ _)%list).
      destruct (eachEntry _ _ _ _ rest []); [| reflexivity].
      now rewrite app_assoc.
Qed.

Lemma eachEntry_flat (dirPath : string) (entries : list Dirent.t) :
  each dirPath false entries []
  = Return (map (fun entry => path_join dirPath (Dirent.name entry))
              (filter imageName entries)).
Proof.
  induction entries as [| entry rest IH]; [reflexivity |].
  unfold each in *. cbn [eachEntry]. cbv zeta.
  rewrite andb_false_r. cbn [filter]. unfold imageName at 1.
  destruct (Dirent.isFile entry); cbn [andb]; [| exact IH].
  destruct (isImageExtension _); [| exact IH].
  fold each. rewrite eachEntry_appends. unfold each. rewrite IH. reflexivity.
Qed.

(** X4. Without [recursive], [findImageFiles] returns the entries of the
    directory that are files with an image extension, joined to the
    directory path, in directory order.  Subdirectories are not opened (one
    that cannot be read does no harm) and a directory is never returned,
    whatever its name. *)
Theorem findImageFiles_not_recursive (dirPath name : string)
    (entries : list Dirent.t) :
  findImageFiles path_extname path_join dirPath
    (Dirent.Directory name (Return entries)) false
  = Return
      (map (fun entry => path_join dirPath (Dirent.name entry))
         (filter
            (fun entry =>
               Dirent.isFile entry
               && isImageExtension
                    (getFileExtension path_extname (Dirent.name entry)))
            entries)).
Proof. exact (eachEntry_flat dirPath entries). Qed.

(** Induction on a directory tree. *)
Lemma Dirent_induction (P : Dirent.t -> Prop) :
  (forall name, P (Dirent.File name)) ->
  (forall name, P (Dirent.Other name)) ->
  (forall name e, P (Dirent.Directory name (Throw e))) ->
  (forall name entries,
     Forall P entries -> P (Dirent.Directory name (Return entries))) ->
  forall entry, P entry.
Proof.
  intros HF HO HT HR.
  fix IH 1. intros [name | name [entries | e] | name].
  - apply HF.
  - apply HR. induction entries as [| entry rest IHrest].
    + constructor.
    + constructor; [apply IH | exact IHrest].
  - apply HT.
  - apply HO.
Qed.

Lemma eachEntry_step (dirPath : string) (recursive : bool)
    (entry : Dirent.t) (rest : list Dirent.t) :
  each dirPath recursive (entry :: rest) []
  = if Dirent.isDirectory entry && recursive then
      match find (path_join dirPath (Dirent.name entry)) entry recursive with
      | Return subFiles =>
          match each dirPath recursive rest [] with
          | Return found => Return (subFiles ++ found)%list
          | Throw e => Throw e
          end
      | Throw e => Throw e
      end
    else
      match each dirPath recursive rest [] with
      | Return found =>
          Return ((if imageName entry
                   then [path_join dirPath (Dirent.name entry)] else [])
                  ++ found)%list
      | Throw e => Throw e
      end.
Proof.
  unfold each, find, imageName. cbn [eachEntry]. cbv zeta.
  destruct (Dirent.isDirectory entry && recursive).
  - destruct (findImageFiles _ _ _ entry recursive) as [subFiles | e];
      [| reflexivity].
    cbn [app]. fold each. now rewrite eachEntry_appends.
  - destruct (Dirent.isFile entry); cbn [andb app].
    + destruct (isImageExtension _); cbn [app].
      * fold each. now rewrite eachEntry_appends.
      * now destruct (eachEntry _ _ _ _ rest []).
    + now destruct (eachEntry _ _ _ _ rest []).
Qed.

(** X5. With [recursive], [findImageFiles] on a directory returns a list
    exactly when every directory of the tree can be listed: a single
    unreadable directory, however deep, makes the whole search throw. *)
Theorem findImageFiles_recursive_returns (entry : Dirent.t) :
  forall dirPath,
    Dirent.isDirectory entry = true ->
    (exists files,
       findImageFiles path_extname path_join dirPath entry true = Return files)
    <-> readable entry = true.
Proof.
  change (findImageFiles path_extname path_join) with find.
  induction entry as [n | n | n e | n entries IH] using Dirent_induction;
    intros dirPath D; try discriminate D.
  - cbn. split; [intros [files H]; discriminate H | discriminate].
  - rewrite findImageFiles_listing. cbn [readable].
    clear D. induction IH as [| entry rest Hentry _ IHrest].
    + cbn. split; [intros _; reflexivity | intros _; now exists []].
    + rewrite eachEntry_step. cbn [forallb]. rewrite andb_true_r.
      rewrite andb_true_iff.
      destruct (Dirent.isDirectory entry) eqn:D.
      * specialize (Hentry (path_join dirPath (Dirent.name entry)) eq_refl).
        rewrite <- Hentry, <- IHrest.
        destruct (find _ entry true) as [subFiles | e];
          destruct (each dirPath true rest []) as [found | e'];
          (split;
           [ intros [files H]; try discriminate H; split; eauto
           | intros [[f1 H1] [f2 H2]]; try discriminate; eauto ]).
      * assert (R : readable entry = true) by (now destruct entry).
        rewrite R, <- IHrest.
        destruct (each dirPath true rest []) as [found | e'];
          (split;
           [ intros [files H]; try discriminate H; split; eauto
           | intros [_ [f H]]; try discriminate; eauto ]).
Qed.

Lemma imageFileIn_cons (dirPath : string) (entry : Dirent.t)
    (rest : list Dirent.t) (p : string) :
  imageFileIn path_extname path_join dirPath (entry :: rest) p
  <-> match entry with
      | Dirent.File name =>
          isImageExtension (getFileExtension path_extname name) = true
          /\ p = path_join dirPath name
      | Dirent.Directory name (Return sub) =>
          imageFileIn path_extname path_join (path_join dirPath name) sub p
      | _ => False
      end
      \/ imageFileIn path_extname path_join dirPath rest p.
Proof.
  split.
  - intros H. inversion H as [d es n I X | d es n sub q I B]; subst.
    + destruct I as [-> | I]; [left; now split |].
      right. now apply image_here.
    + destruct I as [-> | I]; [now left |].
      right. now apply image_below with n sub.
  - intros [H | H].
    + destruct entry as [n | n [sub | e] | n]; try contradiction.
      * destruct H as [X ->]. apply image_here; [now left | assumption].
      * apply image_below with n sub; [now left | assumption].
    + inversion H as [d es n I X | d es n sub q I B]; subst.
      * apply image_here; [now right | assumption].
      * apply image_below with n sub; [now right | assumption].
Qed.

Lemma imageFileIn_nil (dirPath p : string) :
  ~ imageFileIn path_extname path_join dirPath [] p.
Proof. intros H. inversion H; subst; contradiction. Qed.

Lemma find_members (entry : Dirent.t) :
  forall dirPath files,
    find dirPath entry true = Return files ->
    forall p,
      In p files
      <-> match entry with
          | Dirent.Directory _ (Return entries) =>
              imageFileIn path_extname path_join dirPath entries p
          | _ => False
          end.
Proof.
  induction entry as [n | n | n e | n entries IH] using Dirent_induction;
    intros dirPath files H; try discriminate H.
  rewrite findImageFiles_listing in H. revert files H.
  induction IH as [| entry rest Hentry _ IHrest]; intros files H p.
  - injection H as <-. split; [contradiction |].
    intros I. now apply imageFileIn_nil in I.
  - rewrite eachEntry_step in H. rewrite imageFileIn_cons.
    destruct (each dirPath true rest []) as [found | e'] eqn:R.
    + specialize (IHrest found eq_refl p). rewrite <- IHrest.
      destruct (Dirent.isDirectory entry) eqn:D; cbn [andb] in H.
      * destruct (find _ entry true) as [subFiles | e] eqn:F;
          [| discriminate H].
        injection H as <-. rewrite in_app_iff.
        rewrite (Hentry _ _ F p).
        destruct entry as [n' | n' [sub | e] | n']; try discriminate D;
          [reflexivity | discriminate F].
      * injection H as <-. rewrite in_app_iff. unfold imageName.
        destruct entry as [n' | n' l | n']; try discriminate D;
          cbn [Dirent.isFile Dirent.name andb In].
        -- destruct (isImageExtension _); cbn [In]; intuition congruence.
        -- tauto.
    + destruct (Dirent.isDirectory entry && true); [| discriminate H].
      destruct (find _ entry true); discriminate H.
Qed.

(** X6. With [recursive], a path is returned exactly when it is an image
    file of the tree: a file entry with an image extension, in the directory
    or in a directory below it, under the path joined along the way.  An
    entry that is neither a file nor a directory, and a directory itself
    whatever its name, are never returned. *)
Theorem findImageFiles_recursive_finds (dirPath name : string)
    (entries : list Dirent.t) (files : list string) :
  findImageFiles path_extname path_join dirPath
    (Dirent.Directory name (Return entries)) true = Return files ->
  forall p,
    In p files <-> imageFileIn path_extname path_join dirPath entries p.
Proof.
  intros H p.
  exact (find_members (Dirent.Directory name (Return entries)) dirPath H p).
Qed.

Lemma subsequence_refl {A : Type} (l : list A) : subsequence l l.
Proof. induction l; constructor; assumption. Qed.

Lemma subsequence_skip_app {A : Type} (skipped l l' : list A) :
  subsequence l l' -> subsequence l (skipped ++ l')%list.
Proof.
  intros H. induction skipped as [| x skipped IH]; [exact H |].
  cbn [app]. now constructor.
Qed.

Lemma subsequence_keep_app {A : Type} (kept l l' : list A) :
  subsequence l l' -> subsequence (kept ++ l)%list (kept ++ l')%list.
Proof.
  intros H. induction kept as [| x kept IH]; [exact H |].
  cbn [app]. now constructor.
Qed.

(** X7. What the search finds without [recursive] it also finds with it, in
    the same order: the plain result is the recursive one with the files of
    the subdirectories left out, and the two are equal when the directory has
    no subdirectory. *)
Theorem findImageFiles_recursive_extends (dirPath name : string)
    (entries : list Dirent.t) (deep : list string) :
  findImageFiles path_extname path_join dirPath
    (Dirent.Directory name (Return entries)) true = Return deep ->
  exists flat,
    findImageFiles path_extname path_join dirPath
      (Dirent.Directory name (Return entries)) false = Return flat
    /\ subsequence flat deep
    /\ (forallb (fun entry => negb (Dirent.isDirectory entry)) entries = true ->
        deep = flat).
Proof.
  change (findImageFiles path_extname path_join) with find.
  rewrite !findImageFiles_listing, eachEntry_flat.
  intros H. eexists. split; [reflexivity |].
  revert deep H. induction entries as [| entry rest IH]; intros deep H.
  - injection H as <-. split; [constructor | reflexivity].
  - rewrite eachEntry_step in H. cbn [filter forallb map].
    destruct (each dirPath true rest []) as [found | e'] eqn:R.
    + destruct (IH found eq_refl) as [S E].
      destruct (Dirent.isDirectory entry) eqn:D; cbn [andb negb] in *.
      * destruct (find _ entry true) as [subFiles | e]; [| discriminate H].
        injection H as <-.
        replace (imageName entry) with false
          by (unfold imageName; now destruct entry).
        split; [now apply subsequence_skip_app | discriminate].
      * injection H as <-.
        destruct (imageName entry); cbn [map app].
        -- split; [now constructor |]. intros F. now rewrite E.
        -- split; [assumption |]. intros F. now rewrite E.
    + destruct (Dirent.isDirectory entry && true); [| discriminate H].
      destruct (find _ entry true); discriminate H.
Qed.

End Finding.

(** ** Converting one image *)

Section Codec.
Context {N : Type} {arith : Arithmetic N}.
Variable world : Type.
Variable pipeline : Type.
Variable fs_stat : string -> M world Stats.
Variable sharp : string -> outcome pipeline.
Variable sharp_metadata : string -> M world (Metadata N).
Variable resize : pipeline -> N -> N -> ResizeOptions -> outcome pipeline.
Variable toFormat : pipeline -> string -> option N -> outcome pipeline.
Variable toFile : pipeline -> string -> M world unit.

Let process := processImage fs_stat sharp sharp_metadata resize toFormat toFile.

(** Every result of [processImage] names the two paths it was given. *)
Lemma processImage_result (i o : string) (options : ImageProcessingOptions N)
    (w : world) :
  exists (r : ProcessResult) (w' : world),
    process i o options w = (Return r, w')
    /\ inputPath r = i /\ outputPath r = o.
Proof.
  unfold process, processImage, try_catch.
  match goal with
  | |- context [match ?m w with _ => _ end] =>
      destruct (m w) as [[r | e] w'] eqn:E
  end.
  - exists r, w'. split; [reflexivity |].
    apply bind_returns in E. destruct E as (originalStats & w1 & S1 & E).
    cbv beta zeta in E.
    apply bind_returns in E. destruct E as (metadata & w2 & _ & E).
    destruct (given (meta_width metadata)); [| discriminate E].
    destruct (given (meta_height metadata)); [| discriminate E].
    repeat (apply bind_returns in E; destruct E as (? & ? & _ & E);
            cbv beta zeta in E).
    injection E as <- _. now split.
  - eexists. eexists. split; [reflexivity |]. now split.
Qed.


(** X9. With a format that [normalizeFormat] rejects, [processImage] never
    succeeds and never writes: it returns a failure, and the same one for
    every encoder and every writer, neither of which is reached. *)
Theorem processImage_unsupported_format (i o : string)
    (options : ImageProcessingOptions N) (w : world) (e : exn) :
  normalizeFormat (format options) = Throw e ->
  exists (message : string) (w' : world),
    forall (toFormat' : pipeline -> string -> option N -> outcome pipeline)
           (toFile' : pipeline -> string -> M world unit),
      processImage fs_stat sharp sharp_metadata resize toFormat' toFile'
        i o options w
      = (Return (failedWith i o message), w').
Proof.
  intros E. unfold processImage, try_catch, bind, lift, ret, throw.
  rewrite E.
  destruct (fs_stat i w) as [[st | e1] w1]; [| eauto].
  cbv zeta.
  destruct (sharp_metadata i w1) as [[metadata | e2] w2]; [| eauto].
  destruct (given (meta_width metadata)); [| eauto].
  destruct (given (meta_height metadata)); [| eauto].
  destruct (sharp i) as [p0 | e3]; [| eauto].
  destruct (strict_neq _ _ || strict_neq _ _); [| eauto].
  destruct (resize _ _ _ _) as [p1 | e4]; eauto.
Qed.

(** X10. The encoder is never asked for ["jpeg"], which goes out as ["jpg"],
    and is given a quality only for [jpg], [webp] and [avif]: two encoders
    that agree on all other calls give the same conversion. *)
Theorem processImage_encoder_calls
    (toFormat' : pipeline -> string -> option N -> outcome pipeline) :
  (forall p f q,
     f <> "jpeg" ->
     (q <> None -> In f ["jpg"; "webp"; "avif"]) ->
     toFormat' p f q = toFormat p f q) ->
  forall (i o : string) (options : ImageProcessingOptions N) (w : world),
    processImage fs_stat sharp sharp_metadata resize toFormat' toFile
      i o options w
    = processImage fs_stat sharp sharp_metadata resize toFormat toFile
        i o options w.
Proof.
  intros A i o options w. unfold processImage, try_catch, bind, lift, ret, throw.
  destruct (fs_stat i w) as [[st | e1] w1]; [| reflexivity].
  cbv zeta.
  destruct (sharp_metadata i w1) as [[metadata | e2] w2]; [| reflexivity].
  destruct (given (meta_width metadata)); [| reflexivity].
  destruct (given (meta_height metadata)); [| reflexivity].
  destruct (sharp i) as [p0 | e3]; [| reflexivity].
  assert (K : forall p1 g q,
             normalizeFormat (format options) = Return g ->
             (toFormat' p1 (if g =? "jpeg" then "jpg" else g) None
              = toFormat p1 (if g =? "jpeg" then "jpg" else g) None)
             /\ (formatSupportsQuality g = true ->
                 toFormat' p1 (if g =? "jpeg" then "jpg" else g) (Some q)
                 = toFormat p1 (if g =? "jpeg" then "jpg" else g) (Some q))).
  { intros p1 g q G. pose proof (normalizeFormat_names _ G) as I.
    cbn [In] in I.
    repeat (destruct I as [<- | I];
            [ cbn; split;
              [ apply A; [discriminate | intros X; now elim X]
              | intros Q;
                first [ discriminate Q
                      | apply A; [discriminate | intros _; cbn [In]; tauto] ] ]
            | ]).
    contradiction. }
  assert (L : forall p1,
    match normalizeFormat (format options) with
    | Return g =>
        match formatSupportsQuality g, quality options with
        | true, Some q =>
            toFormat' p1 (if g =? "jpeg" then "jpg" else g) (Some q)
        | _, _ => toFormat' p1 (if g =? "jpeg" then "jpg" else g) None
        end
    | Throw e => Throw e
    end
    = match normalizeFormat (format options) with
      | Return g =>
          match formatSupportsQuality g, quality options with
          | true, Some q =>
              toFormat p1 (if g =? "jpeg" then "jpg" else g) (Some q)
          | _, _ => toFormat p1 (if g =? "jpeg" then "jpg" else g) None
          end
      | Throw e => Throw e
      end).
  { intros p1.
    destruct (normalizeFormat (format options)) as [g | e] eqn:G;
      [| reflexivity].
    destruct (formatSupportsQuality g) eqn:Q, (quality options) as [q |].
    - destruct (K p1 g q eq_refl) as [_ K2]. exact (K2 Q).
    - destruct (K p1 g n eq_refl) as [K1 _]. exact K1.
    - destruct (K p1 g n eq_refl) as [K1 _]. exact K1.
    - destruct (K p1 g n eq_refl) as [K1 _]. exact K1. }
  destruct (strict_neq _ _ || strict_neq _ _).
  - destruct (resize _ _ _ _) as [p1 | e4]; [| reflexivity].
    specialize (L p1).
    destruct (normalizeFormat (format options)) as [g | e]; [| reflexivity].
    destruct (formatSupportsQuality g), (quality options); now rewrite L.
  - specialize (L p0).
    destruct (normalizeFormat (format options)) as [g | e]; [| reflexivity].
    destruct (formatSupportsQuality g), (quality options); now rewrite L.
Qed.

(** X11. [resize] is only ever called with [fit: 'inside'] and
    [withoutEnlargement] the negation of [allowUpscale]: two codecs whose
    [resize] agree on those calls give the same conversion.  So with upscale
    off the codec is told not to enlarge, whatever size the resolver asked
    for. *)
Theorem processImage_resize_calls
    (resize' : pipeline -> N -> N -> ResizeOptions -> outcome pipeline)
    (options : ImageProcessingOptions N) :
  (forall p width height,
     resize' p width height
       (mkResize "inside" (negb (flag (allowUpscale options))))
     = resize p width height
         (mkResize "inside" (negb (flag (allowUpscale options))))) ->
  forall (i o : string) (w : world),
    processImage fs_stat sharp sharp_metadata resize' toFormat toFile
      i o options w
    = processImage fs_stat sharp sharp_metadata resize toFormat toFile
        i o options w.
Proof.
  intros A i o w. unfold processImage, try_catch, bind, lift, ret, throw.
  destruct (fs_stat i w) as [[st | e1] w1]; [| reflexivity].
  cbv zeta.
  destruct (sharp_metadata i w1) as [[metadata | e2] w2]; [| reflexivity].
  destruct (given (meta_width metadata)); [| reflexivity].
  destruct (given (meta_height metadata)); [| reflexivity].
  destruct (sharp i) as [p0 | e3]; [| reflexivity].
  destruct (strict_neq _ _ || strict_neq _ _); [| reflexivity].
  now rewrite A.
Qed.

End Codec.

(** ** The single-file entry and the batch *)

Section Batches.
Context {N : Type} {arith : Arithmetic N}.
Variable world : Type.
Variable pipeline : Type.
Variable fs_stat : string -> M world Stats.
Variable fs_access : string -> M world unit.
Variable fs_mkdir : string -> M world unit.
Variable sharp : string -> outcome pipeline.
Variable sharp_metadata : string -> M world (Metadata N).
Variable resize : pipeline -> N -> N -> ResizeOptions -> outcome pipeline.
Variable toFormat : pipeline -> string -> option N -> outcome pipeline.
Variable toFile : pipeline -> string -> M world unit.
Variable path_dirname : string -> string.
Variable path_extname : string -> string.
Variable path_basename : string -> string -> string.
Variable path_relative : string -> string -> string.
Variable path_join : string -> string -> string.
Variable path_resolve : string -> string.
Variable findImageFiles : string -> bool -> M world (list string).

Set Default Proof Using "Type".

Let process := processImage fs_stat sharp sharp_metadata resize toFormat toFile.
Let single := convertSingleImage fs_stat fs_access fs_mkdir sharp
                sharp_metadata resize toFormat toFile path_dirname.
Let outputOf := generateOutputPath path_dirname path_extname path_basename
                  path_relative path_join.
Let one := convertFile fs_stat fs_access fs_mkdir sharp sharp_metadata resize
             toFormat toFile path_dirname path_extname path_basename
             path_relative path_join.
Let walk := convertFiles fs_stat fs_access fs_mkdir sharp sharp_metadata resize
              toFormat toFile path_dirname path_extname path_basename
              path_relative path_join.
Let directory := convertDirectory fs_stat fs_access fs_mkdir sharp
                   sharp_metadata resize toFormat toFile path_dirname
                   path_extname path_basename path_relative path_join
                   findImageFiles.
Let images := convertImages fs_stat fs_access fs_mkdir sharp sharp_metadata
                resize toFormat toFile path_dirname path_extname
                path_basename path_relative path_join path_resolve
                findImageFiles.


(** [outputExists] returns whatever [fs.access] does. *)
Lemma outputExists_returns (options : CliOptions N) (out : string) (w : world) :
  exists (blocked : bool) (w' : world),
    outputExists fs_access options out w = (Return blocked, w').
Proof.
  unfold outputExists. destruct (negb (flag (overwrite options))).
  - unfold try_catch, bind, ret. destruct (fs_access out w) as [[[] | e] w']; eauto.
  - unfold ret. eauto.
Qed.

(** X13. [convertDirectory] looks at the format only when there is a file
    to convert: when no image file is found it returns the empty summary
    even for a format [normalizeFormat] rejects, and when some are found and
    the format is rejected it throws before any file is touched. *)
Theorem convertDirectory_checks_format_late
    (inputDir outputDir : string) (options : CliOptions N)
    (files : list string) (e : exn) (w w1 w2 : world) :
  fs_mkdir outputDir w = (Return tt, w1) ->
  findImageFiles inputDir
    (match recursive options with Some b => b | None => false end) w1
  = (Return files, w2) ->
  normalizeFormat (format (processing options)) = Throw e ->
  directory inputDir outputDir options w
  = match files with
    | [] => (Return (mkSummary 0 0 0 []), w2)
    | _ :: _ => (Throw e, w2)
    end.
Proof.
  intros D F E. unfold directory, convertDirectory.
  unfold bind at 1. rewrite D. unfold bind at 1. rewrite F.
  destruct files as [| f files]; [reflexivity |].
  cbn [List.length Nat.eqb]. rewrite E. reflexivity.
Qed.

Section Batch.
Variables inputDir outputDir : string.
Variable options : CliOptions N.
Variable format : string.

(** [fs.mkdir] never throws. *)
Hypothesis mkdir_returns :
  forall (p : string) (w : world), exists w', fs_mkdir p w = (Return tt, w').

Lemma convertFile_returns (f : string) (rs : list ProcessResult) (w : world) :
  exists (r : ProcessResult) (w' : world),
    one inputDir outputDir options format f rs w = (Return (rs ++ [r])%list, w')
    /\ inputPath r = f
    /\ outputPath r = outputOf f inputDir outputDir format.
Proof using Type mkdir_returns.
  unfold one, convertFile. cbv zeta. fold outputOf.
  set (out := outputOf f inputDir outputDir format).
  destruct (outputExists_returns options out w) as (blocked & w1 & B).
  unfold bind at 1. rewrite B. destruct blocked.
  - unfold ret. eexists. eexists. split; [reflexivity |]. now split.
  - destruct (mkdir_returns (path_dirname out) w1) as (w2 & D).
    unfold bind at 1. rewrite D.
    destruct (processImage_result fs_stat sharp sharp_metadata resize toFormat
                toFile f out (optionsFor format options) w2) as (r & w3 & P & I & O).
    unfold bind, ret. rewrite P.
    exists r, w3. now repeat split.
Qed.

Lemma convertFiles_returns (files : list string) :
  forall (rs : list ProcessResult) (w : world),
  exists (new : list ProcessResult) (w' : world),
    walk inputDir outputDir options format files rs w
    = (Return (rs ++ new)%list, w')
    /\ map inputPath new = files
    /\ map outputPath new
       = map (fun f => outputOf f inputDir outputDir format) files.
Proof using Type mkdir_returns.
  induction files as [| f files IH]; intros rs w.
  - exists [], w. cbn. now rewrite app_nil_r.
  - destruct (convertFile_returns f rs w) as (r & w1 & C & I & O).
    destruct (IH (rs ++ [r])%list w1) as (new & w2 & W & Is & Os).
    exists (r :: new), w2. unfold walk in *. cbn [convertFiles].
    unfold one in C. unfold bind. rewrite C, W.
    rewrite <- app_assoc. cbn [app map]. now rewrite I, O, Is, Os.
Qed.

End Batch.

(** X14. When [fs.mkdir] does not throw and the format is accepted, the
    batch never stops early: [convertDirectory] returns a summary with one
    result for each file found, in the order found, each carrying its input
    path and the output path generated for it.  A conversion that fails is a
    result like the others. *)
Theorem convertDirectory_covers_every_file
    (inputDir outputDir : string) (options : CliOptions N)
    (files : list string) (fmt : string) (w w1 w2 : world) :
  (forall (p : string) (w : world),
     exists w', fs_mkdir p w = (Return tt, w')) ->
  fs_mkdir outputDir w = (Return tt, w1) ->
  findImageFiles inputDir
    (match recursive options with Some b => b | None => false end) w1
  = (Return files, w2) ->
  normalizeFormat (format (processing options)) = Return fmt ->
  exists (s : ProcessingSummary) (w' : world),
    directory inputDir outputDir options w = (Return s, w')
    /\ map inputPath (results s) = files
    /\ map outputPath (results s)
       = map (fun f => outputOf f inputDir outputDir fmt) files
    /\ total s = List.length files.
Proof.
  intros M D F E. unfold directory, convertDirectory.
  unfold bind at 1. rewrite D. unfold bind at 1. rewrite F.
  destruct files as [| f files].
  - cbn. eexists. eexists. split; [reflexivity |]. now repeat split.
  - cbn [List.length Nat.eqb]. rewrite E. unfold bind at 1, lift.
    destruct (convertFiles_returns inputDir outputDir options fmt M
                (f :: files) [] w2) as (new & w3 & W & Is & Os).
    unfold walk in W. unfold bind, ret. rewrite W. cbn [app].
    exists (summarize new), w3. split; [reflexivity |].
    cbn [summarize results total]. repeat split; try assumption.
    change (List.length new = List.length (f :: files)).
    rewrite <- Is. symmetry. apply length_map.
Qed.

(** X15. A [fs.mkdir] that throws for the output directory of one file ends
    the batch: the loop throws that error, the results gathered so far are
    lost, and the files after it are not looked at. *)
Theorem failing_mkdir_ends_the_batch
    (inputDir outputDir : string) (options : CliOptions N) (format : string)
    (pre post : list string) (f : string)
    (rs0 rs1 : list ProcessResult) (w0 w1 w2 w3 : world) (e : exn) :
  walk inputDir outputDir options format pre rs0 w0 = (Return rs1, w1) ->
  outputExists fs_access options (outputOf f inputDir outputDir format) w1
  = (Return false, w2) ->
  fs_mkdir (path_dirname (outputOf f inputDir outputDir format)) w2
  = (Throw e, w3) ->
  walk inputDir outputDir options format (pre ++ f :: post)%list rs0 w0
  = (Throw e, w3).
Proof.
  intros P B D.
  assert (A : forall rest rs w,
             walk inputDir outputDir options format pre rs w = (Return rs1, w1) ->
             walk inputDir outputDir options format (pre ++ rest)%list rs w
             = walk inputDir outputDir options format rest rs1 w1).
  { clear. induction pre as [| p pre' IH]; intros rest rs w H.
    - cbn in H. injection H as -> ->. reflexivity.
    - cbn [app]. unfold walk in *. cbn [convertFiles] in *. unfold bind in *.
      destruct (convertFile _ _ _ _ _ _ _ _ _ _ _ _ _ _ _ _ _ _ _ w)
        as [[rs' | e'] w'] eqn:E; [| discriminate].
      now apply IH. }
  rewrite (A _ _ _ P). unfold walk. cbn [convertFiles].
  unfold bind at 1. unfold convertFile. cbv zeta. fold outputOf.
  unfold bind at 1. rewrite B. unfold bind at 1. rewrite D. reflexivity.
Qed.

(** X16. With [overwrite] on, the output path is never checked:
    [convertFile] and [convertSingleImage] are the same for every
    [fs.access], which is not called. *)
Theorem overwrite_skips_the_check
    (fs_access' : string -> M world unit) (options : CliOptions N) :
  flag (overwrite options) = true ->
  (forall inputDir outputDir format f rs w,
     convertFile fs_stat fs_access' fs_mkdir sharp sharp_metadata resize
       toFormat toFile path_dirname path_extname path_basename path_relative
       path_join inputDir outputDir options format f rs w
     = one inputDir outputDir options format f rs w)
  /\ (forall i o w,
        convertSingleImage fs_stat fs_access' fs_mkdir sharp sharp_metadata
          resize toFormat toFile path_dirname i o options w
        = single i o options w).
Proof.
  intros F. split.
  - intros. unfold one, convertFile, outputExists. now rewrite F.
  - intros. unfold single, convertSingleImage, outputExists. now rewrite F.
Qed.

(** ** The entry point *)

Lemma convertSingleImage_result (i o : string) (options : CliOptions N)
    (w w' : world) (r : ProcessResult) :
  single i o options w = (Return r, w') -> inputPath r = i /\ outputPath r = o.
Proof.
  intros H. unfold single, convertSingleImage in H. cbv zeta in H.
  apply bind_returns in H. destruct H as (u & w1 & _ & H).
  apply bind_returns in H. destruct H as (blocked & w2 & _ & H).
  destruct blocked.
  - injection H as <- _. now split.
  - apply bind_returns in H. destruct H as (fmt & w3 & _ & H).
    destruct (processImage_result fs_stat sharp sharp_metadata resize toFormat
                toFile i o (optionsFor fmt options) w3)
      as (r' & w4 & P & I & O).
    rewrite P in H. now injection H as <- _.
Qed.

Lemma convertDirectory_summarizes (inputDir outputDir : string)
    (options : CliOptions N) (w w' : world) (s : ProcessingSummary) :
  directory inputDir outputDir options w = (Return s, w') ->
  s = summarize (results s).
Proof.
  intros H. unfold directory, convertDirectory in H.
  apply bind_returns in H. destruct H as (? & w1 & _ & H).
  apply bind_returns in H. destruct H as (imageFiles & w2 & _ & H).
  destruct (List.length imageFiles =? 0)%nat.
  - now injection H as <- _.
  - apply bind_returns in H. destruct H as (fmt & w3 & _ & H).
    apply bind_returns in H. destruct H as (rs & w4 & _ & H).
    now injection H as <- _.
Qed.

(** X17. Whatever [convertImages] throws is a new [Error] whose message
    starts with [Input path does not exist or is not accessible:], the
    resolved input path and the message of the cause, whatever the cause
    was.  So, for an input file that exists and an output directory, a format
    that [normalizeFormat] rejects is reported under that heading. *)
Theorem convertImages_wraps_every_error (options : CliOptions N) (w : world) :
  (forall e w',
     images options w = (Throw e, w') ->
     exists cause : exn,
       e = Error ("Input path does not exist or is not accessible: "
                  ++ path_resolve (input options) ++ ". " ++ messageOf cause))
  /\ (forall st w1 w2 cause,
        fs_stat (path_resolve (input options)) w = (Return st, w1) ->
        isDirectory st = false ->
        isExistingDirectory fs_stat (path_resolve (output options)) w1
        = (Return true, w2) ->
        normalizeFormat (format (processing options)) = Throw cause ->
        images options w
        = (Throw (Error ("Input path does not exist or is not accessible: "
                         ++ path_resolve (input options) ++ ". "
                         ++ messageOf cause)), w2)).
Proof.
  split.
  - intros e w' H. unfold images, convertImages in H. cbv zeta in H.
    unfold try_catch in H.
    match type of H with
    | context [match ?m w with _ => _ end] =>
        destruct (m w) as [[s | cause] w1]
    end; [discriminate H |].
    exists cause. unfold throw in H. now injection H as <- _.
  - intros st w1 w2 cause S D O E. unfold images, convertImages. cbv zeta.
    unfold try_catch. unfold bind at 1. rewrite S, D.
    unfold bind at 1. rewrite O. unfold bind at 1. rewrite E. reflexivity.
Qed.

(** X18. Every summary [convertImages] returns counts its own results, for
    a directory as for a file; for an input that is not a directory it holds
    exactly one result, for the resolved input path, so [total] is 1 and one
    of [successful] and [failed] is 1. *)
Theorem convertImages_summary (options : CliOptions N) (w w' : world)
    (s : ProcessingSummary) :
  images options w = (Return s, w') ->
  s = summarize (results s)
  /\ (forall st w1,
        fs_stat (path_resolve (input options)) w = (Return st, w1) ->
        isDirectory st = false ->
        exists r,
          results s = [r]
          /\ inputPath r = path_resolve (input options)
          /\ total s = 1%nat
          /\ (successful s + failed s = 1)%nat).
Proof.
  intros H. unfold images, convertImages in H. cbv zeta in H.
  unfold try_catch in H.
  match type of H with
  | context [match ?m w with _ => _ end] =>
      destruct (m w) as [[s' | cause] w1] eqn:B
  end; [| discriminate H].
  injection H as -> ->.
  apply bind_returns in B. destruct B as (st & w1 & S & B).
  destruct (isDirectory st) eqn:D.
  - split; [exact (convertDirectory_summarizes _ _ _ _ B) |].
    intros st' w1' S'. rewrite S in S'. injection S' as <- _. congruence.
  - apply bind_returns in B. destruct B as (outputIsDirectory & w2 & _ & B).
    apply bind_returns in B. destruct B as (finalOutputPath & w3 & _ & B).
    apply bind_returns in B. destruct B as (r & w4 & C & B).
    apply convertSingleImage_result in C. destruct C as [I _].
    injection B as <- _. cbn [results total successful failed].
    split; [unfold summarize; cbn; now destruct (success r) |].
    intros _ _ _ _. exists r. repeat split; try assumption.
    now destruct (success r).
Qed.

End Batches.

(** ** The dimension resolver, further *)

Local Open Scope Q_scope.

Section Shrinking.
Variable options : ImageProcessingOptions number.

(** The maximum-width stage on integers: neither side grows, and nothing
    changes when the width is within the maximum. *)
Lemma applyMaxWidth_shrinks (mw : option Z) (w h : Z) :
  maxWidth options = option_map of_Z mw -> positiveIfSet mw = true ->
  (0 <= w)%Z -> (0 <= h)%Z ->
  exists w' h' : Z,
    applyMaxWidth options (of_Z w, of_Z h) = (of_Z w', of_Z h')
    /\ (0 <= w' <= w)%Z /\ (0 <= h' <= h)%Z
    /\ ((forall m, mw = Some m -> (w <= m)%Z) -> w' = w /\ h' = h).
Proof.
  intros E P Hw Hh. unfold applyMaxWidth.
  rewrite E, given_positive by assumption.
  destruct mw as [m |]; cbn [option_map positiveIfSet] in *.
  - apply Z.leb_le in P. rewrite ltb_of_Z. destruct (Z.ltb_spec m w).
    + rewrite div_of_Z by lia.
      destruct (@round_scaled h (inject_Z m / inject_Z w)) as (z & -> & Hz & Hle);
        [lia | apply Qlt_le_weak, inject_Z_div_pos; lia |].
      assert (z <= h)%Z.
      { apply Hle, Qdiv_le_1; [apply inject_Z_pos; lia | apply inject_Z_le; lia]. }
      exists m, z. repeat split; try lia; specialize (H1 m eq_refl); lia.
    + exists w, h. repeat split; lia.
  - exists w, h. repeat split; lia.
Qed.

Lemma applyMaxHeight_shrinks (mh : option Z) (w h : Z) :
  maxHeight options = option_map of_Z mh -> positiveIfSet mh = true ->
  (0 <= w)%Z -> (0 <= h)%Z ->
  exists w' h' : Z,
    applyMaxHeight options (of_Z w, of_Z h) = (of_Z w', of_Z h')
    /\ (0 <= w' <= w)%Z /\ (0 <= h' <= h)%Z
    /\ ((forall m, mh = Some m -> (h <= m)%Z) -> w' = w /\ h' = h).
Proof.
  intros E P Hw Hh. unfold applyMaxHeight.
  rewrite E, given_positive by assumption.
  destruct mh as [m |]; cbn [option_map positiveIfSet] in *.
  - apply Z.leb_le in P. rewrite ltb_of_Z. destruct (Z.ltb_spec m h).
    + rewrite div_of_Z by lia.
      destruct (@round_scaled w (inject_Z m / inject_Z h)) as (z & -> & Hz & Hle);
        [lia | apply Qlt_le_weak, inject_Z_div_pos; lia |].
      assert (z <= w)%Z.
      { apply Hle, Qdiv_le_1; [apply inject_Z_pos; lia | apply inject_Z_le; lia]. }
      exists z, m. repeat split; try lia; specialize (H1 m eq_refl); lia.
    + exists w, h. repeat split; lia.
  - exists w, h. repeat split; lia.
Qed.

End Shrinking.

Local Close Scope Q_scope.
Local Open Scope Z_scope.

(** An integer that a float exceeds is within every bound the float is
    within. *)
Lemma below_of_smaller (z m : Z) (x : Double.t) :
  0 < m < 2 ^ 53 -> below z x ->
  Double.ltb (Double.of_Z m) x = true -> below z (Double.of_Z m).
Proof.
  intros Hm B L. destruct (of_Z_spec m Hm) as (mm & em & Em & Bm & Um).
  rewrite Em in *. unfold Double.ltb, SFltb in L.
  destruct x as [s | s | | [|] mx ex]; cbn [below] in B; try discriminate L.
  - subst s. discriminate L.
  - destruct B as [Bx Ux]. rewrite SFcompare_units in L by assumption.
    destruct (Z.compare_spec (units mm em) (units mx ex)); try discriminate L.
    cbn [below]. split; [assumption | lia].
Qed.

Lemma below_of_Z (z a : Z) : 0 < a < 2 ^ 53 -> a <= z -> below z (Double.of_Z a).
Proof.
  intros Ha L. destruct (of_Z_spec a Ha) as (m & e & -> & B & U).
  cbn [below]. split; [assumption |].
  rewrite U. pose proof (pow2_pos 1074 ltac:(lia)). nia.
Qed.

(** The maximum stages on doubles: what was within [zw] and [zh] stays
    within them. *)
Lemma applyMaxWidth_below (options : ImageProcessingOptions Double.t)
    (zw zh : Z) (mw : option Z) (t : target) :
  0 < zh < 2 ^ 53 ->
  maxWidth options = option_map Double.of_Z mw ->
  (forall m, mw = Some m -> 0 < m < 2 ^ 53) ->
  validPair t -> below zw (fst t) -> below zh (snd t) ->
  validPair (applyMaxWidth options t)
  /\ below zw (fst (applyMaxWidth options t))
  /\ below zh (snd (applyMaxWidth options t)).
Proof.
  intros Hz E R [V1 V2] Bw Bh. unfold applyMaxWidth. destruct t as [w h].
  cbn [fst snd] in *. rewrite E.
  destruct mw as [m |]; cbn [option_map]; [| now repeat split].
  specialize (R m eq_refl). rewrite given_of_Z_double by assumption.
  double_ops. destruct (Double.ltb (Double.of_Z m) w) eqn:L.
  - cbn [fst snd]. split; [split; cbn [fst snd]; repeat valid_step |].
    split; [now apply below_of_smaller with w |].
    now apply scaled_down_below.
  - now repeat split.
Qed.

Lemma applyMaxHeight_below (options : ImageProcessingOptions Double.t)
    (zw zh : Z) (mh : option Z) (t : target) :
  0 < zw < 2 ^ 53 ->
  maxHeight options = option_map Double.of_Z mh ->
  (forall m, mh = Some m -> 0 < m < 2 ^ 53) ->
  validPair t -> below zw (fst t) -> below zh (snd t) ->
  below zw (fst (applyMaxHeight options t))
  /\ below zh (snd (applyMaxHeight options t)).
Proof.
  intros Hz E R [V1 V2] Bw Bh. unfold applyMaxHeight. destruct t as [w h].
  cbn [fst snd] in *. rewrite E.
  destruct mh as [m |]; cbn [option_map]; [| now split].
  specialize (R m eq_refl). rewrite given_of_Z_double by assumption.
  double_ops. destruct (Double.ltb (Double.of_Z m) h) eqn:L.
  - cbn [fst snd]. split; [now apply scaled_down_below |].
    now apply below_of_smaller with h.
  - now split.
Qed.

(** A stage whose maximum is not exceeded changes nothing. *)
Lemma applyMaxWidth_fits (options : ImageProcessingOptions Double.t)
    (mw : option Z) (w h : Double.t) :
  maxWidth options = option_map Double.of_Z mw ->
  (forall m, mw = Some m -> 0 < m < 2 ^ 53 /\ below m w) ->
  applyMaxWidth options (w, h) = (w, h).
Proof.
  intros E R. unfold applyMaxWidth. rewrite E.
  destruct mw as [m |]; cbn [option_map]; [| reflexivity].
  destruct (R m eq_refl) as [Hm B].
  rewrite given_of_Z_double by assumption. double_ops.
  now rewrite (below_not_greater m w Hm B).
Qed.

Lemma applyMaxHeight_fits (options : ImageProcessingOptions Double.t)
    (mh : option Z) (w h : Double.t) :
  maxHeight options = option_map Double.of_Z mh ->
  (forall m, mh = Some m -> 0 < m < 2 ^ 53 /\ below m h) ->
  applyMaxHeight options (w, h) = (w, h).
Proof.
  intros E R. unfold applyMaxHeight. rewrite E.
  destruct mh as [m |]; cbn [option_map]; [| reflexivity].
  destruct (R m eq_refl) as [Hm B].
  rewrite given_of_Z_double by assumption. double_ops.
  now rewrite (below_not_greater m h Hm B).
Qed.

Local Close Scope Z_scope.

(** X22. With only maximums set the resolver never enlarges: on doubles
    neither resolved side exceeds the original one (all sizes below
    [2 ^ 53]), in exact arithmetic both are integers between 0 and the
    original, and an image already within the maximums is returned
    unchanged, in both arithmetics. *)
Theorem max_only_never_enlarges
    (ow oh : Z) (xw xh : option Z) (up : bool) (fmt : string) :
  let c := ConstraintSet.mk None None None None xw xh up in
  wellFormed ow oh c = true ->
  (ow < 2 ^ 53)%Z -> (oh < 2 ^ 53)%Z ->
  (forall m, xw = Some m -> (m < 2 ^ 53)%Z) ->
  (forall m, xh = Some m -> (m < 2 ^ 53)%Z) ->
  let d := calculateTargetDimensions (Double.of_Z ow) (Double.of_Z oh)
             (optionsOf Double.of_Z fmt None c) in
  let x := calculateTargetDimensions (of_Z ow) (of_Z oh)
             (optionsOf of_Z fmt None c) in
  ((Dimensions.width d >? Double.of_Z ow)%js = false
   /\ (Dimensions.height d >? Double.of_Z oh)%js = false)
  /\ (exists w h : Z,
        x = Dimensions.mk (of_Z w) (of_Z h)
        /\ (0 <= w <= ow)%Z /\ (0 <= h <= oh)%Z)
  /\ ((forall m, xw = Some m -> (ow <= m)%Z) ->
      (forall m, xh = Some m -> (oh <= m)%Z) ->
      d = Dimensions.mk (Double.of_Z ow) (Double.of_Z oh)
      /\ x = Dimensions.mk (of_Z ow) (of_Z oh)).
Proof.
  intros c WF Sw Sh Rw Rh d x.
  destruct (wellFormed_spec _ _ _ WF) as (How & Hoh & _ & _ & _ & _ & Pxw & Pxh).
  cbn [ConstraintSet.maxWidth ConstraintSet.maxHeight c] in Pxw, Pxh.
  assert (Rw' : forall m, xw = Some m -> (0 < m < 2 ^ 53)%Z).
  { intros m E. specialize (Rw m E). rewrite E in Pxw. cbn in Pxw.
    apply Z.leb_le in Pxw. lia. }
  assert (Rh' : forall m, xh = Some m -> (0 < m < 2 ^ 53)%Z).
  { intros m E. specialize (Rh m E). rewrite E in Pxh. cbn in Pxh.
    apply Z.leb_le in Pxh. lia. }
  (* the exact side *)
  set (xo := optionsOf of_Z fmt None c) in *.
  assert (Ex : x = let t := applyMaxHeight xo (applyMaxWidth xo (of_Z ow, of_Z oh))
                   in Dimensions.mk (fst t) (snd t)) by reflexivity.
  destruct (@applyMaxWidth_shrinks xo xw ow oh eq_refl Pxw ltac:(lia) ltac:(lia))
    as (w1 & h1 & E1 & Bw1 & Bh1 & F1).
  destruct (@applyMaxHeight_shrinks xo xh w1 h1 eq_refl Pxh ltac:(lia) ltac:(lia))
    as (w2 & h2 & E2 & Bw2 & Bh2 & F2).
  rewrite E1, E2 in Ex. cbn [fst snd] in Ex.
  (* the doubles *)
  set (o := optionsOf Double.of_Z fmt None c) in *.
  assert (Ed : d = let t := applyMaxHeight o
                              (applyMaxWidth o (Double.of_Z ow, Double.of_Z oh))
                   in Dimensions.mk (fst t) (snd t)) by reflexivity.
  pose proof (optionsOf_valid fmt None c) as VO. fold o in VO.
  assert (V0 : validPair (Double.of_Z ow, Double.of_Z oh))
    by (split; apply of_Z_valid).
  assert (Zw : (0 < ow < 2 ^ 53)%Z) by lia.
  assert (Zh : (0 < oh < 2 ^ 53)%Z) by lia.
  destruct (@applyMaxWidth_below o ow oh xw
              (Double.of_Z ow, Double.of_Z oh) Zh eq_refl Rw' V0
              (below_self ow Zw) (below_self oh Zh)) as (V1 & Dw1 & Dh1).
  destruct (@applyMaxHeight_below o ow oh xh _ Zw eq_refl Rh' V1 Dw1 Dh1)
    as (Dw2 & Dh2).
  split; [| split].
  - rewrite Ed. cbn [Dimensions.width Dimensions.height]. double_ops.
    split; now apply below_not_greater.
  - exists w2, h2. split; [exact Ex |]. lia.
  - intros Fw Fh. split.
    + rewrite Ed.
      rewrite (@applyMaxWidth_fits o xw (Double.of_Z ow) (Double.of_Z oh) eq_refl)
        by (intros m E; split; [now apply Rw' | apply below_of_Z; auto]).
      rewrite (@applyMaxHeight_fits o xh (Double.of_Z ow) (Double.of_Z oh) eq_refl)
        by (intros m E; split; [now apply Rh' | apply below_of_Z; auto]).
      reflexivity.
    + destruct (F1 Fw) as [-> ->]. destruct (F2 Fh) as [-> ->]. exact Ex.
Qed.

Lemma max_only_never_enlarges_witness :
  let c := ConstraintSet.mk None None None None (Some 1920%Z) (Some 1080%Z) false in
  let d := calculateTargetDimensions (Double.of_Z 4000) (Double.of_Z 3000)
             (optionsOf Double.of_Z "jpeg" None c) in
  let x := calculateTargetDimensions (of_Z 4000) (of_Z 3000)
             (optionsOf of_Z "jpeg" None c) in
  wellFormed 4000 3000 c = true
  /\ ((Dimensions.width d >? Double.of_Z 4000)%js = false
      /\ (Dimensions.height d >? Double.of_Z 3000)%js = false)
  /\ (exists w h : Z,
        x = Dimensions.mk (of_Z w) (of_Z h)
        /\ (0 <= w <= 4000)%Z /\ (0 <= h <= 3000)%Z)
  /\ ((forall m, Some 1920%Z = Some m -> (4000 <= m)%Z) ->
      (forall m, Some 1080%Z = Some m -> (3000 <= m)%Z) ->
      d = Dimensions.mk (Double.of_Z 4000) (Double.of_Z 3000)
      /\ x = Dimensions.mk (of_Z 4000) (of_Z 3000)).
Proof.
  intros c d x. split; [reflexivity |].
  apply (@max_only_never_enlarges 4000 3000 (Some 1920%Z) (Some 1080%Z) false
           "jpeg" eq_refl eq_refl eq_refl);
    intros m [= <-]; reflexivity.
Defined.

Local Open Scope Q_scope.

(** A resolved dimension need not be finite: 1000x1 with [width = 1],
    [minHeight = 5] and upscale has its height rounded to 0, and the
    minimum-height stage scales the width by [5 / 0]. *)
Example infinite_width_on_doubles :
  resolveDouble 1000 1
    (ConstraintSet.mk (Some 1%Z) None None (Some 5%Z) None None true)
  = Dimensions.mk (S754_infinity false) (Double.of_Z 5).
Proof. reflexivity. Qed.

Local Close Scope Q_scope.

(** ** When the codec is asked to resize *)

Lemma given_truthy {N : Type} {arith : Arithmetic N} (o : option N) (v : N) :
  given o = Some v -> truthy v = true.
Proof.
  unfold given. destruct o as [x |]; [| discriminate].
  destruct (truthy x) eqn:T; [| discriminate]. now intros [= <-].
Qed.

(** A double that is truthy is equal to itself. *)
Lemma strict_neq_same (x : Double.t) :
  Double.truthy x = true -> Double.strict_neq x x = false.
Proof.
  unfold Double.strict_neq, SFeqb, SFcompare.
  destruct x as [s | s | | s m e]; try discriminate; intros _.
  - now destruct s.
  - rewrite Z.compare_refl, Pos.compare_cont_refl. now destruct s.
Qed.

(** X25. With no size constraint in the options [processImage] never calls
    [resize]: on doubles the resolved dimensions are the ones the metadata
    gave, both comparisons [!==] are false, and the conversion is the same
    for every [resize]. *)
Theorem processImage_skips_resize
    (world pipeline : Type)
    (fs_stat : string -> M world Stats)
    (sharp : string -> outcome pipeline)
    (sharp_metadata : string -> M world (Metadata Double.t))
    (resize resize' :
       pipeline -> Double.t -> Double.t -> ResizeOptions -> outcome pipeline)
    (toFormat : pipeline -> string -> option Double.t -> outcome pipeline)
    (toFile : pipeline -> string -> M world unit)
    (i o fmt : string) (q : option Double.t) (up : option bool) (w : world) :
  processImage fs_stat sharp sharp_metadata resize toFormat toFile i o
    (mkOptions fmt None None None None None None q up) w
  = processImage fs_stat sharp sharp_metadata resize' toFormat toFile i o
      (mkOptions fmt None None None None None None q up) w.
Proof.
  unfold processImage, try_catch, bind.
  destruct (fs_stat i w) as [[st | e1] w1]; [| reflexivity].
  cbv zeta.
  destruct (sharp_metadata i w1) as [[metadata | e2] w2]; [| reflexivity].
  destruct (given (meta_width metadata)) as [mw |] eqn:Gw; [| reflexivity].
  destruct (given (meta_height metadata)) as [mh |] eqn:Gh; [| reflexivity].
  change (calculateTargetDimensions mw mh
            (mkOptions fmt None None None None None None q up))
    with (Dimensions.mk mw mh).
  cbn [Dimensions.width Dimensions.height strict_neq double_arithmetic].
  rewrite (@strict_neq_same mw (given_truthy _ Gw)),
    (@strict_neq_same mh (given_truthy _ Gh)).
  reflexivity.
Qed.

(** ** The properties above on the samples *)

(** The search of [photos/]: the link and the two directories are not
    returned, their files are. *)
Lemma findImageFiles_recursive_finds_witness :
  Samples.findImageFiles "photos" Samples.photos true
  = Return ["photos/a.JPG"; "photos/scans/b.tif"; "photos/scans/deep/d.webp";
            "photos/shots.png/e.gif"; "photos/z.png"]
  /\ (In "photos/scans/deep/d.webp"
        ["photos/a.JPG"; "photos/scans/b.tif"; "photos/scans/deep/d.webp";
         "photos/shots.png/e.gif"; "photos/z.png"]
      <-> imageFileIn Disk.path_extname Disk.path_join "photos" Samples.entries
            "photos/scans/deep/d.webp").
Proof.
  split; [reflexivity |].
  exact (@findImageFiles_recursive_finds Disk.path_extname Disk.path_join
           "photos" "photos" Samples.entries _ eq_refl
           "photos/scans/deep/d.webp").
Defined.

Lemma findImageFiles_recursive_extends_witness :
  exists flat,
    Samples.findImageFiles "photos" Samples.photos false = Return flat
    /\ subsequence flat
         ["photos/a.JPG"; "photos/scans/b.tif"; "photos/scans/deep/d.webp";
          "photos/shots.png/e.gif"; "photos/z.png"]
    /\ (forallb (fun entry => negb (Dirent.isDirectory entry)) Samples.entries
        = true ->
        ["photos/a.JPG"; "photos/scans/b.tif"; "photos/scans/deep/d.webp";
         "photos/shots.png/e.gif"; "photos/z.png"] = flat).
Proof.
  exact (@findImageFiles_recursive_extends Disk.path_extname Disk.path_join
           "photos" "photos" Samples.entries _ eq_refl).
Defined.

Lemma findImageFiles_recursive_returns_witness :
  (exists files,
     Samples.findImageFiles "photos" Samples.photos true = Return files)
  <-> readable Samples.photos = true.
Proof.
  exact (@findImageFiles_recursive_returns Disk.path_extname Disk.path_join
           Samples.photos "photos" eq_refl).
Defined.

(** A directory that cannot be listed stops the recursive search only. *)
Example findImageFiles_guarded :
  Samples.findImageFiles "photos" Samples.guarded true
  = Throw (Error "EACCES: permission denied, scandir")
  /\ Samples.findImageFiles "photos" Samples.guarded false
     = Return ["photos/a.JPG"]
  /\ readable Samples.guarded = false
  /\ readable Samples.photos = true.
Proof. repeat split; reflexivity. Qed.


Lemma processImage_unsupported_format_witness :
  exists (message : string) (w' : Disk.world),
    forall (toFormat' : Disk.pipeline -> string -> option Double.t
                        -> outcome Disk.pipeline)
           (toFile' : Disk.pipeline -> string -> M Disk.world unit),
      processImage Disk.fs_stat Disk.sharp Disk.sharp_metadata Disk.resize
        toFormat' toFile' "in/a.jpg" "out/a.svg"
        (mkOptions "svg" None None None None None None None None) Disk.batch
      = (Return (failedWith "in/a.jpg" "out/a.svg" message), w').
Proof.
  exact (@processImage_unsupported_format Double.t double_arithmetic
           Disk.world Disk.pipeline Disk.fs_stat Disk.sharp Disk.sharp_metadata
           Disk.resize "in/a.jpg" "out/a.svg"
           (mkOptions "svg" None None None None None None None None)
           Disk.batch (Error "Unsupported format: svg") eq_refl).
Defined.

Lemma strictEncoder_agrees (p : Disk.pipeline) (f : string)
    (q : option Double.t) :
  f <> "jpeg" ->
  (q <> None -> In f ["jpg"; "webp"; "avif"]) ->
  Samples.strictEncoder p f q = Disk.toFormat p f q.
Proof.
  intros J Q. unfold Samples.strictEncoder.
  destruct (String.eqb_spec f "jpeg") as [-> | _]; [now elim J |].
  destruct q as [q |]; [| reflexivity].
  destruct (Q ltac:(discriminate)) as [<- | [<- | [<- | []]]]; reflexivity.
Qed.

(** The strict encoder converts [in/a.jpg] to JPEG at quality 80 as the
    lenient one does. *)
Lemma processImage_encoder_calls_witness :
  processImage Disk.fs_stat Disk.sharp Disk.sharp_metadata Disk.resize
    Samples.strictEncoder Disk.toFile "in/a.jpg" "out/a.jpg"
    (mkOptions "JPEG" None None None None None None (Some (Double.of_Z 80)) None)
    Disk.batch
  = processImage Disk.fs_stat Disk.sharp Disk.sharp_metadata Disk.resize
      Disk.toFormat Disk.toFile "in/a.jpg" "out/a.jpg"
      (mkOptions "JPEG" None None None None None None (Some (Double.of_Z 80)) None)
      Disk.batch.
Proof.
  exact (@processImage_encoder_calls Double.t double_arithmetic
           Disk.world Disk.pipeline Disk.fs_stat Disk.sharp Disk.sharp_metadata
           Disk.resize Disk.toFormat Disk.toFile Samples.strictEncoder
           strictEncoder_agrees "in/a.jpg" "out/a.jpg"
           (mkOptions "JPEG" None None None None None None
              (Some (Double.of_Z 80)) None)
           Disk.batch).
Defined.

Lemma processImage_resize_calls_witness :
  processImage Disk.fs_stat Disk.sharp Disk.sharp_metadata
    (fun p w h o =>
       if withoutEnlargement o then Disk.resize p w h o
       else Throw (Error "enlarging is off"))
    Disk.toFormat Disk.toFile "in/a.jpg" "out/a.webp"
    (mkOptions "webp" (Some (Double.of_Z 500)) None None None None None None None)
    Disk.batch
  = processImage Disk.fs_stat Disk.sharp Disk.sharp_metadata Disk.resize
      Disk.toFormat Disk.toFile "in/a.jpg" "out/a.webp"
      (mkOptions "webp" (Some (Double.of_Z 500)) None None None None None None None)
      Disk.batch.
Proof.
  exact (@processImage_resize_calls Double.t double_arithmetic
           Disk.world Disk.pipeline Disk.fs_stat Disk.sharp Disk.sharp_metadata
           Disk.resize Disk.toFormat Disk.toFile
           (fun p w h o =>
              if withoutEnlargement o then Disk.resize p w h o
              else Throw (Error "enlarging is off"))
           (mkOptions "webp" (Some (Double.of_Z 500)) None None None None None
              None None)
           (fun p w h => eq_refl) "in/a.jpg" "out/a.webp" Disk.batch).
Defined.


(** [svg] for a directory with images and for one without. *)
Lemma convertDirectory_checks_format_late_witness :
  Disk.convertDirectory "in" "out" (Samples.plain "svg" "in" "out" None)
    Disk.batch
  = (Throw (Error "Unsupported format: svg"), Disk.batch)
  /\ Disk.convertDirectory "empty" "out"
       (Samples.plain "svg" "empty" "out" None) Disk.batch
     = (Return (mkSummary 0 0 0 []), Disk.batch).
Proof.
  split.
  - exact (@convertDirectory_checks_format_late Double.t double_arithmetic
             Disk.world Disk.pipeline Disk.fs_stat Disk.fs_access Disk.fs_mkdir
             Disk.sharp Disk.sharp_metadata Disk.resize Disk.toFormat
             Disk.toFile Disk.path_dirname Disk.path_extname Disk.path_basename
             Disk.path_relative Disk.path_join Disk.findImageFiles
             "in" "out" (Samples.plain "svg" "in" "out" None)
             ["in/a.jpg"; "in/b.jpg"; "in/c.png"]
             (Error "Unsupported format: svg")
             Disk.batch Disk.batch Disk.batch eq_refl eq_refl eq_refl).
  - exact (@convertDirectory_checks_format_late Double.t double_arithmetic
             Disk.world Disk.pipeline Disk.fs_stat Disk.fs_access Disk.fs_mkdir
             Disk.sharp Disk.sharp_metadata Disk.resize Disk.toFormat
             Disk.toFile Disk.path_dirname Disk.path_extname Disk.path_basename
             Disk.path_relative Disk.path_join Disk.findImageFiles
             "empty" "out" (Samples.plain "svg" "empty" "out" None)
             []
             (Error "Unsupported format: svg")
             Disk.batch Disk.batch Disk.batch eq_refl eq_refl eq_refl).
Defined.

(** The batch of three with the format given as [JPG]: three results, and
    the outputs carry the normalized name, [.jpeg]. *)
Lemma convertDirectory_covers_every_file_witness :
  exists (s : ProcessingSummary) (w' : Disk.world),
    Disk.convertDirectory "in" "out" (Samples.plain "JPG" "in" "out" None)
      Disk.batch
    = (Return s, w')
    /\ map inputPath (results s) = ["in/a.jpg"; "in/b.jpg"; "in/c.png"]
    /\ map outputPath (results s)
       = map (fun f =>
                generateOutputPath Disk.path_dirname Disk.path_extname
                  Disk.path_basename Disk.path_relative Disk.path_join
                  f "in" "out" "jpeg")
           ["in/a.jpg"; "in/b.jpg"; "in/c.png"]
    /\ total s = List.length ["in/a.jpg"; "in/b.jpg"; "in/c.png"].
Proof.
  apply (@convertDirectory_covers_every_file Double.t double_arithmetic
           Disk.world Disk.pipeline Disk.fs_stat Disk.fs_access Disk.fs_mkdir
           Disk.sharp Disk.sharp_metadata Disk.resize Disk.toFormat
           Disk.toFile Disk.path_dirname Disk.path_extname Disk.path_basename
           Disk.path_relative Disk.path_join Disk.findImageFiles
           "in" "out" (Samples.plain "JPG" "in" "out" None)
           ["in/a.jpg"; "in/b.jpg"; "in/c.png"] "jpeg"
           Disk.batch Disk.batch Disk.batch).
  - intros p w. exists w. reflexivity.
  - reflexivity.
  - reflexivity.
  - reflexivity.
Defined.

Example batch_output_names :
  map (fun f =>
         generateOutputPath Disk.path_dirname Disk.path_extname
           Disk.path_basename Disk.path_relative Disk.path_join
           f "in" "out" "jpeg")
    ["in/a.jpg"; "in/b.jpg"; "in/c.png"]
  = ["out/a.jpeg"; "out/b.jpeg"; "out/c.jpeg"].
Proof. reflexivity. Qed.

(** With a [fs.mkdir] that is refused the first file ends the loop. *)
Lemma failing_mkdir_ends_the_batch_witness :
  convertFiles Disk.fs_stat Disk.fs_access Samples.mkdir_denied Disk.sharp
    Disk.sharp_metadata Disk.resize Disk.toFormat Disk.toFile
    Disk.path_dirname Disk.path_extname Disk.path_basename Disk.path_relative
    Disk.path_join "in" "out" (Disk.toWebp None) "webp"
    ([] ++ "in/a.jpg" :: ["in/b.jpg"; "in/c.png"])%list [] Disk.batch
  = (Throw (Error "EACCES: permission denied, mkdir"), Disk.batch).
Proof.
  exact (@failing_mkdir_ends_the_batch Double.t double_arithmetic
           Disk.world Disk.pipeline Disk.fs_stat Disk.fs_access
           Samples.mkdir_denied Disk.sharp Disk.sharp_metadata Disk.resize
           Disk.toFormat Disk.toFile Disk.path_dirname Disk.path_extname
           Disk.path_basename Disk.path_relative Disk.path_join
           "in" "out" (Disk.toWebp None) "webp"
           [] ["in/b.jpg"; "in/c.png"] "in/a.jpg" [] []
           Disk.batch Disk.batch Disk.batch Disk.batch
           (Error "EACCES: permission denied, mkdir")
           eq_refl eq_refl eq_refl).
Defined.

(** With [overwrite] on, [in/b.jpg] is converted although [out/b.webp] is
    there, and a [fs.access] that is refused changes nothing. *)
Lemma overwrite_skips_the_check_witness :
  convertFile Disk.fs_stat Samples.mkdir_denied Disk.fs_mkdir Disk.sharp
    Disk.sharp_metadata Disk.resize Disk.toFormat Disk.toFile
    Disk.path_dirname Disk.path_extname Disk.path_basename Disk.path_relative
    Disk.path_join "in" "out" (Disk.toWebp (Some true)) "webp" "in/b.jpg" []
    Disk.batch
  = Disk.convertFile "in" "out" (Disk.toWebp (Some true)) "webp" "in/b.jpg" []
      Disk.batch.
Proof.
  exact (proj1
           (@overwrite_skips_the_check Double.t double_arithmetic
              Disk.world Disk.pipeline Disk.fs_stat Disk.fs_access Disk.fs_mkdir
              Disk.sharp Disk.sharp_metadata Disk.resize Disk.toFormat
              Disk.toFile Disk.path_dirname Disk.path_extname
              Disk.path_basename Disk.path_relative Disk.path_join
              Samples.mkdir_denied (Disk.toWebp (Some true)) eq_refl)
           "in" "out" "webp" "in/b.jpg" [] Disk.batch).
Defined.

Example overwrite_converts_again :
  fst (Disk.convertFile "in" "out" (Disk.toWebp (Some true)) "webp"
         "in/b.jpg" [] Disk.batch)
  = Return [succeeded "in/b.jpg" "out/b.webp" 6000 1000].
Proof. reflexivity. Qed.

(** An input that exists, a format that does not: the error speaks of the
    input path.  An input that is missing gets the same heading. *)
Example convertImages_misleading_message :
  fst (Samples.convertImages (Samples.plain "svg" "in/a.jpg" "out/a.svg" None)
         Disk.batch)
  = Throw (Error ("Input path does not exist or is not accessible: in/a.jpg. "
                  ++ "Unsupported format: svg"))
  /\ fst (Samples.convertImages
            (Samples.plain "webp" "nowhere" "out/b.webp" None) Disk.batch)
     = Throw (Error ("Input path does not exist or is not accessible: nowhere. "
                     ++ "ENOENT: no such file or directory")).
Proof. split; reflexivity. Qed.

Lemma convertImages_summary_witness :
  let s := mkSummary 1 0 1
             [failedWith "in/a.jpg" "out/b.webp" ALREADY_EXISTS] in
  Samples.convertImages (Samples.plain "webp" "in/a.jpg" "out/b.webp" None)
    Disk.batch
  = (Return s, Disk.batch)
  /\ s = summarize (results s)
  /\ (forall st w1,
        Disk.fs_stat "in/a.jpg" Disk.batch = (Return st, w1) ->
        isDirectory st = false ->
        exists r,
          results s = [r]
          /\ inputPath r = "in/a.jpg"
          /\ total s = 1%nat
          /\ (successful s + failed s = 1)%nat).
Proof.
  intros s. split; [reflexivity |].
  exact (@convertImages_summary Double.t double_arithmetic
           Disk.world Disk.pipeline Disk.fs_stat Disk.fs_access Disk.fs_mkdir
           Disk.sharp Disk.sharp_metadata Disk.resize Disk.toFormat
           Disk.toFile Disk.path_dirname Disk.path_extname Disk.path_basename
           Disk.path_relative Disk.path_join (fun p => p) Disk.findImageFiles
           (Samples.plain "webp" "in/a.jpg" "out/b.webp" None)
           Disk.batch Disk.batch s eq_refl).
Defined.

(** ** Integer ratios on doubles *)

Local Open Scope Z_scope.

(** X26. On doubles, a single target gives the integers of exact arithmetic:
    with only [width] set the resolved height is
    [(2 * originalHeight * width + originalWidth) / (2 * originalWidth)],
    and with only [height] set the resolved width is
    [(2 * originalWidth * height + originalHeight) / (2 * originalHeight)],
    the ratio rounded half up, for every image whose product of a side and
    the target is below [2 ^ 51]. *)
Theorem single_target_on_doubles
    (ow oh t : Z) (fmt : string) (q : option Double.t) (up : option bool) :
  1 <= ow < 2 ^ 53 -> 1 <= oh < 2 ^ 53 -> 1 <= t ->
  (oh * t < 2 ^ 51 ->
   calculateTargetDimensions (Double.of_Z ow) (Double.of_Z oh)
     (mkOptions fmt (Some (Double.of_Z t)) None None None None None q up)
   = Dimensions.mk (Double.of_Z t)
       (Double.of_Z ((2 * oh * t + ow) / (2 * ow))))
  /\ (ow * t < 2 ^ 51 ->
      calculateTargetDimensions (Double.of_Z ow) (Double.of_Z oh)
        (mkOptions fmt None (Some (Double.of_Z t)) None None None None q up)
      = Dimensions.mk (Double.of_Z ((2 * ow * t + oh) / (2 * oh)))
          (Double.of_Z t)).
Proof.
  intros How Hoh Ht. split; intros P.
  - rewrite only_width_given by (apply truthy_of_Z_double; nia).
    double_ops. now rewrite round_ratio_double by lia.
  - rewrite only_height_given by (apply truthy_of_Z_double; nia).
    double_ops. now rewrite round_ratio_double by lia.
Qed.

Lemma single_target_on_doubles_witness :
  calculateTargetDimensions (Double.of_Z 4000) (Double.of_Z 3000)
    (mkOptions "png" (Some (Double.of_Z 1200)) None None None None None None None)
  = Dimensions.mk (Double.of_Z 1200) (Double.of_Z 900)
  /\ calculateTargetDimensions (Double.of_Z 4000) (Double.of_Z 3000)
       (mkOptions "png" None (Some (Double.of_Z 1000)) None None None None None None)
     = Dimensions.mk (Double.of_Z 1333) (Double.of_Z 1000).
Proof.
  split.
  - apply (@single_target_on_doubles 4000 3000 1200 "png" None None); lia.
  - apply (@single_target_on_doubles 4000 3000 1000 "png" None None); lia.
Defined.

(** X27. On doubles, a minimum applied with upscale disallowed changes one
    side only: the other side is recomputed as
    [round (side * minimum / minimum)], the divisor being the side already
    overwritten, and for an integer side that is the side itself, whatever
    the aspect ratio was. *)
Theorem min_no_upscale_on_doubles
    (options : ImageProcessingOptions Double.t) (side m : Z) (current : Double.t) :
  1 <= side -> 1 <= m -> side * m < 2 ^ 51 ->
  flag (allowUpscale options) = false ->
  Double.ltb current (Double.of_Z m) = true ->
  (given (minWidth options) = Some (Double.of_Z m) ->
   applyMinWidth options (current, Double.of_Z side)
   = (Double.of_Z m, Double.of_Z side))
  /\ (given (minHeight options) = Some (Double.of_Z m) ->
      applyMinHeight options (Double.of_Z side, current)
      = (Double.of_Z side, Double.of_Z m)).
Proof.
  intros Hs Hm P F L.
  assert (R : Double.Math_round
                (Double.div (Double.mul (Double.of_Z side) (Double.of_Z m))
                   (Double.of_Z m))
              = Double.of_Z side).
  { rewrite round_ratio_double by nia. f_equal.
    symmetry. apply Z.div_unique with (r := m); lia. }
  split; intros G.
  - rewrite (applyMinWidth_no_upscale options current (Double.of_Z side) G L F).
    double_ops. now rewrite R.
  - rewrite (applyMinHeight_no_upscale options (Double.of_Z side) current G L F).
    double_ops. now rewrite R.
Qed.

Lemma min_no_upscale_on_doubles_witness :
  let options : ImageProcessingOptions Double.t :=
    mkOptions "png" None None (Some (Double.of_Z 300)) (Some (Double.of_Z 300))
      None None None None in
  applyMinWidth options (Double.of_Z 100, Double.of_Z 400)
  = (Double.of_Z 300, Double.of_Z 400)
  /\ applyMinHeight options (Double.of_Z 400, Double.of_Z 100)
     = (Double.of_Z 400, Double.of_Z 300).
Proof.
  intros options.
  destruct (@min_no_upscale_on_doubles options 400 300 (Double.of_Z 100)
              ltac:(lia) ltac:(lia) ltac:(lia) eq_refl eq_refl) as [W H].
  split; [exact (W eq_refl) | exact (H eq_refl)].
Defined.

(** X21. A dimension can come out as zero, on doubles: with only [width]
    set the resolved height is 0 exactly when the image is more than
    [2 * originalHeight * width] wide, and with only [height] set the
    resolved width is 0 exactly when it is more than
    [2 * originalWidth * height] high (products below [2 ^ 51]). *)
Theorem zero_dimension
    (ow oh t : Z) (fmt : string) (q : option Double.t) (up : option bool) :
  1 <= ow < 2 ^ 53 -> 1 <= oh < 2 ^ 53 -> 1 <= t ->
  (oh * t < 2 ^ 51 ->
   (Dimensions.height
      (calculateTargetDimensions (Double.of_Z ow) (Double.of_Z oh)
         (mkOptions fmt (Some (Double.of_Z t)) None None None None None q up))
    = Double.of_Z 0
    <-> 2 * oh * t < ow))
  /\ (ow * t < 2 ^ 51 ->
      (Dimensions.width
         (calculateTargetDimensions (Double.of_Z ow) (Double.of_Z oh)
            (mkOptions fmt None (Some (Double.of_Z t)) None None None None q up))
       = Double.of_Z 0
       <-> 2 * ow * t < oh)).
Proof.
  intros How Hoh Ht.
  assert (Z0 : forall n c : Z, 0 <= n -> 0 < c ->
            ((2 * n + c) / (2 * c) = 0 <-> 2 * n < c)).
  { intros n c Hn Hc. rewrite Z.div_small_iff by lia. lia. }
  assert (Sm : forall n c : Z, 0 <= n < 2 ^ 51 -> 0 < c ->
            0 <= (2 * n + c) / (2 * c) < 2 ^ 53).
  { intros n c Hn Hc. split; [apply Z.div_pos; lia |].
    apply Z.div_lt_upper_bound; nia. }
  split; intros P.
  - rewrite only_width_given by (apply truthy_of_Z_double; nia).
    cbn [Dimensions.height]. double_ops. rewrite round_ratio_double by lia.
    replace (2 * oh * t) with (2 * (oh * t)) by ring.
    rewrite <- Z0 by nia. split.
    + apply of_Z_double_zero. apply Sm; nia.
    + now intros ->.
  - rewrite only_height_given by (apply truthy_of_Z_double; nia).
    cbn [Dimensions.width]. double_ops. rewrite round_ratio_double by lia.
    replace (2 * ow * t) with (2 * (ow * t)) by ring.
    rewrite <- Z0 by nia. split.
    + apply of_Z_double_zero. apply Sm; nia.
    + now intros ->.
Qed.

Lemma zero_dimension_witness :
  (Dimensions.height
     (calculateTargetDimensions (Double.of_Z 1000) (Double.of_Z 2)
        (mkOptions "png" (Some (Double.of_Z 100)) None None None None None
           None None))
   = Double.of_Z 0
   <-> 2 * 2 * 100 < 1000)
  /\ (Dimensions.width
        (calculateTargetDimensions (Double.of_Z 1000) (Double.of_Z 2)
           (mkOptions "png" None (Some (Double.of_Z 100)) None None None None
              None None))
      = Double.of_Z 0
      <-> 2 * 1000 * 100 < 2).
Proof.
  destruct (@zero_dimension 1000 2 100 "png" None None
              ltac:(lia) ltac:(lia) ltac:(lia)) as [H W].
  split; [apply H | apply W]; lia.
Defined.

Local Close Scope Z_scope.
